(** * novel-downloaded: the fetch-and-assemble pipeline

    A shallow embedding of the JavaScript sources
    - [utils.js]   ([sanitizeFilename], [retry], [fetchWithBypassRaw]),
    - [worker.js]  ([downloadNovel] and the message handler of a worker thread),
    - [automate.js] (the single-process [downloadNovel]),
    - [epub-builder.js] (the output file name of [buildEpub]),
    - [worker-manager.js] (class [WorkerPool] and [epubExists]),
    - [scraper.js] (the slugs and the chapter text it makes),
    - [sync-library.js] and the library build script ([slugify],
      [syncLibrary], [main]),
    - [index.js] (the sequential [downloadNovel], the slug of [--url]),
    together with the properties the specification states about them and
    further properties of the code. *)

From Stdlib Require Import ZArith NArith Lia Ascii String DecimalString.
From stdpp Require Import base list.

Local Open Scope Z_scope.
Local Open Scope nat_scope.
Local Open Scope list_scope.

(** ** JavaScript values

    A JavaScript string is a sequence of UTF-16 code units; regular
    expressions without the [u] flag and [String.prototype.trim] work on code
    units, so a string is modelled as the list of its code units. *)

Abbreviation jsstring := (list N).

(** A string literal of the source (ASCII only). *)
Definition lit (s : string) : list N :=
  List.map N_of_ascii (list_ascii_of_string s).

(** [ToBoolean] of a string: only the empty string is falsy. *)
Definition truthy_str (s : list N) : bool :=
  match s with [] => false | _ :: _ => true end.

(** [a || b] on strings. *)
Definition or_str (a b : list N) : list N := if truthy_str a then a else b.

(** [String(n)] for a non-negative integer [n] (as in a template literal). *)
Definition num_to_str (n : nat) : list N :=
  lit (NilZero.string_of_uint (Nat.to_uint n)).

(** The characters matched by [\s] in a regular expression; the same set
    (WhiteSpace and LineTerminator code points) is stripped by [trim()]. *)
Definition is_space (c : N) : bool :=
  ((9 <=? c) && (c <=? 13) || (c =? 32) || (c =? 160) || (c =? 5760)
   || (8192 <=? c) && (c <=? 8202) || (c =? 8232) || (c =? 8233)
   || (c =? 8239) || (c =? 8287) || (c =? 12288) || (c =? 65279))%N.

(** [s.trimStart()]. *)
Fixpoint trimStart (s : list N) : list N :=
  match s with
  | [] => []
  | c :: t => if is_space c then trimStart t else s
  end.

(** [s.trimEnd()]. *)
Definition trimEnd (s : list N) : list N := rev (trimStart (rev s)).

(** [s.trim()]. *)
Definition trim (s : list N) : list N := trimEnd (trimStart s).

(** White space occurs in [l] only as single spaces: each white-space code
    unit is 32 and is not followed by another one. *)
Fixpoint single_spaced (l : list N) : Prop :=
  match l with
  | [] => True
  | c :: t =>
      (is_space c = true ->
       c = 32%N /\ match t with [] => True | d :: _ => is_space d = false end)
      /\ single_spaced t
  end.

(** The first code unit of a string, if any, is not white space. *)
Definition no_leading_space (s : list N) : Prop :=
  match s with [] => True | c :: _ => is_space c = false end.

(** The last code unit of a string, if any, is not white space. *)
Definition no_trailing_space (s : list N) : Prop := no_leading_space (rev s).

(** The nine characters deleted by [sanitizeFilename]; the double quote is
    given by its code unit. *)
Definition forbidden_chars : list N := lit "<>:" ++ [34%N] ++ lit "/\|?*".

(** ** utils.js: sanitizeFilename *)

Module Utils.

(** The character class of the first [replace]: the code units of
    less-than, greater-than, colon, double quote, slash, backslash, vertical
    bar, question mark and asterisk. *)
Definition is_forbidden (c : N) : bool :=
  ((c =? 60) || (c =? 62) || (c =? 58) || (c =? 34) || (c =? 47)
   || (c =? 92) || (c =? 124) || (c =? 63) || (c =? 42))%N.

(** The first [replace] (global flag, empty replacement): every code unit
    of the class is deleted. *)
Definition strip_forbidden (s : list N) : list N :=
  List.filter (fun c => negb (is_forbidden c)) s.

(** [.replace(/\s+/g, ' ')]: the scan goes left to right and every maximal
    run of white space becomes one space (code unit 32).  [in_run] tells
    that the previous code unit belonged to the run being replaced. *)
Fixpoint collapse_from (in_run : bool) (s : list N) : list N :=
  match s with
  | [] => []
  | c :: t =>
      if is_space c
      then (if in_run then collapse_from true t else 32%N :: collapse_from true t)
      else c :: collapse_from false t
  end.

Definition collapse_spaces (s : list N) : list N := collapse_from false s.

(** [export function sanitizeFilename(name)]. *)
Definition sanitizeFilename (name : list N) : list N :=
  trim (collapse_spaces (strip_forbidden name)).

End Utils.

(** The file name tested by [epubExists(title)] (worker-manager.js,
    automate.js): [`${sanitizeFilename(title)}.epub`]. *)
Definition epubExists_filename (title : list N) : list N :=
  Utils.sanitizeFilename title ++ lit ".epub".

(** The file name written by [buildEpub] (epub-builder.js) for
    [novelData.title]: [`${sanitizeFilename(title)}.epub`]. *)
Definition buildEpub_filename (title : list N) : list N :=
  Utils.sanitizeFilename title ++ lit ".epub".

(** [Number] values produced by [parseInt]: an integer or [NaN]. *)
Inductive jsnum : Type :=
| NaN
| Num (z : Z).

(** [ToBoolean] of a number: [0] and [NaN] are falsy. *)
Definition truthy_num (x : jsnum) : bool :=
  match x with NaN => false | Num z => negb (z =? 0)%Z end.

(** [n > x] for an array length [n]: a comparison with [NaN] is false. *)
Definition length_gt (n : nat) (x : jsnum) : bool :=
  match x with NaN => false | Num z => (z <? Z.of_nat n)%Z end.

(** The decimal digits of a non-negative integer. *)
Definition digits (a : Z) : list N :=
  lit (NilZero.string_of_uint (N.to_uint (Z.to_N a))).

(** Does the real number [c] round to the double [a], of magnitude [2^53]
    at least?  The doubles next to [a = m * 2^q], with [2^52 <= m < 2^53],
    are [a + 2^q] and [a - 2^q] (or [a - 2^(q-1)] when [m = 2^52]); a number
    half-way to one of them rounds to [a] when [m] is even.  The bounds
    are taken four times. *)
Definition rounds_to (a c : Z) : bool :=
  let e := Z.log2 a in
  let q := (e - 52)%Z in
  let low4 := (4 * a - (if (a =? 2 ^ e)%Z then 2 ^ q else 2 ^ (q + 1)))%Z in
  let high4 := (4 * a + 2 ^ (q + 1))%Z in
  if Z.even (a / 2 ^ q)
  then (low4 <=? 4 * c)%Z && (4 * c <=? high4)%Z
  else (low4 <? 4 * c)%Z && (4 * c <? high4)%Z.

(** The integers [s] and [p] of [Number::toString]: [s * 10^p] rounds to
    [a], with as few digits in [s] as can be, hence [p] as large as can be,
    and then as near to [a] as can be. *)
Fixpoint shortest (a : Z) (p : nat) : Z * nat :=
  let t := (10 ^ Z.of_nat p)%Z in
  let c1 := (a / t * t)%Z in
  let c2 := (c1 + t)%Z in
  let ok1 := (0 <? c1)%Z && rounds_to a c1 in
  let ok2 := rounds_to a c2 in
  let nearer1 :=
    (a - c1 <? c2 - a)%Z || ((a - c1 =? c2 - a)%Z && Z.even (c1 / t)) in
  if ok1 && (negb ok2 || nearer1) then ((c1 / t)%Z, p)
  else if ok2 then ((c2 / t)%Z, p)
  else match p with
       | 0 => (a, 0)
       | S p' => shortest a p'
       end.

(** [String(a)] for a positive integer [a]: its digits below [2^53]; above,
    the digits of [s] followed by [p] zeros when that makes 21 digits at
    most, and else the exponent form. *)
Definition positive_to_str (a : Z) : list N :=
  if (a <? 2 ^ 53)%Z then digits a
  else
    let (s, p) := shortest a (length (digits a)) in
    let n := length (digits s) + p in
    if n <=? 21 then digits s ++ List.repeat 48%N p
    else
      match digits s with
      | [] => []
      | d :: rest =>
          [d] ++ (match rest with [] => [] | _ :: _ => lit "." ++ rest end)
          ++ lit "e+" ++ digits (Z.of_nat (n - 1))
      end.

(** [String(x)] of a number, for template literals ([Number::toString]);
    [Num z] stands for the double whose value is the integer [z]. *)
Definition jsnum_to_str (x : jsnum) : list N :=
  match x with
  | NaN => lit "NaN"
  | Num z =>
      if (z =? 0)%Z then lit "0"
      else if (z <? 0)%Z then lit "-" ++ positive_to_str (- z)
      else positive_to_str z
  end.

(** How an awaited promise settles. *)
Inductive outcome (A : Type) : Type :=
| Resolved (a : A)
| Rejected (message : list N).
Arguments Resolved {A} a.
Arguments Rejected {A} message.

(** [s.includes(sub)]. *)
Fixpoint starts_with (sub s : list N) : bool :=
  match sub, s with
  | [], _ => true
  | _ :: _, [] => false
  | a :: sub', b :: s' => (a =? b)%N && starts_with sub' s'
  end.

Fixpoint includes (s sub : list N) : bool :=
  starts_with sub s ||
  match s with
  | [] => false
  | _ :: s' => includes s' sub
  end.

(** ** utils.js: fetchWithBypassRaw and retry *)

Module Fetcher.

(** What one HTTP request meets: a response with its status code, its
    [location] header (if any) and its body (the chunks up to [end], or the
    error that ends the stream first), or an error before any response: an
    exception thrown while the request is made ([new URL(url)],
    [mod.request]), or the [error], [timeout] or socket error of the
    request. *)
Inductive response : Type :=
| Response (statusCode : Z) (location : option (list N)) (body : outcome (list N))
| RequestError (message : list N).

(** The network: the answer to the [n]-th request a fetch waits for, sent
    to [url]. *)
Definition network : Type := nat -> list N -> response.

(** A redirect leaves the promise of its call unsettled and the [error] and
    [timeout] listeners of the request attached; the promise then settles as
    the call on the target does, unless one of these listeners runs [fail]
    first.  [late n] tells of request [n], once a redirect has answered it,
    whether that happens, and with which error ([Timeout for url] from the
    [timeout] listener). *)
Definition late_events : Type := nat -> option (list N).

(** Effects of a fetch: the requests answered to it, the calls of [fn] made
    by [retry], the back-off delays waited for (milliseconds), the URLs
    of the calls of [fetchWithBypassRaw] left running when their caller was
    rejected before them (nothing stops such a call, and what it does from
    then on, its requests, the redirects it follows, an exception in one of
    its callbacks, is not followed here), and the messages of the errors that
    [retry] caught, the last of which it throws again when no retry is
    left. *)
Record fstate : Type := mkF {
  requests : nat;
  attempts : nat;
  delays : list Z;
  abandoned : list (list N);
  caught : list (list N)
}.

Definition fstate0 : fstate := mkF 0 0 [] [] [].

(** How a call stands once [fuel] requests were answered: its promise has
    settled; or it is pending; or an exception was thrown in the callback of
    a response, outside every promise, which ends the thread with an
    uncaught error and leaves the promise pending for ever. *)
Inductive run : Type :=
| Done (r : outcome (list N)) (st : fstate)
| Pending
| Uncaught (st : fstate).

Section WithNetwork.
Variable net : network.
Variable late : late_events.
(** [new URL(location, url).href], or [None] when [new URL] throws. *)
Variable resolve_url : list N -> list N -> option (list N).

(** [res.statusCode >= 300 && res.statusCode < 400 && res.headers.location] *)
Definition is_redirect (statusCode : Z) (location : option (list N)) : option (list N) :=
  match location with
  | Some loc =>
      if (300 <=? statusCode)%Z && (statusCode <? 400)%Z && truthy_str loc
      then Some loc else None
  | None => None
  end.

(** [fetchWithBypassRaw(url)].  A redirect calls [fetchWithBypassRaw] again
    on the target: the promise settles as that call does, or is rejected
    first by the [error] or [timeout] of its own request, which leaves the
    call on the target running.  Nothing counts the redirects, so the
    recursion is cut by [fuel]: [Pending] means that the promise has not
    settled after [fuel] requests. *)
Fixpoint fetchWithBypassRaw (fuel : nat) (url : list N) (st : fstate) : run :=
  match fuel with
  | 0 => Pending
  | S fuel' =>
      let st' := mkF (S (requests st)) (attempts st) (delays st) (abandoned st)
                     (caught st) in
      match net (requests st) url with
      | RequestError msg => Done (Rejected msg) st'
      | Response statusCode location body =>
          match is_redirect statusCode location with
          | Some loc =>
              match resolve_url loc url with
              | None => Uncaught st'
              | Some redirectUrl =>
                  match late (requests st) with
                  | Some msg =>
                      Done (Rejected msg)
                           (mkF (S (requests st)) (attempts st) (delays st)
                                (abandoned st ++ [redirectUrl]) (caught st))
                  | None => fetchWithBypassRaw fuel' redirectUrl st'
                  end
              end
          | None =>
              if (statusCode <? 200)%Z || (300 <=? statusCode)%Z
              then Done (Rejected (lit "HTTP " ++ jsnum_to_str (Num statusCode)
                                     ++ lit " for " ++ url)) st'
              else Done body st'
          end
      end
  end.

(** The back-off before the next attempt, after attempt [i] threw [err]. *)
Definition backoff (delayMs : Z) (i : nat) (err : list N) : Z :=
  if includes err (lit "429")
  then (delayMs * 2 ^ Z.of_nat i)%Z
  else (delayMs * (Z.of_nat i + 1))%Z.

(** [retry(fn, retries, delayMs)]: the loop [for (i = 0; i <= retries; i++)],
    with [left = retries - i]. *)
Fixpoint retry_loop (fn : fstate -> run) (delayMs : Z) (left i : nat) (st : fstate) : run :=
  match fn (mkF (requests st) (S (attempts st)) (delays st) (abandoned st) (caught st)) with
  | Pending => Pending
  | Uncaught st' => Uncaught st'
  | Done (Resolved v) st' => Done (Resolved v) st'
  | Done (Rejected err) st' =>
      match left with
      | 0 =>
          Done (Rejected err)
               (mkF (requests st') (attempts st') (delays st') (abandoned st')
                    (caught st' ++ [err]))
      | S left' =>
          retry_loop fn delayMs left' (S i)
            (mkF (requests st') (attempts st') (delays st' ++ [backoff delayMs i err])
                 (abandoned st') (caught st' ++ [err]))
      end
  end.

Definition retry (fn : fstate -> run) (retries : nat) (delayMs : Z) (st : fstate) : run :=
  retry_loop fn delayMs retries 0 st.

(** The default arguments of [retry]. *)
Definition default_retries : nat := 5.
Definition default_delayMs : Z := 3000.

(** One fetch as the scraper issues it:
    [retry(() => fetchWithBypassRaw(url))]. *)
Definition fetch (fuel : nat) (url : list N) : run :=
  retry (fetchWithBypassRaw fuel url) default_retries default_delayMs fstate0.

End WithNetwork.

(** No request fails once a redirect has answered it. *)
Definition quiet : late_events := fun _ => None.

(** Every request sent to [url] that a redirect answers times out before
    the call on the target has settled: its [timeout] listener runs
    [fail(new Error(`Timeout for ${url}`))]. *)
Definition all_time_out (url : list N) : late_events :=
  fun _ => Some (lit "Timeout for " ++ url).

(** Only the first request does. *)
Definition first_times_out (url : list N) : late_events :=
  fun n => if n =? 0 then Some (lit "Timeout for " ++ url) else None.

(** A server that answers every request with a redirect to the very
    location asked for. *)
Definition redirect_cycle : network :=
  fun _ url => Response 302 (Some url) (Resolved []).

(** A server that redirects [k] times, then serves [body]. *)
Definition redirect_chain (k : nat) (body : list N) : network :=
  fun n url =>
    if n <? k then Response 301 (Some url) (Resolved [])
    else Response 200 None (Resolved body).

(** Absolute locations: [new URL(location, url).href] is [location]. *)
Definition absolute : list N -> list N -> option (list N) := fun loc _ => Some loc.

End Fetcher.

(** ** worker.js and automate.js: downloadNovel *)

Module Job.

(** An entry of [novel.chapters]: [{ title, url }]. *)
Record ChapterRef : Type := mkRef {
  ref_title : list N;
  ref_url : list N
}.

(** What [fetchNovelDetail] resolves to. *)
Record Novel : Type := mkNovel {
  title : list N;
  author : list N;
  genres : list (list N);
  description : list N;
  coverUrl : list N;
  chapters : list ChapterRef
}.

(** [{ title, content }]: what [fetchChapterContent] resolves to, and an
    element of the [chapters] array. *)
Record Chapter : Type := mkChapter {
  ch_title : list N;
  ch_content : list N
}.

(** An element of the array [new Array(n)]: a hole (never assigned), [null]
    (the mark of a failed fetch) or a chapter. *)
Inductive slot : Type :=
| Hole
| Null
| Filled (c : Chapter).

Definition is_null (s : slot) : bool :=
  match s with Null => true | _ => false end.

Definition is_filled (s : slot) : bool :=
  match s with Filled _ => true | _ => false end.

(** [a[i] = v] on a JavaScript array: beyond the end, the array grows. *)
Definition js_set (i : nat) (v : slot) (a : list slot) : list slot :=
  if i <? length a then <[i := v]> a
  else a ++ repeat Hole (i - length a) ++ [v].

(** What the job does that can be seen from outside. *)
Inductive event : Type :=
| EvDetail (slug : list N)
| EvFetch (pass i : nat) (url : list N)
| EvProgress (completed total : nat)
| EvCooldown (pass : nat)
| EvBuildEpub (chapters : list slot).

(** What surrounds a job.  [fetchChapterContent pass i url] is how the fetch
    issued for index [i] in pass [pass] (0 for the initial pass) settles;
    [pLimit concurrency] is what the call [pLimit(concurrency)] of the npm
    package p-limit gives: the number of slots of the limiter, or the error
    it throws; [schedule pass tasks] is the order in which the limiter lets
    the tasks of a pass complete; [genEpub] is how the EPUB generation and
    the file write of [buildEpub] settle. *)
Record World : Type := mkWorld {
  fetchNovelDetail : list N -> outcome Novel;
  fetchChapterContent : nat -> nat -> list N -> outcome Chapter;
  pLimit : jsnum -> outcome nat;
  schedule : nat -> list nat -> list nat;
  genEpub : Novel -> list slot -> outcome unit
}.

(** [workerData] (worker.js), or the arguments of [downloadNovel]
    (automate.js). *)
Record Config : Type := mkConfig {
  delayMs : jsnum;
  concurrency : jsnum;
  maxChapters : jsnum;
  outputDir : list N
}.

(** The [try]/[catch] of a task: what it stores at its index. *)
Definition stored (r : outcome Chapter) (ch : ChapterRef) : slot :=
  match r with
  | Resolved content =>
      if negb (truthy_str (ch_content content))
         || negb (truthy_str (trim (ch_content content)))
      then Null
      else Filled (mkChapter (or_str (ch_title content) (ref_title ch))
                             (ch_content content))
  | Rejected _ => Null
  end.

(** The state of the fetching phase: the [chapters] array, the [completed]
    counter and the events so far. *)
Record jstate : Type := mkJ {
  fragments : list slot;
  completed : nat;
  trace : list event
}.

Section WithWorld.
Variable W : World.
Variable novel : Novel.

(** The progress message of worker.js, sent when [completed % 20 === 0] or
    [completed === novel.chapters.length]. *)
Definition worker_progress (completed : nat) : list event :=
  if (completed mod 20 =? 0) || (completed =? length (chapters novel))
  then [EvProgress completed (length (chapters novel))]
  else [].

(** What a task of the initial pass reports once it is over: the worker
    posts its progress message ([report = true]); automate.js moves a
    progress bar ([report = false]). *)
Definition progress (report : bool) (completed : nat) : list event :=
  if report then worker_progress completed else [].

(** One task of the initial pass, for index [i] and entry [ch]. *)
Definition initial_task (report : bool) (i : nat) (st : jstate)
  : jstate :=
  match chapters novel !! i with
  | Some ch =>
      mkJ (js_set i (stored (fetchChapterContent W 0 i (ref_url ch)) ch)
             (fragments st))
          (S (completed st))
          (trace st ++ [EvFetch 0 i (ref_url ch)]
             ++ progress report (S (completed st)))
  | None => st
  end.

(** One task of retry pass [pass], for index [i]: [novel.chapters[i]] is
    read outside the [try]; were it [undefined], [ch.url] would throw
    inside it and [null] would be stored. *)
Definition retry_task (pass i : nat) (st : jstate) : jstate :=
  match chapters novel !! i with
  | Some ch =>
      mkJ (js_set i (stored (fetchChapterContent W pass i (ref_url ch)) ch)
             (fragments st))
          (completed st)
          (trace st ++ [EvFetch pass i (ref_url ch)])
  | None => mkJ (js_set i Null (fragments st)) (completed st) (trace st)
  end.

(** [await Promise.all(tasks)]: the tasks take effect in the order in which
    they complete. *)
Definition run_tasks (task : nat -> jstate -> jstate) (order : list nat)
    (st : jstate) : jstate :=
  fold_left (fun s i => task i s) order st.

(** [chapters.map((ch, i) => (ch === null ? i : -1)).filter(i => i !== -1)]:
    the indices of the [null] elements, in increasing order ([None] stands
    for the [-1] that is filtered out). *)
Definition failedIndices (a : list slot) : list nat :=
  omap id (imap (fun i ch => if is_null ch then Some i else None) a).

Definition MAX_RETRY_PASSES : nat := 2.

(** The loop [for (let pass = 1; pass <= 2; pass++)], with [left] passes
    still allowed. *)
Fixpoint retry_passes (left pass : nat) (st : jstate) : jstate :=
  match left with
  | 0 => st
  | S left' =>
      match failedIndices (fragments st) with
      | [] => st
      | i :: rest =>
          let st1 := mkJ (fragments st) (completed st)
                         (trace st ++ [EvCooldown pass]) in
          retry_passes left' (S pass)
            (run_tasks (retry_task pass) (schedule W pass (i :: rest)) st1)
      end
  end.

(** The placeholder of a chapter that could not be fetched. *)
Definition placeholder (i : nat) (ch : ChapterRef) : Chapter :=
  mkChapter (or_str (ref_title ch) (lit "Chapter " ++ num_to_str (i + 1)))
            (lit "<p>[Failed to fetch after retries]</p>").

(** The loop [for (let i = 0; i < chapters.length; i++)] that fills the
    failures, with [left = chapters.length - i]; reading [.title] of an
    [undefined] entry of [novel.chapters] throws a [TypeError]. *)
Fixpoint fill_loop (left i : nat) (a : list slot) (failedCount : nat)
  : outcome (list slot * nat) :=
  match left with
  | 0 => Resolved (a, failedCount)
  | S left' =>
      match a !! i with
      | Some Null =>
          match chapters novel !! i with
          | Some ch =>
              fill_loop left' (S i) (js_set i (Filled (placeholder i ch)) a)
                (S failedCount)
          | None =>
              Rejected (lit "Cannot read properties of undefined (reading 'title')")
          end
      | _ => fill_loop left' (S i) a failedCount
      end
  end.

Definition fill_failures (a : list slot) : outcome (list slot * nat) :=
  fill_loop (length a) 0 a 0.

(** What the filling loop makes of the element at index [i]. *)
Definition fill_slot (i : nat) (s : slot) : slot :=
  match s with
  | Null =>
      match chapters novel !! i with
      | Some ch => Filled (placeholder i ch)
      | None => Null
      end
  | _ => s
  end.

(** The fetching phase of [downloadNovel]: [new Array(n)], the initial
    pass, the retry passes and the filling of the failures. *)
Definition after_initial (report : bool) (tr : list event) : jstate :=
  run_tasks (initial_task report)
    (schedule W 0 (seq 0 (length (chapters novel))))
    (mkJ (repeat Hole (length (chapters novel))) 0 tr).

Definition after_retries (report : bool) (tr : list event) : jstate :=
  retry_passes MAX_RETRY_PASSES 1 (after_initial report tr).

Definition fetch_fragments (report : bool) (tr : list event)
  : outcome (list slot * nat) * list event :=
  let st := after_retries report tr in
  (fill_failures (fragments st), trace st).

(** The state in which retry pass [pass] (1 or 2) would begin: the loop
    stopped after [pass - 1] passes. *)
Definition before_pass (report : bool) (tr : list event) (pass : nat) : jstate :=
  retry_passes (pass - 1) 1 (after_initial report tr).

(** The element at the index of entry [ch] once pass [pass] is over: the
    first fetch that did not fail, up to that pass, decides. *)
Fixpoint value_after (ch : ChapterRef) (i pass : nat) : slot :=
  match pass with
  | 0 => stored (fetchChapterContent W 0 i (ref_url ch)) ch
  | S q =>
      if is_null (value_after ch i q)
      then stored (fetchChapterContent W pass i (ref_url ch)) ch
      else value_after ch i q
  end.

(** [buildEpub(novelData, chapters, outputDir)] as far as the job sees it:
    [ch.content] throws on a [null] element; otherwise the call settles as
    the generation and the write do. *)
Definition buildEpub (a : list slot) : outcome unit :=
  if existsb is_null a
  then Rejected (lit "Cannot read properties of null (reading 'content')")
  else genEpub W novel a.

(** What the fetch for index [i] in pass [pass] stores, and the event it
    leaves in the trace. *)
Definition attempt_result (pass i : nat) : slot :=
  match chapters novel !! i with
  | Some ch => stored (fetchChapterContent W pass i (ref_url ch)) ch
  | None => Null
  end.

Definition fetch_events_of (pass i : nat) : list event :=
  match chapters novel !! i with
  | Some ch => [EvFetch pass i (ref_url ch)]
  | None => []
  end.

(** The element at index [i] once pass [pass] is over. *)
Definition value_at (pass i : nat) : slot :=
  match chapters novel !! i with
  | Some ch => value_after ch i pass
  | None => Hole
  end.

(** What holds of the array between two passes. *)
Definition pass_invariant (pass : nat) (st : jstate) : Prop :=
  length (fragments st) = length (chapters novel)
  /\ forall i, i < length (chapters novel) ->
               fragments st !! i = Some (value_at pass i).

End WithWorld.

(** The object [downloadNovel] of worker.js returns. *)
Record JobResult : Type := mkResult {
  success : bool;
  error : option (list N);
  skipped : bool;
  result_title : option (list N);
  totalChapters : option nat;
  failedChapters : option nat
}.

Definition failure (msg : list N) (skip : bool) : JobResult :=
  mkResult false (Some msg) skip None None None.

(** [async function downloadNovel(slug, listTitle)] of worker.js. *)
Definition downloadNovel (W : World) (cfg : Config) (slug listTitle : list N)
  : outcome JobResult * list event :=
  match fetchNovelDetail W slug with
  | Rejected err => (Rejected err, [EvDetail slug])
  | Resolved novel =>
      let n := length (chapters novel) in
      if negb (truthy_str (title novel)) then
        (Resolved (failure (lit "Could not find novel: " ++ slug) false),
         [EvDetail slug])
      else if n =? 0 then
        (Resolved (failure (lit "No chapters found for " ++ [34%N] ++ title novel
                              ++ [34%N]) false),
         [EvDetail slug])
      else if truthy_num (maxChapters cfg) && length_gt n (maxChapters cfg) then
        (Resolved (failure (num_to_str n ++ lit " chapters exceeds limit of "
                              ++ jsnum_to_str (maxChapters cfg)) true),
         [EvDetail slug])
      else
        match pLimit W (concurrency cfg) with
        | Rejected err => (Rejected err, [EvDetail slug])
        | Resolved _ =>
            match fetch_fragments W novel true [EvDetail slug] with
            | (Rejected err, tr) => (Rejected err, tr)
            | (Resolved (a, failedCount), tr) =>
                match buildEpub W novel a with
                | Rejected err => (Rejected err, tr ++ [EvBuildEpub a])
                | Resolved _ =>
                    (Resolved (mkResult true None false (Some (title novel))
                                 (Some n) (Some failedCount)),
                     tr ++ [EvBuildEpub a])
                end
            end
        end
  end.

(** The [download] branch of the message handler of worker.js: the message
    posted back, [{ type: 'result', slug, ...result }], or, when
    [downloadNovel] throws,
    [{ type: 'result', slug, success: false, error: err.message }]. *)
Definition handle_download (W : World) (cfg : Config) (slug listTitle : list N)
  : JobResult * list event :=
  match downloadNovel W cfg slug listTitle with
  | (Resolved r, tr) => (r, tr)
  | (Rejected err, tr) => (failure err false, tr)
  end.

(** [async function downloadNovel(slug, delayMs, concurrency, maxChapters)]
    of automate.js: the same phases, progress shown on a bar, and a boolean
    for a result. *)
Definition automate_downloadNovel (W : World) (cfg : Config) (slug : list N)
  : outcome bool * list event :=
  match fetchNovelDetail W slug with
  | Rejected err => (Rejected err, [EvDetail slug])
  | Resolved novel =>
      let n := length (chapters novel) in
      if negb (truthy_str (title novel)) then (Resolved false, [EvDetail slug])
      else if n =? 0 then (Resolved false, [EvDetail slug])
      else if truthy_num (maxChapters cfg) && length_gt n (maxChapters cfg) then
        (Resolved false, [EvDetail slug])
      else
        match pLimit W (concurrency cfg) with
        | Rejected err => (Rejected err, [EvDetail slug])
        | Resolved _ =>
            match fetch_fragments W novel false [EvDetail slug] with
            | (Rejected err, tr) => (Rejected err, tr)
            | (Resolved (a, failedCount), tr) =>
                match buildEpub W novel a with
                | Rejected err => (Rejected err, tr ++ [EvBuildEpub a])
                | Resolved _ => (Resolved true, tr ++ [EvBuildEpub a])
                end
            end
        end
  end.

(** Is [e] a fragment fetch?  Is it an event of the retry controller (a
    fetch or a cooldown)? *)
Definition is_fetch (e : event) : bool :=
  match e with EvFetch _ _ _ => true | _ => false end.

Definition is_pass_event (e : event) : bool :=
  match e with EvFetch _ _ _ | EvCooldown _ => true | _ => false end.

(** Index [i] is still [null] when pass [pass] begins: its fetch failed in
    every pass before. *)
Definition still_null (W : World) (novel : Novel) (pass i : nat) : bool :=
  match chapters novel !! i with
  | Some ch =>
      forallb (fun q => is_null (stored (fetchChapterContent W q i (ref_url ch)) ch))
              (seq 0 pass)
  | None => false
  end.

(** *** The passes under the limiter

    Modelled from the spec: the Concurrency Limiter of section 4.3, which
    the sources take from the npm package p-limit ([pLimit(concurrency)]),
    whose code is not part of the repository.  [limit(fn)] puts [fn] in a
    queue; a queued task is started, in the order of the queue, only while
    fewer than [concurrency] tasks are pending; a task that settles frees
    its slot.  [downloadNovel] hands every task of a pass to the one limiter
    of the job, and [await Promise.all(...)] lets the next pass begin only
    when every task of the pass has settled. *)
Record mstate : Type := mkM {
  mpass : nat;
  waiting : list nat;
  running : list nat;
  mjs : jstate;
  finished : bool
}.

(** What the event loop does next: the limiter starts the first queued task,
    the task for index [i] settles, or [downloadNovel] resumes after its
    [await Promise.all]. *)
Inductive choice : Type :=
| StartNext
| Finish (i : nat)
| Resume.

Definition machine_init (novel : Novel) (tr : list event) : mstate :=
  mkM 0 (seq 0 (length (chapters novel))) []
      (mkJ (repeat Hole (length (chapters novel))) 0 tr) false.

Definition machine_step (W : World) (novel : Novel) (report : bool) (K : nat)
    (m : mstate) (c : choice) : option mstate :=
  if finished m then None else
  match c with
  | StartNext =>
      match waiting m with
      | i :: rest =>
          if length (running m) <? K
          then Some (mkM (mpass m) rest (running m ++ [i]) (mjs m) false)
          else None
      | [] => None
      end
  | Finish i =>
      if bool_decide (i ∈ running m)
      then Some (mkM (mpass m) (waiting m)
                     (List.filter (fun j => negb (j =? i)) (running m))
                     (match mpass m with
                      | 0 => initial_task W novel report i (mjs m)
                      | S _ => retry_task W novel (mpass m) i (mjs m)
                      end)
                     false)
      else None
  | Resume =>
      match waiting m, running m with
      | [], [] =>
          if mpass m <? MAX_RETRY_PASSES then
            match failedIndices (fragments (mjs m)) with
            | [] => Some (mkM (mpass m) [] [] (mjs m) true)
            | i :: rest =>
                Some (mkM (S (mpass m)) (i :: rest) []
                          (mkJ (fragments (mjs m)) (completed (mjs m))
                               (trace (mjs m) ++ [EvCooldown (S (mpass m))]))
                          false)
            end
          else Some (mkM (mpass m) [] [] (mjs m) true)
      | _, _ => None
      end
  end.

Fixpoint machine_run (W : World) (novel : Novel) (report : bool) (K : nat)
    (m : mstate) (cs : list choice) : option mstate :=
  match cs with
  | [] => Some m
  | c :: rest =>
      match machine_step W novel report K m c with
      | Some m' => machine_run W novel report K m' rest
      | None => None
      end
  end.

(** The passes of [downloadNovel] and the limiter agree: the definitions
    below say how.  [with_schedule W sched] is the world [W] in which the
    tasks of a pass complete in the order [sched] gives; [override] changes
    that order for one pass; [cooled] is the state after the
    [await delay(delayMs * 2)] of a retry pass; [pass_task] is the task of a
    pass. *)
Definition with_schedule (W : World) (sched : nat -> list nat -> list nat) : World :=
  mkWorld (fetchNovelDetail W) (fetchChapterContent W) (pLimit W) sched (genEpub W).

Definition override (sched : nat -> list nat -> list nat) (pass : nat)
    (tasks order : list nat) : nat -> list nat -> list nat :=
  fun q ts => if bool_decide (q = pass /\ ts = tasks) then order else sched q ts.

Definition cooled (pass : nat) (st : jstate) : jstate :=
  mkJ (fragments st) (completed st) (trace st ++ [EvCooldown pass]).

Definition pass_task (W : World) (novel : Novel) (report : bool) (pass : nat)
  : nat -> jstate -> jstate :=
  match pass with
  | 0 => initial_task W novel report
  | S _ => retry_task W novel pass
  end.

(** Pass [pass] begins with the tasks [tasks] in state [start], when the
    passes before it completed in the orders [sched] gives. *)
Definition pass_begins (W : World) (novel : Novel) (report : bool) (tr : list event)
    (sched : nat -> list nat -> list nat) (pass : nat) (tasks : list nat)
    (start : jstate) : Prop :=
  match pass with
  | 0 =>
      tasks = seq 0 (length (chapters novel))
      /\ start = mkJ (repeat Hole (length (chapters novel))) 0 tr
  | S q =>
      let b := retry_passes (with_schedule W sched) novel q 1
                 (after_initial (with_schedule W sched) novel report tr) in
      tasks = failedIndices (fragments b) /\ tasks <> [] /\ start = cooled pass b
  end.

(** The state [m] of the limiter is a state of the passes of [downloadNovel]
    for some completion order: the tasks of the current pass are those that
    have settled (in the order [order]), those pending and those queued. *)
Definition refines (W : World) (novel : Novel) (report : bool) (tr : list event)
    (m : mstate) : Prop :=
  exists sched,
    (forall pass tasks, sched pass tasks ≡ₚ tasks)
    /\ mpass m <= MAX_RETRY_PASSES
    /\ if finished m
       then mjs m = after_retries (with_schedule W sched) novel report tr
       else exists order tasks start,
              pass_begins W novel report tr sched (mpass m) tasks start
              /\ order ++ running m ++ waiting m ≡ₚ tasks
              /\ mjs m = run_tasks (pass_task W novel report (mpass m)) order start.

(** A small novel and a world around it, used to run the definitions: the
    second chapter never arrives, the third one arrives in pass 1, and the
    tasks of a pass complete in the order given by [sched]. *)
Definition sample_novel : Novel :=
  mkNovel (lit "T") (lit "A") [] [] []
    [mkRef (lit "c1") (lit "u1"); mkRef [] (lit "u2"); mkRef (lit "c3") (lit "u3")].

Definition sample_world (sched : nat -> list nat -> list nat) : World :=
  mkWorld (fun _ => Resolved sample_novel)
    (fun pass i _ =>
       if i =? 1 then Rejected (lit "HTTP 503")
       else if pass <? i - 1 then Rejected (lit "Timeout")
       else Resolved (mkChapter [] (lit "<p>text</p>")))
    (fun c =>
       match c with
       | Num z =>
           if (1 <=? z)%Z then Resolved (Z.to_nat z)
           else Rejected (lit "Expected `concurrency` to be a number from 1 and up")
       | NaN => Rejected (lit "Expected `concurrency` to be a number from 1 and up")
       end)
    sched
    (fun _ _ => Resolved tt).

Definition sample_config (maxChapters : jsnum) : Config :=
  mkConfig (Num 1000) (Num 3) maxChapters (lit "output").

End Job.

(** ** worker-manager.js: class WorkerPool *)

Module Pool.

(** An element of the queue: a novel of the listing, of which the pool reads
    [slug] and [title]. *)
Record Entry : Type := mkEntry {
  slug : list N;
  title : list N
}.

(** Coordinator to worker: [{ type: 'download', slug, title }] and
    [{ type: 'exit' }]. *)
Inductive command : Type :=
| Download (slug title : list N)
| ExitCmd.

(** Worker to coordinator: [ready], [progress] and [result] messages. *)
Inductive message : Type :=
| Ready
| Progress (title : list N) (completed total : nat)
| Result (slug : list N) (r : Job.JobResult).

(** [this.stats]. *)
Record Stats : Type := mkStats {
  succeeded : Z;
  failed : Z;
  skipped : Z;
  inProgress : Z
}.

(** The fields of a [WorkerPool].  The lists hold references to [Worker]
    objects; [_resolveAllDone] is [null] or the resolver of a promise, named
    by the number of that promise. *)
Record WorkerPool : Type := mkPool {
  size : nat;
  workers : list nat;
  idle : list nat;
  queue : list Entry;
  stats : Stats;
  totalQueued : nat;
  _resolveAllDone : option nat
}.

(** A [Worker] object with the thread behind it: the [_id] given by the pool,
    and of the thread whether it is over, after an uncaught error or an
    [exit] message ([ended]), whether it posted [ready] ([loaded]), how many
    [download] messages it was sent and has not answered ([holding]), and
    whether it was ever sent one ([served]). *)
Record WorkerObj : Type := mkObj {
  _id : nat;
  ended : bool;
  loaded : bool;
  holding : nat;
  served : bool
}.

(** What the pool does to the outside. *)
Inductive effect : Type :=
| Spawned (w : nat)
| Posted (w : nat) (c : command)
| Settled (p : nat).

(** The pool, the heap of [Worker] objects (a reference is an index in it),
    the pending promises of [start] ([None] before the call, then the workers
    whose [ready] is awaited) and of [_handleError] (the replacements whose
    [ready] is awaited), the number of promises made by [waitUntilDone], and
    the effects so far. *)
Record State : Type := mkState {
  pool : WorkerPool;
  heap : list WorkerObj;
  start_awaits : option (list nat);
  respawn_awaits : list nat;
  next_promise : nat;
  log : list effect
}.

(** [new WorkerPool(size, workerConfig)]. *)
Definition init (size : nat) : State :=
  mkState (mkPool size [] [] [] (mkStats 0 0 0 0) 0 None) [] None [] 0 [].

Definition with_pool (s : State) (p : WorkerPool) : State :=
  mkState p (heap s) (start_awaits s) (respawn_awaits s) (next_promise s) (log s).

Definition with_heap (s : State) (h : list WorkerObj) : State :=
  mkState (pool s) h (start_awaits s) (respawn_awaits s) (next_promise s) (log s).

Definition emit (s : State) (e : effect) : State :=
  mkState (pool s) (heap s) (start_awaits s) (respawn_awaits s) (next_promise s)
          (log s ++ [e]).

Definition with_idle (p : WorkerPool) (l : list nat) : WorkerPool :=
  mkPool (size p) (workers p) l (queue p) (stats p) (totalQueued p) (_resolveAllDone p).

Definition with_stats (p : WorkerPool) (st : Stats) : WorkerPool :=
  mkPool (size p) (workers p) (idle p) (queue p) st (totalQueued p) (_resolveAllDone p).

Definition add_inProgress (st : Stats) (d : Z) : Stats :=
  mkStats (succeeded st) (failed st) (skipped st) (inProgress st + d).

(** [new Worker(...)] followed by [worker._id = id]: a fresh object, whose
    thread starts loading its module. *)
Definition spawn (s : State) (id : nat) : nat * State :=
  let w := length (heap s) in
  (w, emit (with_heap s (heap s ++ [mkObj id false false 0 false])) (Spawned w)).

(** [worker.postMessage({ type: 'download', ... })]. *)
Definition post_download (s : State) (w : nat) (novel : Entry) : State :=
  let h :=
    match heap s !! w with
    | Some o => <[w := mkObj (_id o) (ended o) (loaded o) (S (holding o)) true]> (heap s)
    | None => heap s
    end in
  emit (with_heap s h) (Posted w (Download (slug novel) (title novel))).

(** [_dispatch()]: the loop
    [while (this.idle.length > 0 && this.queue.length > 0)]. *)
Fixpoint dispatch_loop (idle : list nat) (queue : list Entry) (s : State) : State :=
  match idle, queue with
  | worker :: idle', novel :: queue' =>
      let p := pool s in
      let p' := mkPool (size p) (workers p) idle' queue'
                       (add_inProgress (stats p) 1) (totalQueued p)
                       (_resolveAllDone p) in
      dispatch_loop idle' queue' (post_download (with_pool s p') worker novel)
  | _, _ => s
  end.

Definition _dispatch (s : State) : State :=
  dispatch_loop (idle (pool s)) (queue (pool s)) s.

(** [_checkDone()]. *)
Definition _checkDone (s : State) : State :=
  let p := pool s in
  match _resolveAllDone p with
  | Some r =>
      if (inProgress (stats p) =? 0)%Z && (length (queue p) =? 0)
      then emit (with_pool s (mkPool (size p) (workers p) (idle p) (queue p) (stats p)
                                (totalQueued p) None))
                (Settled r)
      else s
  | None => s
  end.

(** [this.idle.push(worker); this._dispatch(); this._checkDone();] *)
Definition back_to_idle (s : State) (w : nat) : State :=
  _checkDone (_dispatch (with_pool s (with_idle (pool s) (idle (pool s) ++ [w])))).

(** [start()] up to its [await]: the loop that spawns [size] workers with the
    identities 1 to [size]. *)
Fixpoint spawn_loop (n i : nat) (s : State) : State :=
  match n with
  | 0 => s
  | S n' =>
      let (w, s1) := spawn s (i + 1) in
      let p := pool s1 in
      spawn_loop n' (S i)
        (with_pool s1 (mkPool (size p) (workers p ++ [w]) (idle p) (queue p) (stats p)
                         (totalQueued p) (_resolveAllDone p)))
  end.

(** The rest of [start()], once [Promise.all(readyPromises)] is fulfilled:
    [this.idle = [...this.workers]]. *)
Definition start_resume (s : State) : State :=
  mkState (with_idle (pool s) (workers (pool s))) (heap s) (Some [])
          (respawn_awaits s) (next_promise s) (log s).

Definition start (s : State) : State :=
  let s1 := spawn_loop (size (pool s)) 0 s in
  let s2 := mkState (pool s1) (heap s1) (Some (workers (pool s1)))
                    (respawn_awaits s1) (next_promise s1) (log s1) in
  match workers (pool s1) with
  | [] => start_resume s2
  | _ :: _ => s2
  end.

(** Has [start()] resolved? *)
Definition started (s : State) : bool :=
  match start_awaits s with
  | Some [] => true
  | _ => false
  end.

(** [enqueue(novels)]. *)
Definition enqueue (novels : list Entry) (s : State) : State :=
  let p := pool s in
  let q := queue p ++ novels in
  _dispatch (with_pool s (mkPool (size p) (workers p) (idle p) q (stats p) (length q)
                            (_resolveAllDone p))).

(** [waitUntilDone()]: the promise returned, and the state after the call. *)
Definition waitUntilDone (s : State) : nat * State :=
  let p := pool s in
  let r := next_promise s in
  if (inProgress (stats p) =? 0)%Z && (length (queue p) =? 0)
  then (r, mkState p (heap s) (start_awaits s) (respawn_awaits s) (S r)
             (log s ++ [Settled r]))
  else (r, mkState (mkPool (size p) (workers p) (idle p) (queue p) (stats p)
                      (totalQueued p) (Some r))
             (heap s) (start_awaits s) (respawn_awaits s) (S r) (log s)).

(** [_handleMessage(worker, msg)]. *)
Definition _handleMessage (w : nat) (msg : message) (s : State) : State :=
  match msg with
  | Ready => s
  | Progress _ _ _ => s
  | Result _ r =>
      let p := pool s in
      let st := add_inProgress (stats p) (-1) in
      let st' :=
        if Job.success r
        then mkStats (succeeded st + 1) (failed st) (skipped st) (inProgress st)
        else if Job.skipped r
        then mkStats (succeeded st) (failed st) (skipped st + 1) (inProgress st)
        else mkStats (succeeded st) (failed st + 1) (skipped st) (inProgress st) in
      back_to_idle (with_pool s (with_stats p st')) w
  end.

(** [this.workers.indexOf(worker)]. *)
Fixpoint indexOf (l : list nat) (w : nat) : option nat :=
  match l with
  | [] => None
  | x :: l' => if x =? w then Some 0 else option_map S (indexOf l' w)
  end.

(** [_handleError(worker, err)], up to the [readyP.then] it leaves pending. *)
Definition _handleError (w : nat) (s : State) : State :=
  let p := pool s in
  let st := stats p in
  let st' := mkStats (succeeded st) (failed st + 1) (skipped st) (inProgress st - 1) in
  let s1 := with_pool s (with_stats p st') in
  match indexOf (workers p) w with
  | Some idx =>
      let id := match heap s !! w with Some o => _id o | None => 0 end in
      let (w', s2) := spawn s1 id in
      let p2 := pool s2 in
      mkState (mkPool (size p2) (<[idx := w']> (workers p2)) (idle p2) (queue p2)
                 (stats p2) (totalQueued p2) (_resolveAllDone p2))
              (heap s2) (start_awaits s2) (respawn_awaits s2 ++ [w'])
              (next_promise s2) (log s2)
  | None => s1
  end.

(** The [ready] message of worker [w] reaches its listeners: the one [start]
    attached (the promise of [Promise.all] is fulfilled with the last of
    them), [_handleMessage], and the one [_handleError] attached to a
    replacement, whose [then] callback runs in the same turn. *)
Definition on_ready (w : nat) (s : State) : State :=
  let s1 :=
    match start_awaits s with
    | Some (x :: l) =>
        if bool_decide (w ∈ x :: l) then
          let rest := List.filter (fun y => negb (y =? w)) (x :: l) in
          let s' := mkState (pool s) (heap s) (Some rest) (respawn_awaits s)
                            (next_promise s) (log s) in
          match rest with
          | [] => start_resume s'
          | _ :: _ => s'
          end
        else s
    | _ => s
    end in
  let s2 := _handleMessage w Ready s1 in
  if bool_decide (w ∈ respawn_awaits s2) then
    back_to_idle
      (mkState (pool s2) (heap s2) (start_awaits s2)
               (List.filter (fun y => negb (y =? w)) (respawn_awaits s2))
               (next_promise s2) (log s2))
      w
  else s2.

(** [shutdown()]: an [exit] message goes to every worker of [this.workers];
    awaiting the [exit] events changes nothing in the pool. *)
Fixpoint post_exit (ws : list nat) (s : State) : State :=
  match ws with
  | [] => s
  | w :: rest => post_exit rest (emit s (Posted w ExitCmd))
  end.

Definition shutdown (s : State) : State := post_exit (workers (pool s)) s.

(** Was worker [w] sent an [exit] message? *)
Definition exit_posted (w : nat) (l : list effect) : bool :=
  existsb (fun e => match e with Posted w' ExitCmd => w' =? w | _ => false end) l.

(** What reaches the pool: the calls of [main] and the events of the worker
    threads. *)
Inductive input : Type :=
| Start
| Enqueue (novels : list Entry)
| WaitUntilDone
| Message (w : nat) (msg : message)
| Error (w : nat)
| Exit (w : nat) (code : Z)
| Shutdown.

(** Updates of the thread behind object [w]. *)
Definition update_obj (w : nat) (f : WorkerObj -> WorkerObj) (s : State) : State :=
  match heap s !! w with
  | Some o => with_heap s (<[w := f o]> (heap s))
  | None => s
  end.

Definition set_loaded (o : WorkerObj) : WorkerObj :=
  mkObj (_id o) (ended o) true (holding o) (served o).

Definition set_ended (o : WorkerObj) : WorkerObj :=
  mkObj (_id o) true (loaded o) (holding o) (served o).

Definition answer (o : WorkerObj) : WorkerObj :=
  mkObj (_id o) (ended o) (loaded o) (holding o - 1) (served o).

(** Which inputs can occur.  [main] calls [start()] once and awaits it
    before it calls [enqueue], [waitUntilDone] and [shutdown].  A worker thread
    (worker.js) posts [ready] once, at the end of its module; it posts
    [progress] and [result] messages only for a [download] message it has
    received; it can throw an uncaught error only while it has code to run:
    while it loads its module, or once it has been sent a [download]
    message; its thread is over after an uncaught error, and it ends
    ([process.exit(0)]) at some time after it was sent an [exit] message,
    which the [exit] event tells; a thread that is over sends nothing. *)
Definition enabled (s : State) (i : input) : bool :=
  match i with
  | Start => match start_awaits s with None => true | Some _ => false end
  | Enqueue _ => started s
  | WaitUntilDone => started s
  | Message w Ready =>
      match heap s !! w with
      | Some o => negb (ended o) && negb (loaded o)
      | None => false
      end
  | Message w _ =>
      match heap s !! w with
      | Some o => negb (ended o) && loaded o && (1 <=? holding o)
      | None => false
      end
  | Error w =>
      match heap s !! w with
      | Some o => negb (ended o) && (negb (loaded o) || served o)
      | None => false
      end
  | Exit w _ =>
      match heap s !! w with
      | Some o => ended o || exit_posted w (log s)
      | None => false
      end
  | Shutdown => started s
  end.

(** One turn of the event loop of the main thread. *)
Definition handle (s : State) (i : input) : State :=
  match i with
  | Start => start s
  | Enqueue novels => enqueue novels s
  | WaitUntilDone => snd (waitUntilDone s)
  | Message w Ready => on_ready w (update_obj w set_loaded s)
  | Message w (Progress t c n) => _handleMessage w (Progress t c n) s
  | Message w (Result sl r) => _handleMessage w (Result sl r) (update_obj w answer s)
  | Error w => _handleError w (update_obj w set_ended s)
  | Exit w _ => update_obj w set_ended s
  | Shutdown => shutdown s
  end.

Definition step (s : State) (i : input) : option State :=
  if enabled s i then Some (handle s i) else None.

Fixpoint run (s : State) (inputs : list input) : option State :=
  match inputs with
  | [] => Some s
  | i :: rest =>
      match step s i with
      | Some s' => run s' rest
      | None => None
      end
  end.

(** The states a pool of [size] workers can be in. *)
Definition reachable (size : nat) (s : State) : Prop :=
  exists inputs, run (init size) inputs = Some s.

(** Does the handler of input [i] end with [_checkDone()]?  Those of a
    [result] message and of the [ready] message of a replacement do. *)
Definition checks_done (s : State) (i : input) : bool :=
  match i with
  | Message w (Result _ _) => true
  | Message w Ready => bool_decide (w ∈ respawn_awaits s)
  | _ => false
  end.

(** Is the queue empty and the in-flight count zero? *)
Definition all_done (s : State) : bool :=
  (inProgress (stats (pool s)) =? 0)%Z && (length (queue (pool s)) =? 0).

(** The state after the turns [inputs] of a pool of [size] workers. *)
Definition after (size : nat) (inputs : list input) : State :=
  fold_left handle inputs (init size).

(** The promises resolved so far, in the order of their resolution. *)
Definition settled (l : list effect) : list nat :=
  omap (fun e => match e with Settled p => Some p | _ => None end) l.

(** Does one of the turns [inputs], taken from state [s], end with
    [_checkDone()] and leave the queue empty and the in-flight count zero? *)
Fixpoint settles_during (s : State) (inputs : list input) : bool :=
  match inputs with
  | [] => false
  | i :: rest =>
      (checks_done s i && all_done (handle s i)) || settles_during (handle s i) rest
  end.

(** The promises as the pool sees them: those resolved, the number made, and
    the one [_resolveAllDone] stands for. *)
Definition pview (s : State) : list nat * nat * option nat :=
  (settled (log s), next_promise s, _resolveAllDone (pool s)).

(** Resolved promises were made, none was resolved twice, and the promise
    behind [_resolveAllDone] is still pending. *)
Definition promises_ok (s : State) : Prop :=
  (forall p, p ∈ settled (log s) -> p < next_promise s)
  /\ NoDup (settled (log s))
  /\ (forall p, _resolveAllDone (pool s) = Some p ->
                p < next_promise s /\ p ∉ settled (log s)).

(** What holds of the pool in every turn.  The count: every job in flight,
    every idle worker and every awaited replacement stands for one worker of
    the pool.  Before [start()] has resolved, nothing is queued and no worker
    was sent a job; while it waits, either one of the awaited workers has
    ended (and [start()] never resolves), or no worker was replaced and the
    workers not awaited any more have reported [ready].  An idle worker has
    reported [ready], holds no job and is idle once; an awaited replacement
    is not idle and holds no job; no worker holds two jobs;
    and a worker whose thread runs belongs to [this.workers]. *)
Record invariant (s : State) : Prop := mkInvariant {
  inv_count :
    (inProgress (stats (pool s)) + Z.of_nat (length (idle (pool s)))
     + Z.of_nat (length (respawn_awaits s))
     <= if started s then Z.of_nat (length (workers (pool s))) else 0)%Z;
  inv_size :
    length (workers (pool s))
    = match start_awaits s with None => 0 | Some _ => size (pool s) end;
  inv_fresh :
    start_awaits s = None ->
    heap s = [] /\ idle (pool s) = [] /\ respawn_awaits s = [];
  inv_before :
    started s = false ->
    queue (pool s) = []
    /\ Forall (fun o => holding o = 0 /\ served o = false) (heap s);
  inv_idle :
    forall w, w ∈ idle (pool s) ->
      exists o, heap s !! w = Some o /\ holding o = 0 /\ loaded o = true;
  inv_idle_nodup : NoDup (idle (pool s));
  inv_respawn :
    forall w, w ∈ respawn_awaits s ->
      (exists o, heap s !! w = Some o /\ holding o = 0) /\ (w ∉ idle (pool s));
  inv_holding : Forall (fun o => holding o <= 1) (heap s);
  inv_members :
    forall w o, heap s !! w = Some o -> ended o = false -> w ∈ workers (pool s);
  inv_starting :
    forall l, start_awaits s = Some l -> l <> [] ->
      (exists w o, w ∈ l /\ heap s !! w = Some o /\ ended o = true)
      \/ (workers (pool s) = seq 0 (length (heap s))
          /\ respawn_awaits s = [] /\ idle (pool s) = []
          /\ forall w o, heap s !! w = Some o -> w ∉ l -> loaded o = true)
}.

Definition sample_result (ok skip : bool) : Job.JobResult :=
  Job.mkResult ok None skip None None None.

Definition sample_entry (name : string) : Entry := mkEntry (lit name) (lit name).

End Pool.

(** ** utils.js: the waits of [retry] *)

Module Backoff.
Import Fetcher.
(** The time a fetch spent waiting between its attempts (milliseconds). *)
Definition total_delay (st : fstate) : Z := fold_right Z.add 0%Z (delays st).

(** A server that answers every request with the status [code]. *)
Definition always_status (code : Z) : network :=
  fun _ _ => Response code None (Resolved []).

(** A server that answers the requests in turn with the statuses 429 and
    500. *)
Definition limit_then_error : network :=
  fun n _ => Response (if Nat.even n then 429 else 500) None (Resolved []).
End Backoff.

(** ** sync-library.js and the library build script *)

Module Library.

(** The class [[a-z0-9]] of the first [replace] of [slugify]. *)
Definition is_slug_char (c : N) : bool :=
  ((97 <=? c) && (c <=? 122) || (48 <=? c) && (c <=? 57))%N.

(** [.replace(/[^a-z0-9]+/g, '-')]: every maximal run of code units outside
    the class becomes one hyphen (code unit 45).  [in_run] tells that the
    previous code unit belonged to the run being replaced. *)
Fixpoint dash_from (in_run : bool) (s : list N) : list N :=
  match s with
  | [] => []
  | c :: t =>
      if is_slug_char c then c :: dash_from false t
      else if in_run then dash_from true t
      else 45%N :: dash_from true t
  end.

(** The match of [-$]: the last code unit, when it is a hyphen, goes. *)
Fixpoint drop_last_dash (s : list N) : list N :=
  match s with
  | [] => []
  | c :: t =>
      match t with
      | [] => if (c =? 45)%N then [] else [c]
      | _ :: _ => c :: drop_last_dash t
      end
  end.

(** [.replace(/^-|-$/g, '')]: a hyphen at the start goes, and so does a
    hyphen at the end of what follows it. *)
Definition strip_edge_dashes (s : list N) : list N :=
  match s with
  | [] => []
  | c :: t => if (c =? 45)%N then drop_last_dash t else drop_last_dash s
  end.

(** [String.prototype.toLowerCase] on ASCII strings. *)
Definition ascii_toLowerCase (s : list N) : list N :=
  List.map (fun c => if ((65 <=? c) && (c <=? 90))%N then (c + 32)%N else c) s.

Section WithLowerCase.
(** [String.prototype.toLowerCase], the Unicode lower-casing of the
    runtime. *)
Variable toLowerCase : list N -> list N.

(** [function slugify(title)]. *)
Definition slugify (title : list N) : list N :=
  strip_edge_dashes (dash_from false (toLowerCase title)).

End WithLowerCase.

(** A code unit of a slug: a lower-case letter, a digit or a hyphen. *)
Definition slug_unit (c : N) : Prop := is_slug_char c = true \/ c = 45%N.

(** No hyphen is followed by a hyphen. *)
Fixpoint no_double_dash (s : list N) : Prop :=
  match s with
  | [] => True
  | c :: t => (c = 45%N -> head t <> Some 45%N) /\ no_double_dash t
  end.

(** A string of lower-case letters, digits and single hyphens between
    them. *)
Definition is_slug (s : list N) : Prop :=
  Forall slug_unit s /\ no_double_dash s
  /\ head s <> Some 45%N /\ last s <> Some 45%N.

End Library.

Module Sync.
Import Library.

(** What [JSON.parse] gives.  Numbers are kept as integers: the scripts
    read none of them, and store sizes and counts only. *)
#[local] Unset Elimination Schemes.
Inductive json : Type :=
| JNull
| JBool (b : bool)
| JNum (z : Z)
| JStr (s : list N)
| JArr (items : list json)
| JObj (fields : list (list N * json)).
#[local] Set Elimination Schemes.

(** What [extractMetadata] resolves to when the EPUB has an OPF file. *)
Record Meta : Type := mkMeta {
  m_title : list N;
  m_author : list N;
  m_chapters : nat
}.

(** What the scripts do to the file system. *)
Inductive event : Type :=
| EvCopy (src dest : list N)
| EvWrite (path : list N) (manifest : list json).

(** The file system and the EPUB reader around the scripts:
    [manifest_file path] is [None] when [fs.existsSync(path)] is false, and
    else what [JSON.parse(fs.readFileSync(path, 'utf-8'))] gives or throws;
    [extractMetadata] resolves to [None] for an EPUB without OPF file. *)
Record World : Type := mkWorld {
  path_join : list N -> list N -> list N;
  mkdirSync : list N -> outcome unit;
  manifest_file : list N -> option (outcome json);
  readdirSync : list N -> outcome (list (list N));
  extractMetadata : list N -> outcome (option Meta);
  statSync : list N -> outcome Z;
  copyFileSync : list N -> list N -> outcome unit;
  writeFileSync : list N -> list json -> outcome unit
}.

(** [s.endsWith(suffix)]. *)
Definition ends_with (suffix s : list N) : bool :=
  starts_with (rev suffix) (rev s).

(** [obj[key]] for an object made by [JSON.parse]: [None] is [undefined]. *)
Fixpoint field (key : list N) (fields : list (list N * json)) : option json :=
  match fields with
  | [] => None
  | (k, v) :: rest => if bool_decide (k = key) then Some v else field key rest
  end.

(** [e.slug] for an element of the manifest: reading a property of [null]
    throws; numbers, strings, booleans and arrays have no such property. *)
Definition slug_of (e : json) : outcome (option json) :=
  match e with
  | JNull => Rejected (lit "Cannot read properties of null (reading 'slug')")
  | JObj fields => Resolved (field (lit "slug") fields)
  | _ => Resolved None
  end.

(** [existingManifest.map(e => e.slug)], as far as the set built from it is
    asked later: the slugs that are strings (a slug looked up is a string,
    and [Set.prototype.has] finds a string only among strings). *)
Fixpoint slugs_of (l : list json) : outcome (list (list N)) :=
  match l with
  | [] => Resolved []
  | e :: rest =>
      match slug_of e with
      | Rejected err => Rejected err
      | Resolved v =>
          match slugs_of rest with
          | Rejected err => Rejected err
          | Resolved slugs =>
              Resolved (match v with Some (JStr s) => s :: slugs | _ => slugs end)
          end
      end
  end.

(** The string slugs of a manifest. *)
Definition string_slugs (l : list json) : list (list N) :=
  omap (fun e => match slug_of e with Resolved (Some (JStr s)) => Some s | _ => None end) l.

(** The object pushed to the manifest. *)
Definition entry (slug destFile : list N) (meta : Meta) (size : Z) : json :=
  JObj [(lit "slug", JStr slug); (lit "file", JStr destFile);
        (lit "title", JStr (m_title meta)); (lit "author", JStr (m_author meta));
        (lit "chapters", JNum (Z.of_nat (m_chapters meta))); (lit "size", JNum size)].

(** Is [e] a copy of a file? *)
Definition is_copy (e : event) : bool :=
  match e with EvCopy _ _ => true | _ => false end.

Section WithWorld.
Variable toLowerCase : list N -> list N.
Variable W : World.
Variable inputDir outputDir : list N.

(** The loop [for (const file of files)] of [syncLibrary]. *)
Fixpoint sync_loop (files : list (list N)) (manifest : list json)
    (existingSlugs : list (list N)) (newCount : nat) (tr : list event)
  : outcome (list json * nat) * list event :=
  match files with
  | [] => (Resolved (manifest, newCount), tr)
  | file :: rest =>
      let srcPath := path_join W inputDir file in
      match extractMetadata W srcPath with
      | Rejected err => (Rejected err, tr)
      | Resolved None => sync_loop rest manifest existingSlugs newCount tr
      | Resolved (Some meta) =>
          let slug := slugify toLowerCase (m_title meta) in
          if bool_decide (slug ∈ existingSlugs)
          then sync_loop rest manifest existingSlugs newCount tr
          else
            let destFile := slug ++ lit ".epub" in
            let destPath := path_join W outputDir destFile in
            match statSync W srcPath with
            | Rejected err => (Rejected err, tr)
            | Resolved size =>
                match copyFileSync W srcPath destPath with
                | Rejected err => (Rejected err, tr)
                | Resolved _ =>
                    sync_loop rest (manifest ++ [entry slug destFile meta size])
                      (existingSlugs ++ [slug]) (S newCount)
                      (tr ++ [EvCopy srcPath destPath])
                end
            end
      end
  end.

(** The manifest [syncLibrary] starts from: [[]] without a manifest file
    or when reading it throws, else what the file holds. *)
Definition existingManifest (manifestPath : list N) : json :=
  match manifest_file W manifestPath with
  | Some (Resolved j) => j
  | _ => JArr []
  end.

(** [export async function syncLibrary(inputDir, outputDir)]: the manifest
    it resolves to (the array holding the old and the new entries), and
    what it did. *)
Definition syncLibrary : outcome (list json) * list event :=
  match mkdirSync W outputDir with
  | Rejected err => (Rejected err, [])
  | Resolved _ =>
      let manifestPath := path_join W outputDir (lit "manifest.json") in
      match existingManifest manifestPath with
      | JArr existing =>
          match slugs_of existing with
          | Rejected err => (Rejected err, [])
          | Resolved existingSlugs =>
              match readdirSync W inputDir with
              | Rejected err => (Rejected err, [])
              | Resolved names =>
                  match List.filter (ends_with (lit ".epub")) names with
                  | [] => (Resolved existing, [])
                  | file :: rest =>
                      match sync_loop (file :: rest) existing existingSlugs 0 [] with
                      | (Rejected err, tr) => (Rejected err, tr)
                      | (Resolved (manifest, newCount), tr) =>
                          match writeFileSync W manifestPath manifest with
                          | Rejected err => (Rejected err, tr)
                          | Resolved _ => (Resolved manifest, tr ++ [EvWrite manifestPath manifest])
                          end
                      end
                  end
              end
          end
      | JNull => (Rejected (lit "Cannot read properties of null (reading 'map')"), [])
      | _ => (Rejected (lit "existingManifest.map is not a function"), [])
      end
  end.

(** The loop of [main] of the build script: every EPUB with metadata gets
    an entry. *)
Fixpoint build_loop (files : list (list N)) (manifest : list json) (tr : list event)
  : outcome (list json) * list event :=
  match files with
  | [] => (Resolved manifest, tr)
  | file :: rest =>
      let srcPath := path_join W inputDir file in
      match extractMetadata W srcPath with
      | Rejected err => (Rejected err, tr)
      | Resolved None => build_loop rest manifest tr
      | Resolved (Some meta) =>
          let slug := slugify toLowerCase (m_title meta) in
          let destFile := slug ++ lit ".epub" in
          let destPath := path_join W outputDir destFile in
          match statSync W srcPath with
          | Rejected err => (Rejected err, tr)
          | Resolved size =>
              match copyFileSync W srcPath destPath with
              | Rejected err => (Rejected err, tr)
              | Resolved _ =>
                  build_loop rest (manifest ++ [entry slug destFile meta size])
                    (tr ++ [EvCopy srcPath destPath])
              end
          end
      end
  end.

End WithWorld.

(** [async function main()] of the build script, with its constants
    [INPUT_DIR], [OUTPUT_DIR] and [MANIFEST_PATH]. *)
Definition build_main (toLowerCase : list N -> list N) (W : World)
  : outcome unit * list event :=
  let INPUT_DIR := lit "output" in
  let OUTPUT_DIR := lit "docs/epubs" in
  let MANIFEST_PATH := path_join W OUTPUT_DIR (lit "manifest.json") in
  match mkdirSync W OUTPUT_DIR with
  | Rejected err => (Rejected err, [])
  | Resolved _ =>
      match readdirSync W INPUT_DIR with
      | Rejected err => (Rejected err, [])
      | Resolved names =>
          match List.filter (ends_with (lit ".epub")) names with
          | [] => (Resolved tt, [])
          | file :: rest =>
              match build_loop toLowerCase W INPUT_DIR OUTPUT_DIR (file :: rest) [] [] with
              | (Rejected err, tr) => (Rejected err, tr)
              | (Resolved manifest, tr) =>
                  match writeFileSync W MANIFEST_PATH manifest with
                  | Rejected err => (Rejected err, tr)
                  | Resolved _ => (Resolved tt, tr ++ [EvWrite MANIFEST_PATH manifest])
                  end
              end
          end
      end
  end.

(** The world [W] once the file at [path] holds the manifest [m]. *)
Definition with_manifest (W : World) (path : list N) (m : list json) : World :=
  mkWorld (path_join W) (mkdirSync W)
    (fun p => if bool_decide (p = path) then Some (Resolved (JArr m)) else manifest_file W p)
    (readdirSync W) (extractMetadata W) (statSync W) (copyFileSync W) (writeFileSync W).

(** A library to run the definitions on: every file of [names] whose name
    does not end with [.txt.epub] is an EPUB whose title is its path. *)
Definition sample_world (names : list (list N)) : World :=
  mkWorld (fun a b => a ++ lit "/" ++ b) (fun _ => Resolved tt) (fun _ => None)
    (fun _ => Resolved names)
    (fun p => if ends_with (lit ".txt.epub") p then Resolved None
              else Resolved (Some (mkMeta p (lit "A") 1)))
    (fun _ => Resolved 10%Z) (fun _ _ => Resolved tt) (fun _ _ => Resolved tt).

End Sync.

(** ** worker.js and automate.js: progress messages and the work done *)

Module JobReport.
Import Job.
(** Is [e] a progress message? *)
Definition is_progress (e : event) : bool :=
  match e with EvProgress _ _ => true | _ => false end.
End JobReport.

Module JobAgree.
Import Job JobReport.
(** The events of a job other than its progress messages. *)
Definition work (tr : list event) : list event :=
  List.filter (fun e => negb (is_progress e)) tr.

(** Two states of the fetching phase that differ by progress messages
    only. *)
Definition same_work (st1 st2 : jstate) : Prop :=
  fragments st1 = fragments st2 /\ completed st1 = completed st2
  /\ work (trace st1) = work (trace st2).
End JobAgree.

(** ** epub-builder.js: the chapters of the EPUB *)

Module Epub.
Import Job.

(** [!ch.content || ch.content.trim() === ''] *)
Definition is_blank (c : Chapter) : bool :=
  negb (truthy_str (ch_content c)) || negb (truthy_str (trim (ch_content c))).

(** [chapters.filter(ch => ...).length]: [filter] passes over the holes
    of an array, and reading [content] of [null] throws. *)
Definition emptyCount (a : list slot) : outcome nat :=
  if existsb is_null a
  then Rejected (lit "Cannot read properties of null (reading 'content')")
  else Resolved (length (List.filter
                           (fun s => match s with Filled c => is_blank c | _ => false end) a)).

(** An element of [epubChapters]. *)
Record EpubChapter : Type := mkEpubChapter {
  e_title : list N;
  e_content : list N
}.

(** The heading put before the body of a chapter. *)
Definition heading (chTitle : list N) : list N :=
  lit "<h1 class=" ++ [34%N] ++ lit "chapter-title" ++ [34%N] ++ lit ">"
  ++ chTitle ++ lit "</h1>" ++ [10%N].

(** The callback of [chapters.map((ch) => ...)]. *)
Definition epub_chapter (c : Chapter) : EpubChapter :=
  let chTitle := or_str (ch_title c) (lit "Untitled Chapter") in
  let body := or_str (ch_content c) (lit "<p>No content available.</p>") in
  mkEpubChapter chTitle (heading chTitle ++ body).

(** [epubChapters]: [map] keeps the holes of an array ([None]), and reading
    [title] of [null] throws. *)
Definition epubChapters (a : list slot) : outcome (list (option EpubChapter)) :=
  if existsb is_null a
  then Rejected (lit "Cannot read properties of null (reading 'title')")
  else Resolved (List.map (fun s => match s with
                                    | Filled c => Some (epub_chapter c)
                                    | _ => None
                                    end) a).

End Epub.

(** ** scraper.js: URLs, slugs and the text of a chapter *)

Module Scraper.
Import Job.

(** [const BASE_URL]. *)
Definition BASE_URL : list N := lit "https://freewebnovel.com".

(** [s.replace(pattern, '')] for a string [pattern]: the first occurrence
    goes. *)
Fixpoint remove_first (pattern s : list N) : list N :=
  if starts_with pattern s then drop (length pattern) s
  else match s with
       | [] => []
       | c :: t => c :: remove_first pattern t
       end.

(** [s.replace(/\/$/, '')]: a slash at the end goes. *)
Fixpoint strip_trailing_slash (s : list N) : list N :=
  match s with
  | [] => []
  | c :: t =>
      match t with
      | [] => if (c =? 47)%N then [] else [c]
      | _ :: _ => c :: strip_trailing_slash t
      end
  end.

(** The slug [fetchNovelList] makes of the [href] of a row:
    [href.replace('/novel/', '').replace(/\/$/, '')]. *)
Definition slug_of_href (href : list N) : list N :=
  strip_trailing_slash (remove_first (lit "/novel/") href).

(** The URL [fetchNovelDetail(slug)] fetches: [`${BASE_URL}/novel/${slug}`]. *)
Definition detail_url (slug : list N) : list N :=
  BASE_URL ++ lit "/novel/" ++ slug.

(** [parts.join(sep)]. *)
Fixpoint join (sep : list N) (parts : list (list N)) : list N :=
  match parts with
  | [] => []
  | p :: rest =>
      match rest with
      | [] => p
      | _ :: _ => p ++ sep ++ join sep rest
      end
  end.

(** What cheerio finds in a chapter page: the text of the first [h4] of
    the article, the text of [h1.tit], and the text of each [p] of the
    article. *)
Record ChapterPage : Type := mkChapterPage {
  h4_text : list N;
  h1_text : list N;
  p_texts : list (list N)
}.

(** The paragraphs [fetchChapterContent] keeps: those with text, trimmed
    and wrapped. *)
Definition paragraphs (p_texts : list (list N)) : list (list N) :=
  omap (fun t => let text := trim t in
                 if truthy_str text then Some (lit "<p>" ++ text ++ lit "</p>") else None)
       p_texts.

(** What [fetchChapterContent] makes of the page. *)
Definition chapter_of_page (page : ChapterPage) : Chapter :=
  mkChapter (or_str (trim (h4_text page)) (or_str (trim (h1_text page)) []))
            (join [10%N] (paragraphs (p_texts page))).

End Scraper.

(** ** index.js: the slug of [--url] *)

Module Cli.

(** [[^/]+] at the start of [s]: the longest run without a slash. *)
Fixpoint until_slash (s : list N) : list N :=
  match s with
  | [] => []
  | c :: t => if (c =? 47)%N then [] else c :: until_slash t
  end.

(** [values.url.match(/\/novel\/([^/]+)/)]: the first group of the
    leftmost match, [None] without a match. *)
Fixpoint slug_from_url (url : list N) : option (list N) :=
  let here :=
    if starts_with (lit "/novel/") url
    then match until_slash (drop 7 url) with
         | [] => None
         | c :: run => Some (c :: run)
         end
    else None in
  match here with
  | Some slug => Some slug
  | None =>
      match url with
      | [] => None
      | _ :: t => slug_from_url t
      end
  end.

End Cli.

(** ** index.js: the sequential downloadNovel *)

Module Sequential.
Import Job.

(** What the loop stores at index [i]: the chapter fetched, or, when the
    fetch throws, a chapter that tells the error. *)
Definition seq_stored (i : nat) (ch : ChapterRef) (r : outcome Chapter) : Chapter :=
  match r with
  | Resolved content =>
      mkChapter (or_str (ch_title content) (ref_title ch)) (ch_content content)
  | Rejected message =>
      mkChapter (or_str (ref_title ch) (lit "Chapter " ++ num_to_str (i + 1)))
                (lit "<p>[Failed to fetch: " ++ message ++ lit "]</p>")
  end.

(** Did the promise reject? *)
Definition is_rejected {A} (r : outcome A) : bool :=
  match r with Rejected _ => true | Resolved _ => false end.

Section WithWorld.
Variable W : World.
(** [fs.existsSync(path.join(outputDir, filename))] for a file name. *)
Variable existsSync : list N -> bool.

(** The loop [for (let i = 0; i < novel.chapters.length; i++)], over the
    entries from index [i] on. *)
Fixpoint seq_loop (refs : list ChapterRef) (i : nat) (chapters : list slot)
    (failedChapters : nat) (tr : list event) : list slot * nat * list event :=
  match refs with
  | [] => (chapters, failedChapters, tr)
  | ch :: rest =>
      let r := fetchChapterContent W 0 i (ref_url ch) in
      seq_loop rest (S i) (js_set i (Filled (seq_stored i ch r)) chapters)
        (if is_rejected r then S failedChapters else failedChapters)
        (tr ++ [EvFetch 0 i (ref_url ch)])
  end.

(** [async function downloadNovel(slug, delayMs, concurrency, outputDir)]
    of the sequential index.js. *)
Definition downloadNovel (slug : list N) : outcome bool * list event :=
  match fetchNovelDetail W slug with
  | Rejected err => (Rejected err, [EvDetail slug])
  | Resolved novel =>
      if negb (truthy_str (title novel)) then (Resolved false, [EvDetail slug])
      else if existsSync (epubExists_filename (title novel))
      then (Resolved true, [EvDetail slug])
      else if length (chapters novel) =? 0 then (Resolved false, [EvDetail slug])
      else
        let '(a, failedChapters, tr) :=
          seq_loop (chapters novel) 0 (repeat Hole (length (chapters novel))) 0
                   [EvDetail slug] in
        match buildEpub W novel a with
        | Rejected err => (Rejected err, tr ++ [EvBuildEpub a])
        | Resolved _ => (Resolved true, tr ++ [EvBuildEpub a])
        end
  end.

End WithWorld.
End Sequential.

(** ** worker-manager.js: what the pool keeps count of *)

Module PoolLedger.
Import Pool.

(** The novels of the [download] messages posted so far, in order. *)
Definition posted_novels (l : list effect) : list Entry :=
  omap (fun e => match e with
                 | Posted _ (Download sl t) => Some (mkEntry sl t)
                 | _ => None
                 end) l.

(** The novels handed to [enqueue] by the turns [inputs], in order. *)
Definition enqueued (inputs : list input) : list Entry :=
  flat_map (fun i => match i with Enqueue novels => novels | _ => [] end) inputs.

(** The jobs the counters of [this.stats] account for. *)
Definition accounted (st : Stats) : Z :=
  (succeeded st + failed st + skipped st + inProgress st)%Z.

(** The jobs [main] reports in its summary. *)
Definition reported (st : Stats) : Z :=
  (succeeded st + failed st + skipped st)%Z.

(** The ledger of a state: the novels sent followed by those queued, and
    the difference between the jobs accounted for and the jobs sent. *)
Definition ledger_view (s : State) : list Entry * Z :=
  (posted_novels (log s) ++ queue (pool s),
   (accounted (stats (pool s)) - Z.of_nat (length (posted_novels (log s))))%Z).

End PoolLedger.

Module PoolIds.
Import Pool.
(** The [_id] of each worker of [this.workers], in order ([None] for a
    reference to no object). *)
Definition worker_ids (s : State) : list (option nat) :=
  List.map (fun w => _id <$> heap s !! w) (workers (pool s)).

(** The identities in the heap, the workers, and whether [start()] was
    called. *)
Definition ids_view (s : State) : list nat * list nat * bool :=
  (List.map _id (heap s), workers (pool s),
   match start_awaits s with Some _ => true | None => false end).
End PoolIds.

(** ** worker-manager.js: a replacement until its [ready] message *)

Module PoolRespawn.
Import Pool.

(** What holds of the workers that wait in every turn, and in the middle of
    [_dispatch()]: an idle worker is a [Worker] object that is not an awaited
    replacement; an awaited replacement has not posted [ready]; no
    [download] message was sent to it; and [download] messages went to
    [Worker] objects only. *)
Record awaiting (s : State) : Prop := mkAwaiting {
  aw_idle :
    forall w, w ∈ idle (pool s) -> (w ∉ respawn_awaits s) /\ w < length (heap s);
  aw_loading :
    forall x, x ∈ respawn_awaits s ->
      exists o, heap s !! x = Some o /\ loaded o = false;
  aw_unserved :
    forall x sl t, x ∈ respawn_awaits s -> Posted x (Download sl t) ∉ log s;
  aw_posted :
    forall w sl t, Posted w (Download sl t) ∈ log s -> w < length (heap s)
}.

(** After [_dispatch()], no worker is idle while a novel is queued. *)
Definition dispatched (s : State) : Prop :=
  idle (pool s) = [] \/ queue (pool s) = [].

End PoolRespawn.

(** * Properties *)

(** ** sanitizeFilename *)

Section SanitizeFacts.
Import Utils.

Lemma space_is_space : is_space 32 = true.
Proof. reflexivity. Qed.

Lemma forbidden_not_space c : is_forbidden c = true -> is_space c = false.
Proof.
  unfold is_forbidden, is_space. intros H.
  repeat (apply orb_prop in H; destruct H as [H|H]);
    apply N.eqb_eq in H; subst c; reflexivity.
Qed.

Lemma collapse_from_true_head s :
  match collapse_from true s with
  | [] => True
  | d :: _ => is_space d = false
  end.
Proof.
  induction s as [|c t IH]; simpl; [exact I|].
  destruct (is_space c) eqn:E; [exact IH | exact E].
Qed.

Lemma collapse_from_single_spaced b s : single_spaced (collapse_from b s).
Proof.
  revert b. induction s as [|c t IH]; intros b; simpl; [exact I|].
  destruct (is_space c) eqn:E.
  - destruct b; [apply IH|]. simpl. split; [|apply IH].
    intros _. split; [reflexivity | apply collapse_from_true_head].
  - simpl. split; [|apply IH]. intros E'. congruence.
Qed.

Lemma single_spaced_collapse l :
  single_spaced l -> collapse_from false l = l.
Proof.
  induction l as [|c t IH]; simpl; [reflexivity|].
  intros [Hc Ht]. destruct (is_space c) eqn:E.
  - destruct (Hc eq_refl) as [-> Hnext]. f_equal.
    destruct t as [|d t']; [reflexivity|].
    simpl in *. rewrite Hnext. f_equal. apply IH in Ht.
    simpl in Ht. rewrite Hnext in Ht. congruence.
  - f_equal. apply IH, Ht.
Qed.

Lemma single_spaced_app_l l1 l2 : single_spaced (l1 ++ l2) -> single_spaced l1.
Proof.
  induction l1 as [|c t IH]; simpl; [intros _; exact I|].
  intros [Hc Ht]. split; [|apply IH, Ht].
  intros E. destruct (Hc E) as [-> Hn]. split; [reflexivity|].
  destruct t; [exact I | exact Hn].
Qed.

Lemma single_spaced_app_r l1 l2 : single_spaced (l1 ++ l2) -> single_spaced l2.
Proof. induction l1 as [|c t IH]; simpl; [tauto|]. intros [_ Ht]. auto. Qed.

(** [trimStart] drops a prefix, [trimEnd] a suffix. *)
Lemma trimStart_suffix s : exists p, s = p ++ trimStart s.
Proof.
  induction s as [|c t [p Hp]]; simpl; [exists []; reflexivity|].
  destruct (is_space c).
  - exists (c :: p). simpl. congruence.
  - exists []. reflexivity.
Qed.

Lemma trimEnd_prefix s : exists q, s = trimEnd s ++ q.
Proof.
  unfold trimEnd. destruct (trimStart_suffix (rev s)) as [p Hp].
  exists (rev p). rewrite <- rev_app_distr, <- Hp. symmetry. apply rev_involutive.
Qed.

Lemma trim_infix s : exists p q, s = p ++ trim s ++ q.
Proof.
  unfold trim. destruct (trimStart_suffix s) as [p Hp].
  destruct (trimEnd_prefix (trimStart s)) as [q Hq].
  exists p, q. rewrite <- Hq. exact Hp.
Qed.

Lemma trimStart_no_leading s : no_leading_space (trimStart s).
Proof.
  induction s as [|c t IH]; simpl; [exact I|].
  destruct (is_space c) eqn:E; [exact IH | exact E].
Qed.

Lemma trimStart_id s : no_leading_space s -> trimStart s = s.
Proof. destruct s as [|c t]; simpl; [reflexivity|]. intros ->. reflexivity. Qed.

Lemma trimEnd_no_trailing s : no_trailing_space (trimEnd s).
Proof.
  unfold no_trailing_space, trimEnd. rewrite rev_involutive.
  apply trimStart_no_leading.
Qed.

Lemma trimEnd_id s : no_trailing_space s -> trimEnd s = s.
Proof.
  unfold no_trailing_space, trimEnd. intros H.
  rewrite (trimStart_id _ H). apply rev_involutive.
Qed.

Lemma trimEnd_no_leading s : no_leading_space s -> no_leading_space (trimEnd s).
Proof.
  intros H. destruct (trimEnd_prefix s) as [q Hq].
  destruct (trimEnd s) as [|c t] eqn:E; [exact I|].
  rewrite Hq in H. exact H.
Qed.

Lemma trim_no_leading s : no_leading_space (trim s).
Proof. apply trimEnd_no_leading, trimStart_no_leading. Qed.

Lemma trim_no_trailing s : no_trailing_space (trim s).
Proof. apply trimEnd_no_trailing. Qed.

Lemma trim_id s : no_leading_space s -> no_trailing_space s -> trim s = s.
Proof.
  intros Hl Ht. unfold trim. rewrite (trimStart_id _ Hl). apply trimEnd_id, Ht.
Qed.

Lemma strip_forbidden_id s :
  Forall (fun c => is_forbidden c = false) s -> strip_forbidden s = s.
Proof.
  induction 1 as [|c t Hc _ IH]; simpl; [reflexivity|].
  rewrite Hc. simpl. f_equal. exact IH.
Qed.

Lemma strip_forbidden_clean s :
  Forall (fun c => is_forbidden c = false) (strip_forbidden s).
Proof.
  induction s as [|c t IH]; simpl; [constructor|].
  destruct (is_forbidden c) eqn:E; simpl; [exact IH|].
  constructor; assumption.
Qed.

Lemma collapse_from_clean b s :
  Forall (fun c => is_forbidden c = false) s ->
  Forall (fun c => is_forbidden c = false) (collapse_from b s).
Proof.
  intros H. revert b. induction H as [|c t Hc _ IH]; intros b; simpl; [constructor|].
  destruct (is_space c).
  - destruct b; [apply IH|]. constructor; [reflexivity | apply IH].
  - constructor; [exact Hc | apply IH].
Qed.

Lemma infix_clean (P : N -> Prop) p m q : Forall P (p ++ m ++ q) -> Forall P m.
Proof.
  intros H. apply Forall_app in H as [_ H]. apply Forall_app in H as [H _]. exact H.
Qed.

Lemma sanitizeFilename_clean s :
  Forall (fun c => is_forbidden c = false) (sanitizeFilename s).
Proof.
  unfold sanitizeFilename, collapse_spaces.
  destruct (trim_infix (collapse_from false (strip_forbidden s))) as (p & q & E).
  apply (infix_clean _ p _ q). rewrite <- E.
  apply collapse_from_clean, strip_forbidden_clean.
Qed.

Lemma sanitizeFilename_single_spaced s : single_spaced (sanitizeFilename s).
Proof.
  unfold sanitizeFilename, collapse_spaces.
  destruct (trim_infix (collapse_from false (strip_forbidden s))) as (p & q & E).
  pose proof (collapse_from_single_spaced false (strip_forbidden s)) as H.
  rewrite E in H. apply single_spaced_app_r in H. apply single_spaced_app_l in H.
  exact H.
Qed.

Lemma sanitizeFilename_fixpoint s :
  sanitizeFilename (sanitizeFilename s) = sanitizeFilename s.
Proof.
  unfold sanitizeFilename at 1.
  rewrite (strip_forbidden_id _ (sanitizeFilename_clean s)).
  unfold collapse_spaces.
  rewrite (single_spaced_collapse _ (sanitizeFilename_single_spaced s)).
  apply trim_id; [apply trim_no_leading | apply trim_no_trailing].
Qed.

End SanitizeFacts.

(** C10.  [sanitizeFilename] is idempotent; its result holds none of the nine
    characters it deletes and neither starts nor ends with white space; and
    the file name tested by [epubExists] is the one [buildEpub] writes for
    the same title. *)
Theorem sanitizeFilename_idempotent_clean :
  forall s : list N,
    Utils.sanitizeFilename (Utils.sanitizeFilename s) = Utils.sanitizeFilename s
    /\ (forall c, c ∈ forbidden_chars -> c ∉ Utils.sanitizeFilename s)
    /\ no_leading_space (Utils.sanitizeFilename s)
    /\ no_trailing_space (Utils.sanitizeFilename s)
    /\ epubExists_filename s = buildEpub_filename s
    /\ epubExists_filename (Utils.sanitizeFilename s) = buildEpub_filename s.
Proof.
  intros s. split; [apply sanitizeFilename_fixpoint|].
  split.
  { intros c Hc Hin.
    pose proof (sanitizeFilename_clean s) as Hclean.
    rewrite Forall_forall in Hclean. apply Hclean in Hin.
    unfold forbidden_chars in Hc. vm_compute in Hc.
    repeat (apply elem_of_cons in Hc as [->|Hc]; [discriminate Hin|]).
    inversion Hc. }
  split; [apply trim_no_leading|].
  split; [apply trim_no_trailing|].
  split; [reflexivity|].
  unfold epubExists_filename, buildEpub_filename.
  now rewrite sanitizeFilename_fixpoint.
Qed.

(** ** The Fetcher: redirects and the retry budget *)

Section FetcherFacts.
Import Fetcher.
Variable net : network.
Variable late : late_events.
Variable resolve_url : list N -> list N -> option (list N).

(** A settled [fetchWithBypassRaw] was answered between one and [fuel]
    requests, touched neither the attempt counter, nor the delays, nor the
    errors caught, and left at most one call running. *)
Lemma fetchWithBypassRaw_effects fuel : forall url st r st',
  fetchWithBypassRaw net late resolve_url fuel url st = Done r st' ->
  requests st < requests st' <= requests st + fuel
  /\ attempts st' = attempts st /\ delays st' = delays st
  /\ caught st' = caught st
  /\ exists l, abandoned st' = abandoned st ++ l /\ length l <= 1.
Proof.
  induction fuel as [|fuel IH]; intros url st r st'; simpl; [discriminate|].
  destruct (net (requests st) url) as [code loc body|msg].
  - destruct (is_redirect code loc) as [target|].
    + destruct (resolve_url target url) as [redirectUrl|]; [|discriminate].
      destruct (late (requests st)) as [msg|].
      * intros [= <- <-]. simpl. repeat split; try lia.
        exists [redirectUrl]. split; [reflexivity | simpl; lia].
      * intros H. apply IH in H. simpl in H.
        destruct H as (Hr & Ha & Hd & Hc & Hl). repeat split; try lia; assumption.
    + destruct (_ || _); intros [= <- <-]; simpl; repeat split; try lia;
        exists []; (split; [now rewrite app_nil_r | simpl; lia]).
  - intros [= <- <-]. simpl. repeat split; try lia.
    exists []. split; [now rewrite app_nil_r | simpl; lia].
Qed.

(** [retry] settles as soon as every call of [fn] does, after at most
    [left + 1] calls, with one delay between two calls. *)
Lemma retry_loop_settles (fn : fstate -> run) (d : nat) delayMs :
  (forall st, exists r st', fn st = Done r st'
                            /\ requests st' <= requests st + d
                            /\ attempts st' = attempts st
                            /\ delays st' = delays st
                            /\ length (abandoned st') <= length (abandoned st) + 1) ->
  forall left i st, exists r st',
    retry_loop fn delayMs left i st = Done r st'
    /\ attempts st < attempts st' <= attempts st + S left
    /\ requests st' <= requests st + S left * d
    /\ length (delays st') + S (attempts st)
       = attempts st' + length (delays st)
    /\ length (abandoned st') + attempts st <= attempts st' + length (abandoned st).
Proof.
  intros Hfn. induction left as [|left IH]; intros i st; simpl.
  - destruct (Hfn (mkF (requests st) (S (attempts st)) (delays st) (abandoned st)
                       (caught st)))
      as (r & st' & -> & Hr & Ha & Hd & Hb). simpl in *.
    destruct r; eexists _, _; (split; [reflexivity|]); simpl; rewrite Ha, Hd; lia.
  - destruct (Hfn (mkF (requests st) (S (attempts st)) (delays st) (abandoned st)
                       (caught st)))
      as (r & st' & -> & Hr & Ha & Hd & Hb). simpl in *.
    destruct r as [v|err].
    + eexists _, _. split; [reflexivity|]. rewrite Ha, Hd. lia.
    + destruct (IH (S i) (mkF (requests st') (attempts st')
                            (delays st' ++ [backoff delayMs i err]) (abandoned st')
                            (caught st' ++ [err])))
        as (r2 & st2 & -> & Ha2 & Hr2 & Hd2 & Hb2).
      simpl in *. rewrite length_app in Hd2. simpl in Hd2.
      rewrite Ha, Hd in *.
      eexists _, _. split; [reflexivity|]. lia.
Qed.

End FetcherFacts.

Section RedirectCycleFacts.
Import Fetcher.

(** On the redirecting server, when no request fails after its response, no
    call ever settles. *)
Lemma redirect_cycle_pending fuel : forall url st,
  url <> [] ->
  fetchWithBypassRaw redirect_cycle quiet absolute fuel url st = Pending.
Proof.
  induction fuel as [|fuel IH]; intros url st Hurl; [reflexivity|].
  simpl. destruct url as [|c url]; [contradiction|]. simpl.
  apply IH. discriminate.
Qed.

End RedirectCycleFacts.

(** C8, as the code has it.  A redirect is followed by calling
    [fetchWithBypassRaw] on the target inside the same attempt: it uses up
    none of the retries and nothing counts it; the call settles as the call
    on the target does, unless the [error] or [timeout] of the redirected
    request rejects it first, which leaves the call on the target running.
    When every call settles within [d] requests (its redirect chain ends,
    or one of its redirected requests fails first), a fetch settles after at
    most [retries + 1 = 6] attempts and [6 * d] requests, and leaves at most
    one call running per attempt. *)
Theorem fetch_settles_when_redirects_end :
  forall (net : Fetcher.network) (late : Fetcher.late_events)
         (resolve_url : list N -> list N -> option (list N))
         (d : nat) (url : list N),
    (forall u st, exists r st',
        Fetcher.fetchWithBypassRaw net late resolve_url d u st = Fetcher.Done r st') ->
    (forall fuel u st code loc body target redirectUrl,
        net (Fetcher.requests st) u = Fetcher.Response code loc body ->
        Fetcher.is_redirect code loc = Some target ->
        resolve_url target u = Some redirectUrl ->
        Fetcher.fetchWithBypassRaw net late resolve_url (S fuel) u st
        = match late (Fetcher.requests st) with
          | None =>
              Fetcher.fetchWithBypassRaw net late resolve_url fuel redirectUrl
                (Fetcher.mkF (S (Fetcher.requests st)) (Fetcher.attempts st)
                   (Fetcher.delays st) (Fetcher.abandoned st) (Fetcher.caught st))
          | Some msg =>
              Fetcher.Done (Rejected msg)
                (Fetcher.mkF (S (Fetcher.requests st)) (Fetcher.attempts st)
                   (Fetcher.delays st) (Fetcher.abandoned st ++ [redirectUrl])
                   (Fetcher.caught st))
          end)
    /\ exists r st,
        Fetcher.fetch net late resolve_url d url = Fetcher.Done r st
        /\ 1 <= Fetcher.attempts st <= 6
        /\ Fetcher.requests st <= 6 * d
        /\ length (Fetcher.delays st) < Fetcher.attempts st
        /\ length (Fetcher.abandoned st) <= Fetcher.attempts st.
Proof.
  intros net late resolve_url d url Hd. split.
  { intros fuel u st code loc body target redirectUrl Hnet Hred Hres. simpl.
    now rewrite Hnet, Hred, Hres. }
  unfold Fetcher.fetch, Fetcher.retry.
  assert (Hfn : forall st, exists r st',
             Fetcher.fetchWithBypassRaw net late resolve_url d url st = Fetcher.Done r st'
             /\ Fetcher.requests st' <= Fetcher.requests st + d
             /\ Fetcher.attempts st' = Fetcher.attempts st
             /\ Fetcher.delays st' = Fetcher.delays st
             /\ length (Fetcher.abandoned st') <= length (Fetcher.abandoned st) + 1).
  { intros st. destruct (Hd url st) as (r & st' & E). exists r, st'.
    split; [exact E|].
    apply fetchWithBypassRaw_effects in E as (Hr & Ha & Hdl & _ & l & Hl & Hlen).
    rewrite Hl, length_app. intuition lia. }
  destruct (retry_loop_settles _ d Fetcher.default_delayMs Hfn
              Fetcher.default_retries 0 Fetcher.fstate0)
    as (r & st & E & Ha & Hr & Hl & Hb).
  exists r, st. split; [exact E|]. unfold Fetcher.default_retries in *. simpl in *.
  lia.
Qed.

(** C8, as stated, fails.  On a redirect cycle a fetch never settles,
    whatever the number of requests allowed, when no request fails after its
    response; a chain of ten redirects is followed to its end by the first
    attempt, with eleven requests, more than the six the retry budget would
    allow; and when every request of the cycle times out after its response,
    the fetch is rejected after six attempts of one request each, and leaves
    six calls running, which follow the cycle. *)
Lemma fetch_redirect_cycle_never_settles :
  (forall fuel,
      Fetcher.fetch Fetcher.redirect_cycle Fetcher.quiet Fetcher.absolute fuel
        (lit "https://freewebnovel.com/a") = Fetcher.Pending)
  /\ Fetcher.fetch (Fetcher.redirect_chain 10 (lit "ok")) Fetcher.quiet Fetcher.absolute 11
       (lit "https://freewebnovel.com/a")
     = Fetcher.Done (Resolved (lit "ok")) (Fetcher.mkF 11 1 [] [] [])
  /\ Fetcher.fetch Fetcher.redirect_cycle
       (Fetcher.all_time_out (lit "https://freewebnovel.com/a")) Fetcher.absolute 1
       (lit "https://freewebnovel.com/a")
     = Fetcher.Done (Rejected (lit "Timeout for https://freewebnovel.com/a"))
         (Fetcher.mkF 6 6 [3000; 6000; 9000; 12000; 15000]%Z
            (repeat (lit "https://freewebnovel.com/a") 6)
            (repeat (lit "Timeout for https://freewebnovel.com/a") 6)).
Proof.
  split; [|split; vm_compute; reflexivity].
  intros fuel. unfold Fetcher.fetch, Fetcher.retry.
  destruct Fetcher.default_retries; simpl;
    now rewrite redirect_cycle_pending.
Qed.

(** A server that redirects three times before it serves the page, and whose
    first request times out after its response: the first attempt is
    rejected by the time-out, the second follows the two redirects left. *)
Lemma fetch_settles_when_redirects_end_witness :
  exists r st,
    Fetcher.fetch (Fetcher.redirect_chain 3 (lit "ok")) (Fetcher.first_times_out (lit "u"))
      Fetcher.absolute 3 (lit "u") = Fetcher.Done r st
    /\ 1 <= Fetcher.attempts st <= 6
    /\ Fetcher.requests st <= 6 * 3
    /\ length (Fetcher.delays st) < Fetcher.attempts st
    /\ length (Fetcher.abandoned st) <= Fetcher.attempts st.
Proof.
  refine (proj2 (fetch_settles_when_redirects_end
                   (Fetcher.redirect_chain 3 (lit "ok"))
                   (Fetcher.first_times_out (lit "u"))
                   Fetcher.absolute 3 (lit "u") _)).
  intros u [rq at_ dl ab ct].
  destruct rq as [|[|[|rq]]]; destruct u as [|c u]; simpl; eauto.
Defined.

(** ** The fetching phase of a job *)

Section ArrayFacts.
Import Job.

Lemma js_set_in_range i v a : i < length a -> js_set i v a = <[i := v]> a.
Proof. intros H. unfold js_set. apply Nat.ltb_lt in H. now rewrite H. Qed.

(** [failedIndices] with the indices shifted by [k]. *)
Lemma failedIndices_cons k (s : slot) (a : list slot) :
  omap id (imap (fun i ch => if is_null ch then Some (k + i) else None) (s :: a))
  = (if is_null s then [k] else [])
      ++ omap id (imap (fun i ch => if is_null ch then Some (S k + i) else None) a).
Proof.
  rewrite imap_cons.
  assert (E : imap ((fun i ch => if is_null ch then Some (k + i) else None) ∘ S) a
              = imap (fun i ch => if is_null ch then Some (S k + i) else None) a).
  { apply imap_ext. intros i x _. simpl. now rewrite Nat.add_succ_r. }
  rewrite E. rewrite Nat.add_0_r. destruct (is_null s); reflexivity.
Qed.

Lemma failedIndices_offset (a : list slot) k j :
  j ∈ omap id (imap (fun i ch => if is_null ch then Some (k + i) else None) a)
  <-> exists i, j = k + i /\ a !! i = Some Null.
Proof.
  rewrite list_elem_of_omap. split.
  - intros (x & Hx & Hid). apply elem_of_lookup_imap in Hx as (i & s & -> & Hs).
    destruct s; simpl in Hid; try discriminate. injection Hid as <-. eauto.
  - intros (i & -> & Hs). exists (Some (k + i)). split; [|reflexivity].
    apply elem_of_lookup_imap. exists i, Null. auto.
Qed.

Lemma elem_of_failedIndices (a : list slot) j :
  j ∈ failedIndices a <-> a !! j = Some Null.
Proof.
  unfold failedIndices.
  rewrite (failedIndices_offset a 0 j). simpl. split.
  - intros (i & -> & H). exact H.
  - intros H. eauto.
Qed.

Lemma failedIndices_NoDup_offset (a : list slot) k :
  NoDup (omap id (imap (fun i ch => if is_null ch then Some (k + i) else None) a)).
Proof.
  revert k. induction a as [|s a IH]; intros k; [constructor|].
  rewrite failedIndices_cons. destruct (is_null s); cbn [app]; [|apply IH].
  constructor; [|apply IH].
  rewrite failedIndices_offset. intros (i & Hi & _). lia.
Qed.

Lemma failedIndices_NoDup (a : list slot) : NoDup (failedIndices a).
Proof. apply (failedIndices_NoDup_offset a 0). Qed.

Lemma failedIndices_length_offset (a : list slot) k :
  length (omap id (imap (fun i ch => if is_null ch then Some (k + i) else None) a))
  = length (List.filter is_null a).
Proof.
  revert k. induction a as [|s a IH]; intros k; [reflexivity|].
  rewrite failedIndices_cons. cbn [List.filter].
  destruct (is_null s); cbn [app length]; now rewrite IH.
Qed.

Lemma failedIndices_length (a : list slot) :
  length (failedIndices a) = length (List.filter is_null a).
Proof. apply (failedIndices_length_offset a 0). Qed.

End ArrayFacts.

Section JobFacts.
Import Job.
Variable W : World.
Variable novel : Novel.

Hypothesis schedule_perm : forall pass tasks, schedule W pass tasks ≡ₚ tasks.

Local Abbreviation n := (length (chapters novel)).

(** Tasks that each store a value depending on their index only: the
    order of completion does not matter. *)
Lemma run_tasks_fragments (task : nat -> jstate -> jstate)
    (val : nat -> slot) (order : list nat) :
  (forall i st, i ∈ order -> i < length (fragments st) ->
                fragments (task i st) = <[i := val i]> (fragments st)) ->
  forall st,
    (forall i, i ∈ order -> i < length (fragments st)) ->
    length (fragments (run_tasks task order st)) = length (fragments st)
    /\ forall j, fragments (run_tasks task order st) !! j
                 = if bool_decide (j ∈ order) then Some (val j)
                   else fragments st !! j.
Proof.
  induction order as [|i order IH]; intros Htask st Hrange.
  - split; [reflexivity|]. intros j. rewrite bool_decide_eq_false_2; [reflexivity|].
    apply not_elem_of_nil.
  - assert (Hi : i < length (fragments st)) by (apply Hrange; left).
    assert (Hw := Htask i st (list_elem_of_here _ _) Hi).
    destruct (IH (fun k st' Hk => Htask k st' (list_elem_of_further _ _ _ Hk)) (task i st))
      as [Hlen Hget].
    { intros k Hk. rewrite Hw, length_insert. apply Hrange. now right. }
    change (run_tasks task (i :: order) st) with (run_tasks task order (task i st)).
    split; [now rewrite Hlen, Hw, length_insert|].
    intros j. rewrite Hget, Hw.
    destruct (decide (j ∈ order)) as [Hj|Hj].
    + rewrite !bool_decide_eq_true_2; [reflexivity| now right | exact Hj].
    + rewrite (bool_decide_eq_false_2 _ Hj).
      destruct (decide (j = i)) as [->|Hne].
      * rewrite bool_decide_eq_true_2 by left.
        now apply list_lookup_insert_eq.
      * rewrite bool_decide_eq_false_2.
        -- now apply list_lookup_insert_ne.
        -- intros [?|?]%elem_of_cons; contradiction.
Qed.

Local Abbreviation attempt := (attempt_result W novel).
Local Abbreviation fetch_event := (fetch_events_of novel).

Lemma initial_task_fragments report i st :
  i < n -> i < length (fragments st) ->
  fragments (initial_task W novel report i st) = <[i := attempt 0 i]> (fragments st).
Proof.
  intros Hi Hlen. unfold initial_task, attempt_result.
  destruct (chapters novel !! i) as [ch|] eqn:E.
  - simpl. now apply js_set_in_range.
  - apply lookup_ge_None in E. lia.
Qed.

Lemma retry_task_fragments pass i st :
  i < length (fragments st) ->
  fragments (retry_task W novel pass i st) = <[i := attempt pass i]> (fragments st).
Proof.
  intros Hlen. unfold retry_task, attempt_result.
  destruct (chapters novel !! i) as [ch|]; simpl; now apply js_set_in_range.
Qed.

Lemma retry_tasks_trace pass order : forall st,
  trace (run_tasks (retry_task W novel pass) order st)
  = trace st ++ flat_map (fetch_event pass) order.
Proof.
  induction order as [|i order IH]; intros st; simpl.
  - now rewrite app_nil_r.
  - change (fold_left (fun s i => retry_task W novel pass i s) order
              (retry_task W novel pass i st))
      with (run_tasks (retry_task W novel pass) order (retry_task W novel pass i st)).
    rewrite IH. unfold retry_task, fetch_event.
    destruct (chapters novel !! i); simpl; [|reflexivity].
    now rewrite <- app_assoc.
Qed.

Lemma progress_not_pass_event report c :
  List.filter is_pass_event (progress novel report c) = [].
Proof.
  unfold progress, worker_progress. destruct report; [|reflexivity].
  destruct (_ || _); reflexivity.
Qed.

Lemma initial_tasks_trace report order : forall st,
  List.filter is_pass_event (trace (run_tasks (initial_task W novel report) order st))
  = List.filter is_pass_event (trace st) ++ flat_map (fetch_event 0) order.
Proof.
  induction order as [|i order IH]; intros st; simpl.
  - now rewrite app_nil_r.
  - change (fold_left (fun s i => initial_task W novel report i s) order
              (initial_task W novel report i st))
      with (run_tasks (initial_task W novel report) order
              (initial_task W novel report i st)).
    rewrite IH. unfold initial_task, fetch_event.
    destruct (chapters novel !! i); simpl; [|reflexivity].
    rewrite List.filter_app. cbn [List.filter is_pass_event app].
    rewrite progress_not_pass_event. now rewrite <- app_assoc.
Qed.

Local Abbreviation val := (value_at W novel).
Local Abbreviation Inv := (pass_invariant W novel).

Lemma val_0 i : i < n -> val 0 i = attempt 0 i.
Proof.
  intros Hi. unfold value_at, attempt_result.
  destruct (chapters novel !! i) eqn:E; [reflexivity|].
  apply lookup_ge_None in E. lia.
Qed.

Lemma val_succ pass i :
  i < n ->
  val (S pass) i = if is_null (val pass i) then attempt (S pass) i else val pass i.
Proof.
  intros Hi. unfold value_at, attempt_result.
  destruct (chapters novel !! i) eqn:E; [reflexivity|].
  apply lookup_ge_None in E. lia.
Qed.

Lemma still_null_range q i : still_null W novel q i = true -> i < n.
Proof.
  unfold still_null. destruct (chapters novel !! i) eqn:E; [|discriminate].
  intros _. apply lookup_lt_Some in E. exact E.
Qed.

Lemma still_null_0 i : i < n -> still_null W novel 0 i = true.
Proof.
  intros Hi. unfold still_null.
  destruct (chapters novel !! i) eqn:E; [reflexivity|].
  apply lookup_ge_None in E. lia.
Qed.

Lemma still_null_val q i : i < n -> still_null W novel (S q) i = is_null (val q i).
Proof.
  intros Hi. unfold still_null, value_at.
  destruct (chapters novel !! i) as [ch|] eqn:E.
  2:{ apply lookup_ge_None in E. lia. }
  induction q as [|q IH].
  - simpl. now rewrite andb_true_r.
  - rewrite seq_S, forallb_app, IH. cbn [forallb value_after Nat.add].
    rewrite andb_true_r.
    destruct (is_null (value_after W ch i q)) eqn:Eq; [reflexivity|].
    now rewrite Eq.
Qed.

Lemma still_null_succ q i :
  still_null W novel (S q) i = true -> still_null W novel q i = true.
Proof.
  intros H. assert (Hi := still_null_range _ _ H).
  destruct q as [|q]; [now apply still_null_0|].
  rewrite still_null_val in * by exact Hi.
  rewrite val_succ in H by exact Hi.
  destruct (is_null (val q i)) eqn:E; [reflexivity | congruence].
Qed.

Lemma still_null_le q q' i :
  q <= q' -> still_null W novel q' i = true -> still_null W novel q i = true.
Proof.
  induction 1 as [|q' _ IH]; [tauto|]. intros H. apply IH, still_null_succ, H.
Qed.

Lemma elem_of_schedule pass tasks i : i ∈ schedule W pass tasks <-> i ∈ tasks.
Proof. now rewrite (schedule_perm pass tasks). Qed.

Lemma after_initial_inv report tr : Inv 0 (after_initial W novel report tr).
Proof.
  unfold after_initial.
  destruct (run_tasks_fragments (initial_task W novel report) (attempt 0)
              (schedule W 0 (seq 0 n))) with (st := mkJ (repeat Hole n) 0 tr)
    as [Hlen Hget].
  - intros i st Hi Hl. apply initial_task_fragments; [|exact Hl].
    apply elem_of_schedule, elem_of_seq in Hi. lia.
  - intros i Hi. apply elem_of_schedule, elem_of_seq in Hi.
    simpl. rewrite repeat_length. lia.
  - simpl in Hlen. rewrite repeat_length in Hlen. split; [exact Hlen|].
    intros i Hi. rewrite Hget, bool_decide_eq_true_2.
    + now rewrite val_0.
    + apply elem_of_schedule, elem_of_seq. lia.
Qed.

Lemma Inv_failed pass st i :
  Inv pass st ->
  (i ∈ failedIndices (fragments st) <-> still_null W novel (S pass) i = true).
Proof.
  intros [Hlen Hget]. rewrite elem_of_failedIndices. split.
  - intros H. assert (Hi : i < n) by (apply lookup_lt_Some in H; lia).
    rewrite still_null_val by exact Hi. rewrite Hget in H by exact Hi.
    injection H as ->. reflexivity.
  - intros H. assert (Hi := still_null_range _ _ H).
    rewrite still_null_val in H by exact Hi. rewrite Hget by exact Hi.
    destruct (val pass i); try discriminate. reflexivity.
Qed.

(** One retry pass. *)
Lemma retry_pass_inv pass st tr' :
  Inv pass st ->
  Inv (S pass)
    (run_tasks (retry_task W novel (S pass))
       (schedule W (S pass) (failedIndices (fragments st)))
       (mkJ (fragments st) (completed st) tr')).
Proof.
  intros HI. pose proof HI as [Hlen Hget].
  destruct (run_tasks_fragments (retry_task W novel (S pass)) (attempt (S pass))
              (schedule W (S pass) (failedIndices (fragments st))))
    with (st := mkJ (fragments st) (completed st) tr') as [Hlen' Hget'].
  - intros i s _ Hl. now apply retry_task_fragments.
  - intros i Hi. apply elem_of_schedule, elem_of_failedIndices in Hi.
    apply lookup_lt_Some in Hi. exact Hi.
  - simpl in *. split; [lia|]. intros i Hi. rewrite Hget', val_succ by exact Hi.
    rewrite <- still_null_val by exact Hi.
    destruct (still_null W novel (S pass) i) eqn:E.
    + rewrite bool_decide_eq_true_2; [reflexivity|].
      apply elem_of_schedule. now apply (Inv_failed pass st).
    + rewrite bool_decide_eq_false_2; [now apply Hget|].
      intros Hin. apply elem_of_schedule, (Inv_failed pass st) in Hin; congruence.
Qed.

(** Nothing left to retry: later passes would change nothing. *)
Lemma Inv_no_failure pass st k :
  Inv pass st -> failedIndices (fragments st) = [] -> Inv (pass + k) st.
Proof.
  intros HI Hnil. induction k as [|k IH]; [now rewrite Nat.add_0_r|].
  rewrite Nat.add_succ_r. destruct IH as [Hlen Hget]. split; [exact Hlen|].
  intros i Hi. rewrite val_succ by exact Hi. rewrite Hget by exact Hi.
  destruct (is_null (val (pass + k) i)) eqn:E; [|reflexivity].
  exfalso. rewrite <- still_null_val in E by exact Hi.
  apply (still_null_le (S pass)) in E; [|lia].
  apply (Inv_failed pass st i HI) in E. rewrite Hnil in E. inversion E.
Qed.

Lemma retry_passes_inv left : forall pass st,
  Inv pass st -> Inv (pass + left) (retry_passes W novel left (S pass) st).
Proof.
  induction left as [|left IH]; intros pass st HI; simpl.
  - now rewrite Nat.add_0_r.
  - destruct (failedIndices (fragments st)) as [|i rest] eqn:E.
    + now apply Inv_no_failure.
    + rewrite Nat.add_succ_r. apply (IH (S pass)).
      rewrite <- E. now apply retry_pass_inv.
Qed.

Lemma elem_of_fetch_events pass order e :
  e ∈ flat_map (fetch_event pass) order
  <-> exists i ch, i ∈ order /\ chapters novel !! i = Some ch
                   /\ e = EvFetch pass i (ref_url ch).
Proof.
  rewrite list_elem_of_In, in_flat_map. unfold fetch_events_of. split.
  - intros (i & Hi & He). apply list_elem_of_In in Hi.
    destruct (chapters novel !! i) as [ch|] eqn:E; [|destruct He].
    destruct He as [<-|[]]. eauto.
  - intros (i & ch & Hi & E & ->). exists i. rewrite <- list_elem_of_In, E.
    split; [exact Hi | now left].
Qed.

Lemma fetch_events_NoDup pass order :
  NoDup order -> NoDup (flat_map (fetch_event pass) order).
Proof.
  induction 1 as [|i order Hi _ IH]; simpl; [constructor|].
  unfold fetch_events_of at 1. destruct (chapters novel !! i) as [ch|]; [|exact IH].
  simpl. constructor; [|exact IH].
  rewrite elem_of_fetch_events. intros (j & ch' & Hj & _ & [= <- _]). contradiction.
Qed.

(** The events of the retry passes that follow pass [pass]. *)
Lemma retry_passes_trace left : forall pass st,
  Inv pass st ->
  exists new,
    trace (retry_passes W novel left (S pass) st) = trace st ++ new
    /\ NoDup new
    /\ List.filter is_pass_event new = new
    /\ (forall q i u,
          EvFetch q i u ∈ new
          <-> pass < q <= pass + left
              /\ exists ch, chapters novel !! i = Some ch /\ u = ref_url ch
                            /\ still_null W novel q i = true)
    /\ (forall q,
          EvCooldown q ∈ new
          <-> pass < q <= pass + left /\ exists i, still_null W novel q i = true).
Proof.
  induction left as [|left IH]; intros pass st HI.
  { exists []. simpl. rewrite app_nil_r.
    split; [reflexivity|]. split; [constructor|]. split; [reflexivity|].
    split; intros; (split; [intros H; inversion H | intros [H _]; lia]). }
  simpl. destruct (failedIndices (fragments st)) as [|i0 rest] eqn:E.
  { exists []. rewrite app_nil_r.
    assert (Hnone : forall q i, pass < q -> still_null W novel q i = true -> False).
    { intros q i Hq H. apply (still_null_le (S pass)) in H; [|lia].
      apply (Inv_failed pass st i HI) in H. rewrite E in H. inversion H. }
    split; [reflexivity|]. split; [constructor|]. split; [reflexivity|].
    split; intros; (split; [intros H; inversion H|]).
    - intros [Hq (ch & _ & _ & H)]. exfalso. eapply Hnone; [|exact H]. lia.
    - intros [Hq (i' & H)]. exfalso. eapply Hnone; [|exact H]. lia. }
  rewrite <- E.
  set (st1 := mkJ (fragments st) (completed st) (trace st ++ [EvCooldown (S pass)])).
  set (order := schedule W (S pass) (failedIndices (fragments st))).
  assert (HI1 : Inv (S pass) (run_tasks (retry_task W novel (S pass)) order st1))
    by (now apply retry_pass_inv).
  destruct (IH (S pass) _ HI1) as (new & Htr & Hnd & Hpe & Hf & Hc).
  assert (Horder : forall i, i ∈ order <-> still_null W novel (S pass) i = true).
  { intros i. unfold order. rewrite elem_of_schedule. now apply Inv_failed. }
  exists (EvCooldown (S pass) :: flat_map (fetch_event (S pass)) order ++ new).
  split; [|split; [|split; [|split]]].
  - rewrite Htr, retry_tasks_trace. unfold st1. simpl.
    now rewrite <- !app_assoc.
  - constructor.
    + rewrite elem_of_app, elem_of_fetch_events, Hc.
      intros [(i & ch & _ & _ & [=])|[Hq _]]. lia.
    + apply NoDup_app. split; [|split; [|exact Hnd]].
      * apply fetch_events_NoDup. unfold order.
        rewrite (schedule_perm (S pass)). apply failedIndices_NoDup.
      * intros e (i & ch & _ & _ & ->)%elem_of_fetch_events [Hq _]%Hf. lia.
  - cbn [List.filter is_pass_event]. f_equal.
    rewrite List.filter_app, Hpe. f_equal.
    clear. induction order as [|i order IHo]; [reflexivity|].
    simpl. rewrite List.filter_app, IHo. f_equal.
    unfold fetch_events_of. destruct (chapters novel !! i); reflexivity.
  - intros q i u. rewrite elem_of_cons, elem_of_app, elem_of_fetch_events, Hf.
    split.
    + intros [[=]|[(j & ch & Hj & Hch & [= -> -> ->])|[Hq H]]].
      * split; [lia|]. exists ch. apply Horder in Hj. auto.
      * split; [lia | exact H].
    + intros [Hq (ch & Hch & -> & H)]. right.
      destruct (decide (q = S pass)) as [->|Hne].
      * left. exists i, ch. rewrite Horder. auto.
      * right. split; [lia|]. eauto.
  - intros q. rewrite elem_of_cons, elem_of_app, elem_of_fetch_events, Hc.
    split.
    + intros [[= ->]|[(j & ch & _ & _ & [=])|[Hq H]]].
      * split; [lia|]. exists i0. apply Horder. unfold order.
        rewrite elem_of_schedule, E. left.
      * split; [lia | exact H].
    + intros [Hq H]. destruct (decide (q = S pass)) as [->|Hne]; [now left|].
      right. right. split; [lia | exact H].
Qed.

Local Abbreviation filled := (fill_slot novel).

Lemma fill_loop_spec left : forall i a c,
  length a = n -> i + left = n ->
  exists a',
    fill_loop novel left i a c
    = Resolved (a', c + length (List.filter is_null (drop i a)))
    /\ length a' = n
    /\ forall j, a' !! j = if i <=? j then filled j <$> a !! j else a !! j.
Proof.
  induction left as [|left IH]; intros i a c Hlen Hi.
  - exists a. simpl. rewrite drop_ge by lia. simpl. rewrite Nat.add_0_r.
    split; [reflexivity|]. split; [exact Hlen|].
    intros j. destruct (i <=? j) eqn:Ej; [|reflexivity].
    apply Nat.leb_le in Ej. rewrite lookup_ge_None_2 by lia. reflexivity.
  - simpl. destruct (a !! i) as [s|] eqn:Ea.
    2:{ apply lookup_ge_None in Ea. lia. }
    rewrite (drop_S _ _ _ Ea).
    assert (Hskip : s <> Null ->
              exists a', fill_loop novel left (S i) a c
                         = Resolved (a', c + length (List.filter is_null (s :: drop (S i) a)))
                         /\ length a' = n
                         /\ forall j, a' !! j = if i <=? j then filled j <$> a !! j
                                                else a !! j).
    { intros Hs. destruct (IH (S i) a c Hlen) as (a' & -> & Hl & Hg); [lia|].
      exists a'. split.
      { simpl. destruct s; try reflexivity. contradiction. }
      split; [exact Hl|]. intros j. rewrite Hg.
      destruct (decide (j = i)) as [->|Hne].
      - rewrite Nat.leb_refl. replace (S i <=? i) with false
          by (symmetry; apply Nat.leb_gt; lia).
        rewrite Ea. simpl. destruct s; try reflexivity. contradiction.
      - destruct (S i <=? j) eqn:E1, (i <=? j) eqn:E2; try reflexivity;
          apply Nat.leb_le in E1 || apply Nat.leb_gt in E1;
          apply Nat.leb_le in E2 || apply Nat.leb_gt in E2; lia. }
    destruct s; [apply Hskip; discriminate| |apply Hskip; discriminate].
    destruct (chapters novel !! i) as [ch|] eqn:Ech.
    2:{ apply lookup_ge_None in Ech. lia. }
    rewrite js_set_in_range by lia.
    destruct (IH (S i) (<[i := Filled (placeholder i ch)]> a) (S c))
      as (a' & -> & Hl & Hg); [now rewrite length_insert | lia |].
    exists a'. split.
    { rewrite drop_insert_lt by lia. simpl. do 2 f_equal. lia. }
    split; [exact Hl|]. intros j. rewrite Hg.
    destruct (decide (j = i)) as [->|Hne].
    + rewrite Nat.leb_refl. replace (S i <=? i) with false
        by (symmetry; apply Nat.leb_gt; lia).
      rewrite list_lookup_insert_eq by lia. rewrite Ea. simpl. unfold fill_slot. now rewrite Ech.
    + rewrite list_lookup_insert_ne by congruence.
      destruct (S i <=? j) eqn:E1, (i <=? j) eqn:E2; try reflexivity;
        apply Nat.leb_le in E1 || apply Nat.leb_gt in E1;
        apply Nat.leb_le in E2 || apply Nat.leb_gt in E2; lia.
Qed.

Lemma fill_failures_spec a :
  length a = n ->
  fill_failures novel a = Resolved (imap filled a, length (failedIndices a)).
Proof.
  intros Hlen. unfold fill_failures.
  destruct (fill_loop_spec (length a) 0 a 0 Hlen) as (a' & E & Hl & Hg); [lia|].
  rewrite E, failedIndices_length. simpl. do 2 f_equal.
  apply list_eq. intros j. rewrite Hg, list_lookup_imap. reflexivity.
Qed.

Lemma value_after_not_hole ch i pass : value_after W ch i pass <> Hole.
Proof.
  assert (Hs : forall r, stored r ch <> Hole).
  { intros [c|m]; simpl; [|discriminate]. destruct (_ || _); discriminate. }
  induction pass as [|pass IH]; simpl; [apply Hs|].
  destruct (is_null (value_after W ch i pass)); [apply Hs | exact IH].
Qed.

(** The array when the retry passes are over. *)
Lemma after_retries_fragments report tr :
  length (fragments (after_retries W novel report tr)) = n
  /\ forall i ch, chapters novel !! i = Some ch ->
                  fragments (after_retries W novel report tr) !! i
                  = Some (value_after W ch i 2).
Proof.
  destruct (retry_passes_inv 2 0 _ (after_initial_inv report tr)) as [Hlen Hget].
  split; [exact Hlen|]. intros i ch Hch.
  unfold after_retries, MAX_RETRY_PASSES. rewrite Hget.
  - unfold value_at. now rewrite Hch.
  - apply lookup_lt_Some in Hch. exact Hch.
Qed.

(** The array when retry pass [pass] is about to begin. *)
Lemma before_pass_null report tr pass i :
  1 <= pass ->
  fragments (before_pass W novel report tr pass) !! i = Some Null
  <-> still_null W novel pass i = true.
Proof.
  intros Hp. unfold before_pass.
  pose proof (retry_passes_inv (pass - 1) 0 _ (after_initial_inv report tr)) as HI.
  simpl in HI. rewrite <- elem_of_failedIndices, (Inv_failed _ _ i HI).
  now replace (S (pass - 1)) with pass by lia.
Qed.

(** The fetches and cooldowns of the whole fetching phase. *)
Lemma after_retries_trace report tr :
  exists ctl,
    List.filter is_pass_event (trace (after_retries W novel report tr))
    = List.filter is_pass_event tr ++ ctl
    /\ NoDup ctl
    /\ (forall q i u,
          EvFetch q i u ∈ ctl
          <-> q <= 2
              /\ exists ch, chapters novel !! i = Some ch /\ u = ref_url ch
                            /\ still_null W novel q i = true)
    /\ (forall q,
          EvCooldown q ∈ ctl
          <-> 1 <= q <= 2 /\ exists i, still_null W novel q i = true).
Proof.
  destruct (retry_passes_trace 2 0 _ (after_initial_inv report tr))
    as (new & Htr & Hnd & Hpe & Hf & Hc).
  set (order := schedule W 0 (seq 0 n)).
  assert (Horder : forall i, i ∈ order <-> i < n).
  { intros i. unfold order. rewrite elem_of_schedule, elem_of_seq. lia. }
  exists (flat_map (fetch_event 0) order ++ new).
  split; [|split; [|split]].
  - unfold after_retries, MAX_RETRY_PASSES. rewrite Htr, List.filter_app, Hpe.
    unfold after_initial. rewrite initial_tasks_trace. simpl.
    now rewrite <- app_assoc.
  - apply NoDup_app. split; [|split; [|exact Hnd]].
    + apply fetch_events_NoDup. unfold order. rewrite (schedule_perm 0).
      apply NoDup_seq.
    + intros e (i & ch & _ & _ & ->)%elem_of_fetch_events [Hq _]%Hf. lia.
  - intros q i u. rewrite elem_of_app, elem_of_fetch_events, Hf. split.
    + intros [(j & ch & Hj & Hch & [= -> -> ->])|[Hq H]].
      * split; [lia|]. exists ch. rewrite still_null_0 by now apply Horder. auto.
      * split; [lia | exact H].
    + intros [Hq (ch & Hch & -> & H)]. destruct q as [|q].
      * left. exists i, ch. rewrite Horder. split; [|auto].
        now apply lookup_lt_Some in Hch.
      * right. split; [lia|]. eauto.
  - intros q. rewrite elem_of_app, elem_of_fetch_events, Hc. split.
    + intros [(j & ch & _ & _ & [=])|[Hq H]]. split; [lia | exact H].
    + intros [Hq H]. right. split; [lia | exact H].
Qed.

End JobFacts.

(** Once the placeholders are in, no element is [null] nor a hole, so
    [buildEpub] reads the title and the content of every element. *)
Lemma filled_after_placeholders :
  forall (W : Job.World) (novel : Job.Novel) (report : bool) (tr : list Job.event),
    (forall pass tasks, Job.schedule W pass tasks ≡ₚ tasks) ->
    let a := imap (Job.fill_slot novel)
                  (Job.fragments (Job.after_retries W novel report tr)) in
    (forall s, s ∈ a -> Job.is_filled s = true)
    /\ Job.buildEpub W novel a = Job.genEpub W novel a.
Proof.
  intros W novel report tr Hs.
  destruct (after_retries_fragments W novel Hs report tr) as [Hlen Hget].
  set (frags := Job.fragments (Job.after_retries W novel report tr)) in *.
  cbv zeta.
  assert (Hfilled : forall s, s ∈ imap (Job.fill_slot novel) frags -> Job.is_filled s = true).
  { intros s (i & x & -> & Hx)%elem_of_lookup_imap.
    destruct (Job.chapters novel !! i) as [ch|] eqn:Ech.
    - pose proof (value_after_not_hole W ch i 2) as Hnh.
      rewrite (Hget i ch Ech) in Hx.
      remember (Job.value_after W ch i 2) as v eqn:Ev. clear Ev.
      injection Hx as <-. unfold Job.fill_slot. rewrite Ech.
      destruct v; [contradiction|reflexivity|reflexivity].
    - apply lookup_ge_None in Ech. apply lookup_lt_Some in Hx. lia. }
  split; [exact Hfilled|].
  unfold Job.buildEpub.
  destruct (existsb Job.is_null (imap (Job.fill_slot novel) frags)) eqn:E; [|reflexivity].
  apply existsb_exists in E as (s & Hin & Hnull).
  apply list_elem_of_In, Hfilled in Hin. destruct s; discriminate.
Qed.

(** C1.  Whatever the fetches do, the fetching phase ends with an array that
    has one element per entry of the manifest, none of them [null] (nor a
    hole); when every fetch of every pass fails, the array holds the
    placeholders only. *)
Theorem fetch_fragments_complete :
  forall (W : Job.World) (novel : Job.Novel) (report : bool) (tr : list Job.event),
    (forall pass tasks, Job.schedule W pass tasks ≡ₚ tasks) ->
    exists a failedCount,
      fst (Job.fetch_fragments W novel report tr) = Resolved (a, failedCount)
      /\ length a = length (Job.chapters novel)
      /\ (forall s, s ∈ a -> Job.is_filled s = true)
      /\ Job.buildEpub W novel a = Job.genEpub W novel a
      /\ ((forall pass i url, exists msg,
              Job.fetchChapterContent W pass i url = Rejected msg) ->
          a = imap (fun i ch => Job.Filled (Job.placeholder i ch)) (Job.chapters novel)
          /\ failedCount = length (Job.chapters novel)).
Proof.
  intros W novel report tr Hs.
  destruct (after_retries_fragments W novel Hs report tr) as [Hlen Hget].
  set (frags := Job.fragments (Job.after_retries W novel report tr)) in *.
  exists (imap (Job.fill_slot novel) frags), (length (Job.failedIndices frags)).
  destruct (filled_after_placeholders W novel report tr Hs) as [Hfilled Hbuild].
  fold frags in Hfilled, Hbuild.
  split; [|split; [|split; [|split]]].
  - unfold Job.fetch_fragments. simpl. now apply fill_failures_spec.
  - now rewrite length_imap.
  - exact Hfilled.
  - exact Hbuild.
  - intros Hfail.
    assert (Hall : forall i ch, Job.chapters novel !! i = Some ch -> frags !! i = Some Job.Null).
    { intros i ch Hch. rewrite (Hget i ch Hch). f_equal.
      assert (Hst : forall p, Job.stored (Job.fetchChapterContent W p i (Job.ref_url ch)) ch
                              = Job.Null).
      { intros p. destruct (Hfail p i (Job.ref_url ch)) as [msg ->]. reflexivity. }
      simpl. rewrite !Hst. reflexivity. }
    split.
    + apply list_eq. intros i. rewrite !list_lookup_imap.
      destruct (Job.chapters novel !! i) as [ch|] eqn:Ech.
      * rewrite (Hall i ch Ech). simpl. unfold Job.fill_slot. now rewrite Ech.
      * apply lookup_ge_None in Ech. rewrite lookup_ge_None_2 by lia. reflexivity.
    + rewrite failedIndices_length, <- Hlen.
      assert (Hnull : forall s, s ∈ frags -> Job.is_null s = true).
      { intros s (i & Hi)%list_elem_of_lookup.
        destruct (Job.chapters novel !! i) as [ch|] eqn:Ech.
        - rewrite (Hall i ch Ech) in Hi. now injection Hi as <-.
        - apply lookup_ge_None in Ech. apply lookup_lt_Some in Hi. lia. }
      clear - Hnull. induction frags as [|s l IH]; [reflexivity|].
      simpl. rewrite (Hnull s) by left. simpl. f_equal. apply IH.
      intros x Hx. apply Hnull. now right.
Qed.

(** C2.  After the initial pass (pass 0) the retry controller runs passes 1
    and 2 at most; pass [q] fetches exactly the indices whose element is
    [null] when the pass begins, each once, after one cooldown; a pass that
    finds no [null] element issues neither cooldown nor fetch, nor does any
    pass after it. *)
Theorem retry_controller_passes :
  forall (W : Job.World) (novel : Job.Novel) (report : bool) (tr : list Job.event),
    (forall pass tasks, Job.schedule W pass tasks ≡ₚ tasks) ->
    exists ctl,
      List.filter Job.is_pass_event (Job.trace (Job.after_retries W novel report tr))
      = List.filter Job.is_pass_event tr ++ ctl
      /\ NoDup ctl
      /\ (forall q i u, Job.EvFetch q i u ∈ ctl -> q <= 2)
      /\ (forall i u,
            Job.EvFetch 0 i u ∈ ctl
            <-> exists ch, Job.chapters novel !! i = Some ch /\ u = Job.ref_url ch)
      /\ (forall q i u,
            1 <= q <= 2 ->
            (Job.EvFetch q i u ∈ ctl
             <-> Job.fragments (Job.before_pass W novel report tr q) !! i = Some Job.Null
                 /\ exists ch, Job.chapters novel !! i = Some ch /\ u = Job.ref_url ch))
      /\ (forall q,
            Job.EvCooldown q ∈ ctl
            <-> 1 <= q <= 2
                /\ exists i, Job.fragments (Job.before_pass W novel report tr q) !! i
                             = Some Job.Null)
      /\ (forall q,
            1 <= q <= 2 ->
            Job.failedIndices (Job.fragments (Job.before_pass W novel report tr q)) = [] ->
            forall q', q <= q' ->
              (Job.EvCooldown q' ∉ ctl) /\ (forall i u, Job.EvFetch q' i u ∉ ctl)).
Proof.
  intros W novel report tr Hs.
  destruct (after_retries_trace W novel Hs report tr) as (ctl & Htr & Hnd & Hf & Hc).
  exists ctl. split; [exact Htr|]. split; [exact Hnd|].
  assert (Hnone : forall q, 1 <= q ->
            Job.failedIndices (Job.fragments (Job.before_pass W novel report tr q)) = [] ->
            forall q' i, q <= q' -> Job.still_null W novel q' i = true -> False).
  { intros q Hq Hnil q' i Hle H. apply (still_null_le W novel q) in H; [|exact Hle].
    apply (before_pass_null W novel Hs report tr q i Hq) in H.
    apply elem_of_failedIndices in H. rewrite Hnil in H. inversion H. }
  split; [|split; [|split; [|split]]].
  - intros q i u [Hq _]%Hf. exact Hq.
  - intros i u. rewrite Hf. split.
    + intros [_ (ch & Hch & -> & _)]. eauto.
    + intros (ch & Hch & ->). split; [lia|]. exists ch. repeat split; [exact Hch|].
      unfold Job.still_null. now rewrite Hch.
  - intros q i u Hq. rewrite Hf, (before_pass_null W novel Hs report tr q i) by lia.
    split.
    + intros [_ (ch & Hch & -> & H)]. eauto.
    + intros [H (ch & Hch & ->)]. split; [lia|]. eauto.
  - intros q. rewrite Hc. split.
    + intros [Hq (i & H)]. split; [exact Hq|]. exists i.
      now apply (before_pass_null W novel Hs report tr q i); [lia|].
    + intros [Hq (i & H)]. split; [exact Hq|]. exists i.
      now apply (before_pass_null W novel Hs report tr q i) in H; [|lia].
  - intros q Hq Hnil q' Hle. split.
    + intros [_ (i & H)]%Hc. exact (Hnone q (proj1 Hq) Hnil q' i Hle H).
    + intros i u [_ (ch & _ & _ & H)]%Hf. exact (Hnone q (proj1 Hq) Hnil q' i Hle H).
Qed.

(** C3.  When the retry passes are over, every index still [null] gets the
    placeholder made of the original title, or of [Chapter] and the index
    plus one, and of the failure marker; the other elements stay as they
    are; the number of placeholders is the [failedChapters] of the result,
    and the result says [success] whatever that number, as soon as
    [buildEpub] does not throw. *)
Theorem placeholders_counted_not_failed :
  forall (W : Job.World) (cfg : Job.Config) (slug listTitle : list N) (novel : Job.Novel),
    (forall pass tasks, Job.schedule W pass tasks ≡ₚ tasks) ->
    Job.fetchNovelDetail W slug = Resolved novel ->
    truthy_str (Job.title novel) = true ->
    Job.chapters novel <> [] ->
    truthy_num (Job.maxChapters cfg)
      && length_gt (length (Job.chapters novel)) (Job.maxChapters cfg) = false ->
    (exists K, Job.pLimit W (Job.concurrency cfg) = Resolved K) ->
    let before := Job.fragments (Job.after_retries W novel true [Job.EvDetail slug]) in
    exists a tr,
      Job.fetch_fragments W novel true [Job.EvDetail slug]
      = (Resolved (a, length (Job.failedIndices before)), tr)
      /\ (forall i, i ∈ Job.failedIndices before <-> before !! i = Some Job.Null)
      /\ NoDup (Job.failedIndices before)
      /\ (forall i, before !! i = Some Job.Null ->
            exists ch, Job.chapters novel !! i = Some ch
              /\ a !! i = Some (Job.Filled
                   (Job.mkChapter
                      (or_str (Job.ref_title ch) (lit "Chapter " ++ num_to_str (i + 1)))
                      (lit "<p>[Failed to fetch after retries]</p>"))))
      /\ (forall i, before !! i <> Some Job.Null -> a !! i = before !! i)
      /\ (forall u, Job.genEpub W novel a = Resolved u ->
            Job.downloadNovel W cfg slug listTitle
            = (Resolved (Job.mkResult true None false (Some (Job.title novel))
                           (Some (length (Job.chapters novel)))
                           (Some (length (Job.failedIndices before)))),
               tr ++ [Job.EvBuildEpub a])).
Proof.
  intros W cfg slug listTitle novel Hs Hdetail Htitle Hch Hceil [K HK] before.
  destruct (after_retries_fragments W novel Hs true [Job.EvDetail slug]) as [Hlen Hget].
  fold before in Hlen, Hget.
  exists (imap (Job.fill_slot novel) before),
         (Job.trace (Job.after_retries W novel true [Job.EvDetail slug])).
  assert (Hfill : Job.fetch_fragments W novel true [Job.EvDetail slug]
                  = (Resolved (imap (Job.fill_slot novel) before,
                               length (Job.failedIndices before)),
                     Job.trace (Job.after_retries W novel true [Job.EvDetail slug]))).
  { unfold Job.fetch_fragments. fold before. now rewrite fill_failures_spec. }
  split; [exact Hfill|].
  split; [intros i; apply elem_of_failedIndices|].
  split; [apply failedIndices_NoDup|].
  split; [|split].
  - intros i Hi. assert (Hlt : i < length (Job.chapters novel)).
    { apply lookup_lt_Some in Hi. lia. }
    destruct (lookup_lt_is_Some_2 _ _ Hlt) as [ch Ech]. exists ch. split; [exact Ech|].
    rewrite list_lookup_imap, Hi. simpl. unfold Job.fill_slot. now rewrite Ech.
  - intros i Hi. rewrite list_lookup_imap.
    destruct (before !! i) as [s|]; [|reflexivity].
    simpl. destruct s; try reflexivity. contradiction.
  - intros u Hgen.
    assert (E0 : (length (Job.chapters novel) =? 0) = false).
    { apply Nat.eqb_neq. destruct (Job.chapters novel); [contradiction|discriminate]. }
    unfold Job.downloadNovel. rewrite Hdetail, Htitle. cbv zeta. cbn [negb].
    rewrite E0, Hceil, HK, Hfill.
    destruct (filled_after_placeholders W novel true [Job.EvDetail slug] Hs)
      as [_ Hbuild].
    fold before in Hbuild. rewrite Hbuild, Hgen. reflexivity.
Qed.

(** C4, as the code has it.  A novel without a title or without chapters
    makes the job fail at once, and a novel with more chapters than a
    non-zero [maxChapters] makes it a skipped job; in both cases nothing
    follows the fetch of the novel page: no chapter is fetched. *)
Theorem manifest_failed_or_skipped :
  forall (W : Job.World) (cfg : Job.Config) (slug listTitle : list N) (novel : Job.Novel),
    Job.fetchNovelDetail W slug = Resolved novel ->
    (Job.title novel = [] \/ Job.chapters novel = [] ->
     exists msg,
       Job.downloadNovel W cfg slug listTitle
       = (Resolved (Job.mkResult false (Some msg) false None None None),
          [Job.EvDetail slug]))
    /\ (forall z,
          Job.title novel <> [] -> Job.chapters novel <> [] ->
          Job.maxChapters cfg = Num z -> z <> 0%Z ->
          (z < Z.of_nat (length (Job.chapters novel)))%Z ->
          exists msg,
            Job.downloadNovel W cfg slug listTitle
            = (Resolved (Job.mkResult false (Some msg) true None None None),
               [Job.EvDetail slug])).
Proof.
  intros W cfg slug listTitle novel Hdetail. split.
  - intros Hbad. unfold Job.downloadNovel. rewrite Hdetail.
    destruct (Job.title novel) as [|c t] eqn:Et; simpl.
    + eexists. reflexivity.
    + destruct Hbad as [Hbad|Hbad]; [discriminate|]. rewrite Hbad. simpl.
      eexists. reflexivity.
  - intros z Ht Hc Hmax Hz Hlt. unfold Job.downloadNovel. rewrite Hdetail.
    destruct (Job.title novel) as [|c t] eqn:Et; [contradiction|]. simpl.
    destruct (Job.chapters novel) as [|r l] eqn:Ec; [contradiction|].
    cbn [length Nat.eqb]. rewrite Hmax. unfold truthy_num, length_gt.
    apply Z.eqb_neq in Hz. apply Z.ltb_lt in Hlt. cbn [length] in Hlt.
    rewrite Hz, Hlt. simpl. eexists. reflexivity.
Qed.

Lemma fetch_fragments_complete_witness :
  exists a failedCount,
    fst (Job.fetch_fragments (Job.sample_world (fun _ ts => ts)) Job.sample_novel true [])
    = Resolved (a, failedCount)
    /\ length a = 3
    /\ (forall s, s ∈ a -> Job.is_filled s = true).
Proof.
  destruct (fetch_fragments_complete (Job.sample_world (fun _ ts => ts))
              Job.sample_novel true [])
    as (a & k & H1 & H2 & H3 & _).
  - intros pass tasks. reflexivity.
  - exists a, k. auto.
Defined.

Lemma retry_controller_passes_witness :
  exists ctl,
    List.filter Job.is_pass_event
      (Job.trace (Job.after_retries (Job.sample_world (fun _ ts => ts))
                    Job.sample_novel true []))
    = ctl
    /\ NoDup ctl
    /\ (forall q i u, Job.EvFetch q i u ∈ ctl -> q <= 2).
Proof.
  destruct (retry_controller_passes (Job.sample_world (fun _ ts => ts))
              Job.sample_novel true [])
    as (ctl & H1 & H2 & H3 & _).
  - intros pass tasks. reflexivity.
  - exists ctl. auto.
Defined.

Lemma placeholders_counted_not_failed_witness :
  exists tr a,
    Job.downloadNovel (Job.sample_world (fun _ ts => ts))
      (Job.sample_config (Num 2000)) (lit "s") (lit "T")
    = (Resolved (Job.mkResult true None false (Some (lit "T")) (Some 3) (Some 1)),
       tr ++ [Job.EvBuildEpub a]).
Proof.
  destruct (placeholders_counted_not_failed (Job.sample_world (fun _ ts => ts))
              (Job.sample_config (Num 2000)) (lit "s") (lit "T") Job.sample_novel)
    as (a & tr & _ & _ & _ & _ & _ & H).
  - intros pass tasks. reflexivity.
  - reflexivity.
  - reflexivity.
  - discriminate.
  - reflexivity.
  - exists 3. reflexivity.
  - exists tr, a. exact (H tt eq_refl).
Defined.

Lemma manifest_failed_or_skipped_witness :
  exists msg,
    Job.downloadNovel (Job.sample_world (fun _ ts => ts))
      (Job.sample_config (Num 2)) (lit "s") (lit "T")
    = (Resolved (Job.mkResult false (Some msg) true None None None),
       [Job.EvDetail (lit "s")]).
Proof.
  refine (proj2 (manifest_failed_or_skipped (Job.sample_world (fun _ ts => ts))
                   (Job.sample_config (Num 2)) (lit "s") (lit "T") Job.sample_novel
                   eq_refl) 2%Z _ _ eq_refl _ _).
  - discriminate.
  - discriminate.
  - discriminate.
  - reflexivity.
Defined.

(** C4, as stated, fails for the ceiling 0: the three chapters of the sample
    novel exceed it, yet the job is not skipped; it fetches the chapters and
    succeeds. *)
Lemma ceiling_zero_not_skipped :
  length_gt (length (Job.chapters Job.sample_novel)) (Num 0) = true
  /\ Job.skipped (fst (Job.handle_download (Job.sample_world (fun _ ts => ts))
                         (Job.sample_config (Num 0)) (lit "s") (lit "T"))) = false
  /\ Job.success (fst (Job.handle_download (Job.sample_world (fun _ ts => ts))
                         (Job.sample_config (Num 0)) (lit "s") (lit "T"))) = true
  /\ existsb Job.is_fetch
       (snd (Job.handle_download (Job.sample_world (fun _ ts => ts))
               (Job.sample_config (Num 0)) (lit "s") (lit "T"))) = true.
Proof. repeat split. Qed.

(** ** The worker pool *)

Section PoolFacts.
Import Pool.

(** One iteration of the loop of [_dispatch]. *)
Lemma dispatch_loop_ind (P : State -> Prop) :
  (forall s w idle' novel queue',
      idle (pool s) = w :: idle' -> queue (pool s) = novel :: queue' -> P s ->
      P (post_download
           (with_pool s (mkPool (size (pool s)) (workers (pool s)) idle' queue'
                           (add_inProgress (stats (pool s)) 1)
                           (totalQueued (pool s)) (_resolveAllDone (pool s))))
           w novel)) ->
  forall s, P s -> P (_dispatch s).
Proof.
  intros Hstep s. unfold _dispatch.
  remember (idle (pool s)) as I eqn:EI. remember (queue (pool s)) as Q eqn:EQ.
  revert Q s EI EQ. induction I as [|w I IH]; intros Q s EI EQ HP; [exact HP|].
  destruct Q as [|novel Q]; [exact HP|]. simpl.
  apply IH; [reflexivity | reflexivity |].
  apply Hstep; auto.
Qed.

Lemma settled_app l1 l2 : settled (l1 ++ l2) = settled l1 ++ settled l2.
Proof. unfold settled. apply omap_app. Qed.

Lemma elem_of_settled l p : p ∈ settled l <-> Settled p ∈ l.
Proof.
  unfold settled. rewrite list_elem_of_omap. split.
  - intros (e & He & Hp). destruct e; try discriminate. now injection Hp as ->.
  - intros H. exists (Settled p). auto.
Qed.

Lemma pview_post_download s w novel :
  pview (post_download s w novel) = pview s.
Proof.
  unfold pview, post_download. simpl. rewrite settled_app. simpl.
  now rewrite app_nil_r.
Qed.

Lemma pview_dispatch s : pview (_dispatch s) = pview s.
Proof.
  apply (dispatch_loop_ind (fun s' => pview s' = pview s)); [|reflexivity].
  intros s' w idle' novel queue' _ _ <-. now rewrite pview_post_download.
Qed.

Lemma pview_update_obj w f s : pview (update_obj w f s) = pview s.
Proof. unfold update_obj. destruct (heap s !! w); reflexivity. Qed.

Lemma pview_spawn s id : pview (snd (spawn s id)) = pview s.
Proof.
  unfold pview, spawn. simpl. rewrite settled_app. simpl. now rewrite app_nil_r.
Qed.

Lemma promises_ok_view s s' : pview s' = pview s -> promises_ok s -> promises_ok s'.
Proof.
  unfold pview, promises_ok. intros [= -> -> ->]. tauto.
Qed.

Lemma all_done_checkDone s : all_done (_checkDone s) = all_done s.
Proof.
  unfold _checkDone. destruct (_resolveAllDone (pool s)); [|reflexivity].
  destruct (_ && _); reflexivity.
Qed.

Lemma pview_checkDone s :
  pview (_checkDone s)
  = match _resolveAllDone (pool s) with
    | Some r =>
        if all_done s then (settled (log s) ++ [r], next_promise s, None) else pview s
    | None => pview s
    end.
Proof.
  unfold _checkDone, all_done. destruct (_resolveAllDone (pool s)) as [r|] eqn:E;
    [|reflexivity].
  destruct (_ && _); [|reflexivity].
  unfold pview. simpl. now rewrite settled_app.
Qed.

Lemma pview_parts s s' :
  pview s' = pview s ->
  settled (log s') = settled (log s) /\ next_promise s' = next_promise s
  /\ _resolveAllDone (pool s') = _resolveAllDone (pool s).
Proof. unfold pview. intros [= -> -> ->]. auto. Qed.

Lemma pview_back_to_idle s0 s w :
  pview s = pview s0 ->
  pview (back_to_idle s w)
  = match _resolveAllDone (pool s0) with
    | Some r =>
        if all_done (back_to_idle s w)
        then (settled (log s0) ++ [r], next_promise s0, None)
        else pview s0
    | None => pview s0
    end.
Proof.
  intros Hs. unfold back_to_idle. rewrite all_done_checkDone, pview_checkDone.
  set (s1 := with_pool s (with_idle (pool s) (idle (pool s) ++ [w]))).
  assert (Hv : pview (_dispatch s1) = pview s0) by (now rewrite pview_dispatch).
  destruct (pview_parts _ _ Hv) as (Hl & Hn & Hr).
  now rewrite Hr, Hl, Hn, Hv.
Qed.

Lemma pview_spawn_loop n : forall i s, pview (spawn_loop n i s) = pview s.
Proof.
  induction n as [|n IH]; intros i s; [reflexivity|].
  simpl. rewrite IH. unfold pview. simpl. rewrite settled_app. simpl.
  now rewrite app_nil_r.
Qed.

Lemma pview_start s : pview (start s) = pview s.
Proof.
  unfold start. pose proof (pview_spawn_loop (size (pool s)) 0 s) as H.
  destruct (workers (pool (spawn_loop (size (pool s)) 0 s))); exact H.
Qed.

Lemma pview_handleError w s : pview (_handleError w s) = pview s.
Proof.
  unfold _handleError. destruct (indexOf (workers (pool s)) w); [|reflexivity].
  unfold pview. simpl. rewrite settled_app. simpl. now rewrite app_nil_r.
Qed.

Lemma post_exit_same ws : forall s,
  pool (post_exit ws s) = pool s /\ heap (post_exit ws s) = heap s
  /\ start_awaits (post_exit ws s) = start_awaits s
  /\ respawn_awaits (post_exit ws s) = respawn_awaits s
  /\ next_promise (post_exit ws s) = next_promise s
  /\ settled (log (post_exit ws s)) = settled (log s).
Proof.
  induction ws as [|w ws IH]; intros s; [repeat split|].
  simpl. destruct (IH (emit s (Posted w ExitCmd))) as (H1 & H2 & H3 & H4 & H5 & H6).
  rewrite H1, H2, H3, H4, H5, H6. simpl. rewrite settled_app. simpl.
  rewrite app_nil_r. repeat split.
Qed.

Lemma pview_shutdown s : pview (shutdown s) = pview s.
Proof.
  unfold shutdown, pview.
  destruct (post_exit_same (workers (pool s)) s) as (H1 & _ & _ & _ & H5 & H6).
  now rewrite H1, H5, H6.
Qed.

Lemma respawn_awaits_update_obj w f s :
  respawn_awaits (update_obj w f s) = respawn_awaits s.
Proof. unfold update_obj. destruct (heap s !! w); reflexivity. Qed.

(** What a turn does to the promises: a pending promise is settled exactly
    by a handler that ends with [_checkDone()] and leaves the queue empty and
    no job in flight. *)
Lemma pview_handle s i :
  i <> WaitUntilDone ->
  pview (handle s i)
  = match _resolveAllDone (pool s) with
    | Some r =>
        if checks_done s i && all_done (handle s i)
        then (settled (log s) ++ [r], next_promise s, None)
        else pview s
    | None => pview s
    end.
Proof.
  intros Hi.
  assert (Hsame : forall x b, x = pview s ->
            x = match _resolveAllDone (pool s) with
                | Some r => if false && b
                            then (settled (log s) ++ [r], next_promise s, None)
                            else pview s
                | None => pview s end).
  { intros x b ->. destruct (_resolveAllDone (pool s)); reflexivity. }
  destruct i as [|novels| |w [|t c n|sl r]|w|w code|]; cbn [handle checks_done].
  - apply Hsame, pview_start.
  - apply Hsame. unfold enqueue. now rewrite pview_dispatch.
  - contradiction.
  - set (s0 := update_obj w set_loaded s).
    assert (Hv0 : pview s0 = pview s) by apply pview_update_obj.
    assert (Hr0 : respawn_awaits s0 = respawn_awaits s) by apply respawn_awaits_update_obj.
    unfold on_ready.
    set (s1 := match start_awaits s0 with
               | Some (x :: l) => _
               | _ => s0 end).
    assert (H1 : pview s1 = pview s0 /\ respawn_awaits s1 = respawn_awaits s0).
    { unfold s1. destruct (start_awaits s0) as [[|x l]|]; auto.
      destruct (bool_decide _); auto.
      destruct (List.filter _ _); auto. }
    destruct H1 as [Hv1 Hr1]. cbn [_handleMessage]. rewrite Hr1, Hr0.
    destruct (bool_decide (w ∈ respawn_awaits s)) eqn:Ew.
    + apply pview_back_to_idle. rewrite <- Hv0, <- Hv1. reflexivity.
    + apply Hsame. now rewrite Hv1.
  - now apply Hsame.
  - cbn [_handleMessage andb]. apply pview_back_to_idle.
    rewrite <- (pview_update_obj w answer s). reflexivity.
  - apply Hsame. now rewrite pview_handleError, pview_update_obj.
  - apply Hsame, pview_update_obj.
  - apply Hsame, pview_shutdown.
Qed.

Lemma pview_waitUntilDone s :
  pview (snd (waitUntilDone s))
  = if all_done s
    then (settled (log s) ++ [next_promise s], S (next_promise s),
          _resolveAllDone (pool s))
    else (settled (log s), S (next_promise s), Some (next_promise s)).
Proof.
  unfold waitUntilDone, all_done. destruct (_ && _); unfold pview; simpl;
    [now rewrite settled_app | reflexivity].
Qed.

Lemma promises_ok_handle s i : promises_ok s -> promises_ok (handle s i).
Proof.
  intros (Hlt & Hnd & Hres).
  assert (Hcase : i = WaitUntilDone \/ i <> WaitUntilDone)
    by (destruct i; (now left) || (right; discriminate)).
  destruct Hcase as [->|Hi].
  - pose proof (pview_waitUntilDone s) as Hv. unfold promises_ok. simpl.
    unfold pview in Hv. destruct (all_done s); injection Hv as -> -> ->.
    + split; [|split].
      * intros p [Hp|Hp]%elem_of_app; [apply Hlt in Hp; lia|].
        apply list_elem_of_singleton in Hp. lia.
      * apply NoDup_app. split; [exact Hnd|]. split; [|apply NoDup_singleton].
        intros p Hp ->%list_elem_of_singleton. apply Hlt in Hp. lia.
      * intros p Hp. destruct (Hres p Hp) as [H1 H2]. split; [lia|].
        intros [H|H]%elem_of_app; [contradiction|].
        apply list_elem_of_singleton in H. lia.
    + split; [|split].
      * intros p Hp. apply Hlt in Hp. lia.
      * exact Hnd.
      * intros p [= <-]. split; [lia|]. intros Hp. apply Hlt in Hp. lia.
  - pose proof (pview_handle s i Hi) as Hv.
    destruct (_resolveAllDone (pool s)) as [r|] eqn:Er.
    2:{ eapply promises_ok_view; [exact Hv|]. unfold promises_ok. rewrite Er. auto. }
    destruct (checks_done s i && all_done (handle s i)).
    2:{ eapply promises_ok_view; [exact Hv|]. unfold promises_ok. rewrite Er. auto. }
    destruct (Hres r eq_refl) as [Hr1 Hr2].
    unfold pview in Hv. injection Hv as Hl Hn Hr. unfold promises_ok.
    rewrite Hl, Hn, Hr. split; [|split].
    + intros p [Hp|Hp]%elem_of_app; [now apply Hlt|].
      apply list_elem_of_singleton in Hp. now subst.
    + apply NoDup_app. split; [exact Hnd|]. split; [|apply NoDup_singleton].
      intros p Hp ->%list_elem_of_singleton. contradiction.
    + discriminate.
Qed.

Lemma run_app s : forall is1 is2,
  run s (is1 ++ is2) = match run s is1 with Some s' => run s' is2 | None => None end.
Proof.
  intros is1. revert s. induction is1 as [|i is1 IH]; intros s is2; [reflexivity|].
  simpl. destruct (step s i); [apply IH | reflexivity].
Qed.

(** Induction on the turns that lead to a state. *)
Lemma reachable_ind (n : nat) (P : State -> Prop) :
  P (init n) ->
  (forall s i, reachable n s -> P s -> enabled s i = true -> P (handle s i)) ->
  forall s, reachable n s -> P s.
Proof.
  intros H0 Hstep s [inputs Hrun]. revert s Hrun.
  induction inputs as [|i inputs IH] using rev_ind; intros s Hrun.
  - injection Hrun as <-. exact H0.
  - rewrite run_app in Hrun. destruct (run (init n) inputs) as [s1|] eqn:E1;
      [|discriminate].
    simpl in Hrun. unfold step in Hrun. destruct (enabled s1 i) eqn:Een; [|discriminate].
    injection Hrun as <-. apply Hstep; [now exists inputs | now apply IH | exact Een].
Qed.

Lemma reachable_promises_ok n s : reachable n s -> promises_ok s.
Proof.
  apply reachable_ind.
  - unfold promises_ok. simpl. repeat split; try constructor; try discriminate;
      intros p Hp; inversion Hp.
  - intros s' i _ H _. now apply promises_ok_handle.
Qed.

Lemma settled_handle_grows s i :
  exists l, settled (log (handle s i)) = settled (log s) ++ l.
Proof.
  assert (Hcase : i = WaitUntilDone \/ i <> WaitUntilDone)
    by (destruct i; (now left) || (right; discriminate)).
  destruct Hcase as [->|Hi].
  - pose proof (pview_waitUntilDone s) as Hv. simpl. unfold pview in Hv.
    destruct (all_done s); injection Hv as -> _ _; [eauto|].
    exists []. now rewrite app_nil_r.
  - pose proof (pview_handle s i Hi) as Hv. unfold pview in Hv.
    destruct (_resolveAllDone (pool s)) as [r|].
    + destruct (_ && _); injection Hv as -> _ _; [eauto|].
      exists []. now rewrite app_nil_r.
    + injection Hv as -> _ _. exists []. now rewrite app_nil_r.
Qed.

Lemma settled_run_grows inputs : forall s s',
  run s inputs = Some s' -> exists l, settled (log s') = settled (log s) ++ l.
Proof.
  induction inputs as [|i inputs IH]; intros s s' Hrun.
  - injection Hrun as <-. exists []. now rewrite app_nil_r.
  - simpl in Hrun. unfold step in Hrun. destruct (enabled s i); [|discriminate].
    destruct (IH _ _ Hrun) as [l2 H2]. destruct (settled_handle_grows s i) as [l1 H1].
    exists (l1 ++ l2). now rewrite H2, H1, app_assoc.
Qed.

(** A pending promise is settled by the first turn that ends with
    [_checkDone()] and leaves nothing to do, and by no other. *)
Lemma pending_settles inputs : forall s s' p,
  promises_ok s ->
  _resolveAllDone (pool s) = Some p ->
  WaitUntilDone ∉ inputs ->
  run s inputs = Some s' ->
  (p ∈ settled (log s') <-> settles_during s inputs = true).
Proof.
  induction inputs as [|i inputs IH]; intros s s' p Hok Hp Hno Hrun.
  - injection Hrun as <-. simpl. destruct Hok as (_ & _ & Hres).
    destruct (Hres p Hp) as [_ Hnot]. split; [contradiction | discriminate].
  - simpl in Hrun. unfold step in Hrun. destruct (enabled s i); [|discriminate].
    assert (Hi : i <> WaitUntilDone) by (intros ->; apply Hno; left).
    assert (Hno' : WaitUntilDone ∉ inputs) by (intros H; apply Hno; now right).
    pose proof (pview_handle s i Hi) as Hv. rewrite Hp in Hv.
    cbn [settles_during]. destruct (checks_done s i && all_done (handle s i)).
    + unfold pview in Hv. injection Hv as Hl _ _. simpl. split; [reflexivity|].
      intros _. destruct (settled_run_grows _ _ _ Hrun) as [l ->].
      rewrite Hl. rewrite !elem_of_app. left. right. left.
    + simpl. apply (IH (handle s i)); [now apply promises_ok_handle| |exact Hno'|exact Hrun].
      destruct (pview_parts _ _ Hv) as (_ & _ & ->). exact Hp.
Qed.

End PoolFacts.

Section PoolInvariant.
Import Pool.

Ltac inv_trivial :=
  simpl; intros; try lia; try congruence; try easy;
  try match goal with H : _ ∈ [] |- _ => inversion H end;
  try match goal with H : [] !! _ = Some _ |- _ => discriminate H end;
  try solve [repeat split; try constructor; try lia; try congruence].

Lemma invariant_init n : invariant (init n).
Proof.
  constructor; simpl; intros; try lia; try discriminate; try easy;
    repeat split; try constructor.
Qed.

Lemma spawn_loop_spec n : forall i s,
  heap (spawn_loop n i s)
  = heap s ++ List.map (fun k => mkObj (k + 1) false false 0 false) (seq i n)
  /\ workers (pool (spawn_loop n i s)) = workers (pool s) ++ seq (length (heap s)) n
  /\ size (pool (spawn_loop n i s)) = size (pool s)
  /\ idle (pool (spawn_loop n i s)) = idle (pool s)
  /\ queue (pool (spawn_loop n i s)) = queue (pool s)
  /\ stats (pool (spawn_loop n i s)) = stats (pool s)
  /\ start_awaits (spawn_loop n i s) = start_awaits s
  /\ respawn_awaits (spawn_loop n i s) = respawn_awaits s.
Proof.
  induction n as [|n IH]; intros i s.
  - simpl. rewrite !app_nil_r. repeat split.
  - cbn [spawn_loop spawn]. cbv zeta.
    match goal with |- context [spawn_loop n (S i) ?x] =>
      destruct (IH (S i) x) as (H1 & H2 & H3 & H4 & H5 & H6 & H7 & H8) end.
    rewrite H1, H2, H3, H4, H5, H6, H7, H8. simpl.
    rewrite length_app, <- !app_assoc. simpl. rewrite !Nat.add_1_r.
    repeat split.
Qed.

Lemma lookup_fresh_objs (n w : nat) o :
  List.map (fun k => mkObj (k + 1) false false 0 false) (seq 0 n) !! w = Some o ->
  w < n /\ o = mkObj (w + 1) false false 0 false.
Proof.
  intros H. change (List.map ?f ?l) with (f <$> l) in H.
  rewrite list_lookup_fmap in H.
  destruct (seq 0 n !! w) as [k|] eqn:E; [|discriminate].
  apply lookup_seq in E as [-> Hlt]. simpl in H. split; [exact Hlt | congruence].
Qed.

Lemma invariant_start s :
  invariant s -> start_awaits s = None -> invariant (start s).
Proof.
  intros HI Hnone. destruct (inv_fresh s HI Hnone) as (Hheap & Hidle & Hresp).
  pose proof (inv_size s HI) as Hsize. rewrite Hnone in Hsize.
  apply nil_length_inv in Hsize.
  pose proof (inv_count s HI) as Hcount. unfold started in Hcount.
  rewrite Hnone, Hidle, Hresp in Hcount. simpl in Hcount.
  pose proof (inv_before s HI) as Hbefore. unfold started in Hbefore.
  rewrite Hnone in Hbefore. destruct (Hbefore eq_refl) as [Hq _].
  destruct (spawn_loop_spec (size (pool s)) 0 s)
    as (H1 & H2 & H3 & H4 & H5 & H6 & H7 & H8).
  rewrite Hheap in H1, H2. rewrite Hsize in H2. simpl in H1, H2.
  rewrite Hidle in H4. rewrite Hq in H5. rewrite Hresp in H8.
  unfold start. set (s1 := spawn_loop (size (pool s)) 0 s) in *.
  destruct (size (pool s)) as [|n] eqn:En.
  - simpl in H1, H2. rewrite H2.
    constructor; unfold started; simpl; rewrite ?H1, ?H2, ?H3, ?H4, ?H5, ?H6, ?H8;
      inv_trivial.
  - rewrite H2. cbn [seq].
    assert (Hall : forall w o, heap s1 !! w = Some o ->
              w < S n /\ o = mkObj (w + 1) false false 0 false).
    { intros w o Hw. rewrite H1 in Hw. now apply lookup_fresh_objs in Hw. }
    constructor; unfold started; simpl; rewrite ?H2, ?H3, ?H4, ?H5, ?H6, ?H8;
      simpl; try lia; try tauto; try discriminate.
    + rewrite length_seq. lia.
    + intros _. split; [reflexivity|]. apply Forall_forall. intros o Ho.
      apply list_elem_of_lookup in Ho as [w Hw]. apply Hall in Hw as [_ ->]. auto.
    + intros w Hw. inversion Hw.
    + constructor.
    + intros w Hw. inversion Hw.
    + apply Forall_forall. intros o Ho.
      apply list_elem_of_lookup in Ho as [w Hw]. apply Hall in Hw as [_ ->].
      simpl. lia.
    + intros w o Hw _. apply Hall in Hw as [Hlt _].
      change (0 :: seq 1 n) with (seq 0 (S n)). apply elem_of_seq. lia.
    + intros l [= <-] _. right. split; [|split; [reflexivity|split; [reflexivity|]]].
      * rewrite H1. change (List.map ?f ?l) with (f <$> l).
        rewrite length_fmap, length_seq. reflexivity.
      * intros w o Hw Hnot. apply Hall in Hw as [Hlt ->]. exfalso. apply Hnot.
        change (0 :: seq 1 n) with (seq 0 (S n)). apply elem_of_seq. lia.
Qed.

Lemma lookup_insert_obj (hp : list WorkerObj) w x w' o' :
  <[w := x]> hp !! w' = Some o' ->
  (w' = w /\ o' = x /\ w < length hp) \/ (w' <> w /\ hp !! w' = Some o').
Proof.
  rewrite list_lookup_insert. destruct (decide _) as [[-> Hlt]|Hn].
  - intros [= <-]. auto.
  - intros H. destruct (decide (w' = w)) as [->|Hne]; [|auto].
    exfalso. apply Hn. split; [reflexivity|]. now apply lookup_lt_Some in H.
Qed.

Lemma started_queue s : invariant s -> queue (pool s) <> [] -> started s = true.
Proof.
  intros HI Hq. destruct (started s) eqn:E; [reflexivity|].
  destruct (inv_before s HI E) as [H _]. contradiction.
Qed.

Lemma started_awaits s : started s = true -> start_awaits s = Some [].
Proof.
  unfold started. destruct (start_awaits s) as [[|x l]|]; try discriminate. reflexivity.
Qed.

(** One iteration of the loop of [_dispatch] keeps the invariant. *)
Lemma invariant_post s w idle' novel queue' :
  invariant s ->
  idle (pool s) = w :: idle' -> queue (pool s) = novel :: queue' ->
  invariant
    (post_download
       (with_pool s (mkPool (size (pool s)) (workers (pool s)) idle' queue'
                       (add_inProgress (stats (pool s)) 1)
                       (totalQueued (pool s)) (_resolveAllDone (pool s))))
       w novel).
Proof.
  intros HI Hidle Hqueue.
  assert (Hst : started s = true) by (apply started_queue; [exact HI | congruence]).
  pose proof (started_awaits s Hst) as Haw.
  destruct (inv_idle s HI w) as (o & Ho & Hhold & Hload); [rewrite Hidle; left|].
  pose proof (inv_idle_nodup s HI) as Hnd. rewrite Hidle in Hnd.
  apply NoDup_cons in Hnd as [Hnotin Hnd].
  unfold post_download. cbn [with_pool heap]. rewrite Ho.
  set (o' := mkObj (_id o) (ended o) (loaded o) (S (holding o)) true).
  constructor; unfold started; cbn [emit with_heap with_pool pool heap start_awaits
    respawn_awaits idle queue workers stats size inProgress add_inProgress].
  - pose proof (inv_count s HI) as H. rewrite Hst, Hidle in H.
    rewrite Haw. cbn [length] in H. lia.
  - pose proof (inv_size s HI) as H. exact H.
  - rewrite Haw. discriminate.
  - rewrite Haw. discriminate.
  - intros w' Hw'. destruct (inv_idle s HI w') as (o2 & Ho2 & H2);
      [rewrite Hidle; now right|].
    exists o2. split; [|exact H2]. rewrite list_lookup_insert_ne; [exact Ho2|].
    intros ->. contradiction.
  - exact Hnd.
  - intros w' Hw'. destruct (inv_respawn s HI w' Hw') as ((o2 & Ho2 & H2) & H3).
    rewrite Hidle in H3. split.
    + exists o2. split; [|auto]. rewrite list_lookup_insert_ne; [exact Ho2|].
      intros ->. apply H3. left.
    + intros Hin. apply H3. now right.
  - apply Forall_insert; [exact (inv_holding s HI)|]. unfold o'. simpl. lia.
  - intros w' o2 Hw' Hcr. apply lookup_insert_obj in Hw' as [(-> & -> & _)|[_ Hw']].
    + apply (inv_members s HI w o Ho). exact Hcr.
    + apply (inv_members s HI w' o2 Hw' Hcr).
  - rewrite Haw. intros l [= <-] Hl. contradiction.
Qed.

Lemma invariant_dispatch s : invariant s -> invariant (_dispatch s).
Proof.
  apply dispatch_loop_ind. intros s' w idle' novel queue' Hi Hq HI.
  now apply invariant_post.
Qed.

(** The invariant does not look at the promises, the log, the statistics
    other than the number of jobs in flight, and [totalQueued]. *)
Lemma invariant_same s s' :
  inProgress (stats (pool s')) = inProgress (stats (pool s)) ->
  idle (pool s') = idle (pool s) -> queue (pool s') = queue (pool s) ->
  workers (pool s') = workers (pool s) -> size (pool s') = size (pool s) ->
  heap s' = heap s -> start_awaits s' = start_awaits s ->
  respawn_awaits s' = respawn_awaits s ->
  invariant s -> invariant s'.
Proof.
  intros H1 H2 H3 H4 H5 H6 H7 H8 [I1 I2 I3 I4 I5 I6 I7 I8 I9 I10].
  constructor; unfold started in *; rewrite ?H1, ?H2, ?H3, ?H4, ?H5, ?H6, ?H7, ?H8;
    assumption.
Qed.

Lemma invariant_checkDone s : invariant s -> invariant (_checkDone s).
Proof.
  unfold _checkDone. destruct (_resolveAllDone (pool s)); [|tauto].
  destruct (_ && _); [|tauto]. now apply invariant_same.
Qed.

Lemma invariant_waitUntilDone s : invariant s -> invariant (snd (waitUntilDone s)).
Proof.
  unfold waitUntilDone. destruct (_ && _); now apply invariant_same.
Qed.

Lemma invariant_enqueue novels s :
  invariant s -> started s = true -> invariant (enqueue novels s).
Proof.
  intros HI Hst. unfold enqueue. apply invariant_dispatch.
  pose proof (started_awaits s Hst) as Haw.
  destruct HI as [I1 I2 I3 I4 I5 I6 I7 I8 I9 I10].
  constructor; unfold started in *; cbn [with_pool pool heap start_awaits
    respawn_awaits idle queue workers stats size] in *; try assumption.
  rewrite Haw. discriminate.
Qed.

Lemma heap_update_obj w f s o :
  heap s !! w = Some o -> update_obj w f s = with_heap s (<[w := f o]> (heap s)).
Proof. intros H. unfold update_obj. now rewrite H. Qed.

Lemma lookup_holding_le s w o : invariant s -> heap s !! w = Some o -> holding o <= 1.
Proof.
  intros HI Ho. pose proof (inv_holding s HI) as H. rewrite Forall_forall in H.
  apply H. apply list_elem_of_lookup. eauto.
Qed.

Lemma started_holding s w o :
  invariant s -> heap s !! w = Some o -> 1 <= holding o \/ served o = true ->
  started s = true.
Proof.
  intros HI Ho Hh. destruct (started s) eqn:E; [reflexivity|].
  destruct (inv_before s HI E) as [_ H]. rewrite Forall_forall in H.
  destruct (H o) as [H1 H2]; [apply list_elem_of_lookup; eauto|].
  destruct Hh; [lia | congruence].
Qed.

(** An idle worker comes back: [this.idle.push(worker)]. *)
Lemma invariant_push s w o st :
  invariant s ->
  heap s !! w = Some o -> holding o = 0 -> loaded o = true ->
  w ∉ idle (pool s) -> w ∉ respawn_awaits s ->
  (inProgress st + 1 + Z.of_nat (length (idle (pool s)))
   + Z.of_nat (length (respawn_awaits s))
   <= if started s then Z.of_nat (length (workers (pool s))) else 0)%Z ->
  (forall l, start_awaits s = Some l -> l <> [] ->
     exists x ox, x ∈ l /\ heap s !! x = Some ox /\ ended ox = true) ->
  invariant (with_pool s (mkPool (size (pool s)) (workers (pool s))
                            (idle (pool s) ++ [w]) (queue (pool s)) st
                            (totalQueued (pool s)) (_resolveAllDone (pool s)))).
Proof.
  intros [I1 I2 I3 I4 I5 I6 I7 I8 I9 I10] Ho Hh Hl Hni Hnr Hc Hstuck.
  constructor; unfold started in *; cbn [with_pool pool heap start_awaits
    respawn_awaits idle queue workers stats size] in *; try assumption.
  - rewrite length_app. cbn [length]. lia.
  - intros Hn. destruct (I3 Hn) as (Hheap & _). rewrite Hheap in Ho. discriminate.
  - intros w' [Hw'|Hw']%elem_of_app; [now apply I5|].
    apply list_elem_of_singleton in Hw' as ->. eauto.
  - apply NoDup_app. split; [exact I6|]. split; [|apply NoDup_singleton].
    intros x Hx ->%list_elem_of_singleton. contradiction.
  - intros w' Hw'. destruct (I7 w' Hw') as [H1 H2]. split; [exact H1|].
    intros [H|H]%elem_of_app; [contradiction|].
    apply list_elem_of_singleton in H as ->. contradiction.
  - intros l Hl' Hne. left. now apply Hstuck.
Qed.

Lemma result_stats (r : Job.JobResult) (st : Stats) :
  inProgress
    (let st1 := add_inProgress st (-1) in
     if Job.success r
     then mkStats (succeeded st1 + 1) (failed st1) (skipped st1) (inProgress st1)
     else if Job.skipped r
     then mkStats (succeeded st1) (failed st1) (skipped st1 + 1) (inProgress st1)
     else mkStats (succeeded st1) (failed st1 + 1) (skipped st1) (inProgress st1))
  = (inProgress st - 1)%Z.
Proof. cbv zeta. destruct (Job.success r), (Job.skipped r); simpl; lia. Qed.

(** A worker answers a job. *)
Lemma invariant_answer s w o :
  invariant s -> heap s !! w = Some o -> 1 <= holding o ->
  invariant (update_obj w answer s)
  /\ heap (update_obj w answer s) !! w = Some (answer o)
  /\ holding (answer o) = 0
  /\ (w ∉ idle (pool s)) /\ (w ∉ respawn_awaits s)
  /\ started s = true.
Proof.
  intros HI Ho Hh. pose proof (lookup_holding_le s w o HI Ho) as Hle.
  assert (Hst : started s = true) by (eapply started_holding; eauto).
  assert (Hni : w ∉ idle (pool s)).
  { intros Hin. destruct (inv_idle s HI w Hin) as (o2 & Ho2 & H0 & _).
    rewrite Ho in Ho2. injection Ho2 as <-. lia. }
  assert (Hnr : w ∉ respawn_awaits s).
  { intros Hin. destruct (inv_respawn s HI w Hin) as ((o2 & Ho2 & H0) & _).
    rewrite Ho in Ho2. injection Ho2 as <-. lia. }
  rewrite (heap_update_obj w answer s o Ho).
  split; [|split; [|split; [|auto]]].
  - destruct HI as [I1 I2 I3 I4 I5 I6 I7 I8 I9 I10].
    constructor; unfold started in *; cbn [with_heap pool heap start_awaits
      respawn_awaits] in *; try assumption.
    + intros Hn. destruct (I3 Hn) as (Hheap & _). rewrite Hheap in Ho. discriminate.
    + rewrite Hst. discriminate.
    + intros w' Hw'. destruct (I5 w' Hw') as (o2 & Ho2 & H2). exists o2.
      split; [|exact H2]. rewrite list_lookup_insert_ne; [exact Ho2|].
      intros ->. contradiction.
    + intros w' Hw'. destruct (I7 w' Hw') as [(o2 & Ho2 & H2) H3]. split; [|exact H3].
      exists o2. split; [|exact H2]. rewrite list_lookup_insert_ne; [exact Ho2|].
      intros ->. contradiction.
    + apply Forall_insert; [exact I8|]. simpl. lia.
    + intros w' o2 Hw' Hcr. apply lookup_insert_obj in Hw' as [(-> & -> & _)|[_ Hw']].
      * apply (I9 w o Ho). exact Hcr.
      * apply (I9 w' o2 Hw' Hcr).
    + intros l Hl Hne. apply started_awaits in Hst. congruence.
  - cbn [with_heap heap]. apply list_lookup_insert_eq. now apply lookup_lt_Some in Ho.
  - simpl. lia.
Qed.

Lemma invariant_result s w sl r :
  invariant s -> enabled s (Message w (Result sl r)) = true ->
  invariant (handle s (Message w (Result sl r))).
Proof.
  intros HI Hen. cbn [enabled] in Hen.
  destruct (heap s !! w) as [o|] eqn:Ho; [|discriminate].
  apply andb_prop in Hen as [Hen Hh]. apply andb_prop in Hen as [Hcr Hl].
  apply Nat.leb_le in Hh.
  destruct (invariant_answer s w o HI Ho Hh) as (HI0 & Ho0 & Hh0 & Hni & Hnr & Hst).
  cbn [handle _handleMessage]. cbv zeta. unfold back_to_idle.
  apply invariant_checkDone, invariant_dispatch.
  set (s0 := update_obj w answer s) in *.
  match goal with |- invariant (with_pool (with_pool s0 (with_stats _ ?st)) _) =>
    set (st' := st) end.
  assert (Hip : inProgress st' = (inProgress (stats (pool s0)) - 1)%Z)
    by apply result_stats.
  assert (Hsame : pool s0 = pool s /\ start_awaits s0 = start_awaits s
                  /\ respawn_awaits s0 = respawn_awaits s).
  { unfold s0. rewrite (heap_update_obj w answer s o Ho). auto. }
  destruct Hsame as (Hp & Hsa & Hra).
  assert (Hl0 : loaded (answer o) = true) by exact Hl.
  assert (Hni0 : w ∉ idle (pool s0)) by (now rewrite Hp).
  assert (Hnr0 : w ∉ respawn_awaits s0) by (now rewrite Hra).
  assert (Hc0 : (inProgress st' + 1 + Z.of_nat (length (idle (pool s0)))
                 + Z.of_nat (length (respawn_awaits s0))
                 <= if started s0 then Z.of_nat (length (workers (pool s0))) else 0)%Z).
  { rewrite Hip. pose proof (inv_count s0 HI0) as Hc. lia. }
  assert (Hs0 : forall l, start_awaits s0 = Some l -> l <> [] ->
                  exists x ox, x ∈ l /\ heap s0 !! x = Some ox /\ ended ox = true).
  { intros l Hl' Hne. unfold started in Hst. rewrite <- Hsa in Hst. rewrite Hl' in Hst.
    destruct l; [contradiction | discriminate]. }
  exact (invariant_push s0 w (answer o) st' HI0 Ho0 Hh0 Hl0 Hni0 Hnr0 Hc0 Hs0).
Qed.

Lemma elem_of_remove (w x : nat) (l : list nat) :
  x ∈ List.filter (fun y => negb (y =? w)) l <-> x ∈ l /\ x <> w.
Proof.
  rewrite !list_elem_of_In, filter_In, negb_true_iff, Nat.eqb_neq. tauto.
Qed.

Lemma length_remove (w : nat) (l : list nat) :
  w ∈ l -> length (List.filter (fun y => negb (y =? w)) l) < length l.
Proof.
  induction l as [|x l IH]; intros Hin; [inversion Hin|].
  simpl. destruct (x =? w) eqn:E; simpl.
  - pose proof (filter_length_le (fun y => negb (y =? w)) l). lia.
  - apply elem_of_cons in Hin as [->|Hin]; [rewrite Nat.eqb_refl in E; discriminate|].
    apply IH in Hin. lia.
Qed.

(** The thread of worker [w] has loaded its module. *)
Lemma invariant_loaded s w o :
  invariant s -> heap s !! w = Some o -> ended o = false ->
  invariant (update_obj w set_loaded s).
Proof.
  intros HI Ho Hcr. rewrite (heap_update_obj w set_loaded s o Ho).
  destruct HI as [I1 I2 I3 I4 I5 I6 I7 I8 I9 I10].
  constructor; unfold started in *; cbn [with_heap pool heap start_awaits
    respawn_awaits] in *; try assumption.
  - intros Hn. destruct (I3 Hn) as (Hheap & _). rewrite Hheap in Ho. discriminate.
  - intros Hs. destruct (I4 Hs) as [Hq Hall]. split; [exact Hq|].
    apply Forall_insert; [exact Hall|]. rewrite Forall_forall in Hall.
    apply (Hall o). apply list_elem_of_lookup. eauto.
  - intros w' Hw'. destruct (I5 w' Hw') as (o2 & Ho2 & H2 & H3).
    destruct (decide (w' = w)) as [->|Hne].
    + exists (set_loaded o). rewrite Ho in Ho2. injection Ho2 as <-.
      split; [|auto]. apply list_lookup_insert_eq. now apply lookup_lt_Some in Ho.
    + exists o2. split; [|auto]. now rewrite list_lookup_insert_ne.
  - intros w' Hw'. destruct (I7 w' Hw') as [(o2 & Ho2 & H2) H3]. split; [|exact H3].
    destruct (decide (w' = w)) as [->|Hne].
    + exists (set_loaded o). rewrite Ho in Ho2. injection Ho2 as <-.
      split; [|auto]. apply list_lookup_insert_eq. now apply lookup_lt_Some in Ho.
    + exists o2. split; [|auto]. now rewrite list_lookup_insert_ne.
  - apply Forall_insert; [exact I8|]. rewrite Forall_forall in I8.
    apply (I8 o). apply list_elem_of_lookup. eauto.
  - intros w' o2 Hw' Hc2. apply lookup_insert_obj in Hw' as [(-> & -> & _)|[_ Hw']].
    + apply (I9 w o Ho Hcr).
    + apply (I9 w' o2 Hw' Hc2).
  - intros l Hl Hne. rewrite length_insert.
    destruct (I10 l Hl Hne) as [(x & ox & Hx & Hox & Hcx)|(Hw & Hr & Hi & Hload)].
    + left. exists x, ox. split; [exact Hx|]. split; [|exact Hcx].
      rewrite list_lookup_insert_ne; [exact Hox|]. intros ->. congruence.
    + right. repeat split; try assumption.
      intros w' o2 Hw' Hnot. apply lookup_insert_obj in Hw' as [(-> & -> & _)|[_ Hw']].
      * reflexivity.
      * now apply (Hload w' o2).
Qed.

(** The listener of [start()] hears the [ready] message of [w]. *)
Lemma invariant_start_listener s w o x l :
  invariant s -> heap s !! w = Some o -> ended o = false -> loaded o = true ->
  start_awaits s = Some (x :: l) ->
  invariant
    (let rest := List.filter (fun y => negb (y =? w)) (x :: l) in
     let s' := mkState (pool s) (heap s) (Some rest) (respawn_awaits s)
                       (next_promise s) (log s) in
     match rest with
     | [] => start_resume s'
     | _ :: _ => s'
     end).
Proof.
  intros HI Ho Hcr Hld Haw. cbv zeta.
  pose proof (inv_starting s HI (x :: l) Haw) as Hstart.
  destruct Hstart as [(y & oy & Hy & Hoy & Hcy)|(Hw & Hr & Hi & Hload)]; [discriminate| |].
  - (* start() will never resolve *)
    assert (Hin : y ∈ List.filter (fun z => negb (z =? w)) (x :: l)).
    { apply elem_of_remove. split; [exact Hy|]. intros ->. congruence. }
    destruct (List.filter (fun z => negb (z =? w)) (x :: l)) as [|z rest] eqn:E;
      [inversion Hin|].
    destruct HI as [I1 I2 I3 I4 I5 I6 I7 I8 I9 I10].
    constructor; unfold started in *; cbn [pool heap start_awaits respawn_awaits] in *;
      rewrite ?Haw in *; try assumption; try discriminate.
    intros l' [= <-] _. left. eauto.
  - destruct (List.filter (fun z => negb (z =? w)) (x :: l)) as [|z rest] eqn:E.
    + (* the last one: start() resumes *)
      assert (Hall : forall w' o', heap s !! w' = Some o' -> loaded o' = true).
      { intros w' o' Ho'. destruct (decide (w' ∈ x :: l)) as [Hin|Hnot].
        - destruct (decide (w' = w)) as [->|Hne]; [congruence|].
          assert (H : w' ∈ List.filter (fun z => negb (z =? w)) (x :: l))
            by (apply elem_of_remove; auto).
          rewrite E in H. inversion H.
        - now apply (Hload w' o'). }
      pose proof (inv_count s HI) as Hc. unfold started in Hc. rewrite Haw, Hr, Hi in Hc.
      simpl in Hc.
      destruct (inv_before s HI) as [Hq Hzero]; [unfold started; now rewrite Haw|].
      rewrite Forall_forall in Hzero.
      destruct HI as [I1 I2 I3 I4 I5 I6 I7 I8 I9 I10].
      unfold start_resume.
      constructor; unfold started in *; cbn [with_idle pool heap start_awaits
        respawn_awaits idle queue workers stats size] in *;
        rewrite ?Haw, ?Hr in *; try assumption; try discriminate.
      * simpl. lia.
      * intros w' Hw'. rewrite Hw in Hw'. apply elem_of_seq in Hw'.
        destruct (lookup_lt_is_Some_2 (heap s) w') as [o' Ho']; [lia|].
        exists o'. split; [exact Ho'|]. split; [|now apply (Hall w')].
        apply (Hzero o'). apply list_elem_of_lookup. eauto.
      * rewrite Hw. apply NoDup_seq.
      * intros w' Hw'. inversion Hw'.
      * intros l' [= <-] Hne. contradiction.
    + destruct HI as [I1 I2 I3 I4 I5 I6 I7 I8 I9 I10].
      constructor; unfold started in *; cbn [pool heap start_awaits respawn_awaits] in *;
        rewrite ?Haw in *; try assumption; try discriminate.
      intros l' [= <-] _. right. repeat split; try assumption.
      intros w' o' Ho' Hnot. destruct (decide (w' = w)) as [->|Hne]; [congruence|].
      apply (Hload w' o' Ho'). intros Hin. apply Hnot. rewrite <- E.
      apply elem_of_remove. auto.
Qed.

Lemma invariant_ready s w :
  invariant s -> enabled s (Message w Ready) = true ->
  invariant (handle s (Message w Ready)).
Proof.
  intros HI Hen. cbn [enabled] in Hen.
  destruct (heap s !! w) as [o|] eqn:Ho; [|discriminate].
  apply andb_prop in Hen as [Hcr Hl]. apply negb_true_iff in Hcr, Hl.
  pose proof (invariant_loaded s w o HI Ho Hcr) as HI0.
  cbn [handle]. set (s0 := update_obj w set_loaded s) in *.
  assert (Ho0 : heap s0 !! w = Some (set_loaded o)).
  { unfold s0. rewrite (heap_update_obj w set_loaded s o Ho). cbn [with_heap heap].
    apply list_lookup_insert_eq. now apply lookup_lt_Some in Ho. }
  unfold on_ready.
  set (s1 := match start_awaits s0 with
             | Some (x :: l) => _
             | _ => s0 end).
  assert (H1 : invariant s1 /\ heap s1 = heap s0).
  { unfold s1. destruct (start_awaits s0) as [[|x l]|] eqn:Haw; auto.
    destruct (bool_decide (w ∈ x :: l)); auto. split.
    - apply (invariant_start_listener s0 w (set_loaded o) x l HI0 Ho0); auto.
    - destruct (List.filter _ _); reflexivity. }
  destruct H1 as [HI1 Hheap1]. cbn [_handleMessage].
  destruct (bool_decide (w ∈ respawn_awaits s1)) eqn:Ew; [|exact HI1].
  apply bool_decide_eq_true in Ew.
  unfold back_to_idle. apply invariant_checkDone, invariant_dispatch.
  destruct (inv_respawn s1 HI1 w Ew) as [(o1 & Ho1 & Hh1) Hni].
  rewrite Hheap1, Ho0 in Ho1. injection Ho1 as <-.
  set (s2 := mkState (pool s1) (heap s1) (start_awaits s1)
               (List.filter (fun y => negb (y =? w)) (respawn_awaits s1))
               (next_promise s1) (log s1)).
  pose proof (length_remove w (respawn_awaits s1) Ew) as Hlen.
  assert (HI2 : invariant s2).
  { destruct HI1 as [I1 I2 I3 I4 I5 I6 I7 I8 I9 I10].
    constructor; unfold started in *; cbn [s2 pool heap start_awaits respawn_awaits] in *;
      try assumption.
    - destruct (start_awaits s1) as [[|]|]; lia.
    - intros Hn. destruct (I3 Hn) as (H & _). rewrite <- Hheap1, H in Ho0. discriminate.
    - intros w' [Hw' _]%elem_of_remove. now apply I7.
    - intros l Hl' Hne. destruct (I10 l Hl' Hne) as [Hs|(_ & Hr & _)]; [now left|].
      rewrite Hr in Ew. inversion Ew. }
  assert (Ho2 : heap s2 !! w = Some (set_loaded o)) by (cbn [s2 heap]; now rewrite Hheap1).
  assert (Hnr2 : w ∉ respawn_awaits s2).
  { cbn [s2 respawn_awaits]. rewrite elem_of_remove. tauto. }
  assert (Hc2 : (inProgress (stats (pool s2)) + 1 + Z.of_nat (length (idle (pool s2)))
                 + Z.of_nat (length (respawn_awaits s2))
                 <= if started s2 then Z.of_nat (length (workers (pool s2))) else 0)%Z).
  { pose proof (inv_count s1 HI1) as Hc. unfold started in *.
    cbn [s2 pool start_awaits respawn_awaits]. destruct (start_awaits s1) as [[|]|]; lia. }
  assert (Hs2 : forall l, start_awaits s2 = Some l -> l <> [] ->
                  exists x ox, x ∈ l /\ heap s2 !! x = Some ox /\ ended ox = true).
  { intros l Hl' Hne. destruct (inv_starting s1 HI1 l Hl' Hne) as [Hs|(_ & Hr & _)];
      [exact Hs|].
    rewrite Hr in Ew. inversion Ew. }
  exact (invariant_push s2 w (set_loaded o) (stats (pool s2)) HI2 Ho2 Hh1 eq_refl
           Hni Hnr2 Hc2 Hs2).
Qed.

Lemma indexOf_Some (l : list nat) w :
  w ∈ l -> exists idx, indexOf l w = Some idx /\ l !! idx = Some w.
Proof.
  induction l as [|x l IH]; intros Hin; [inversion Hin|].
  simpl. destruct (x =? w) eqn:E.
  - apply Nat.eqb_eq in E as ->. exists 0. auto.
  - apply elem_of_cons in Hin as [->|Hin]; [rewrite Nat.eqb_refl in E; discriminate|].
    destruct (IH Hin) as (idx & -> & Hidx). exists (S idx). auto.
Qed.

(** What [_handleError] does for a worker of the pool. *)
Lemma handleError_member s w idx o :
  indexOf (workers (pool s)) w = Some idx -> heap s !! w = Some o ->
  _handleError w s
  = mkState
      (mkPool (size (pool s)) (<[idx := length (heap s)]> (workers (pool s)))
         (idle (pool s)) (queue (pool s))
         (mkStats (succeeded (stats (pool s))) (failed (stats (pool s)) + 1)
            (skipped (stats (pool s))) (inProgress (stats (pool s)) - 1))
         (totalQueued (pool s)) (_resolveAllDone (pool s)))
      (heap s ++ [mkObj (_id o) false false 0 false])
      (start_awaits s) (respawn_awaits s ++ [length (heap s)])
      (next_promise s) (log s ++ [Spawned (length (heap s))]).
Proof. intros Hidx Ho. unfold _handleError. rewrite Hidx, Ho. reflexivity. Qed.

Lemma invariant_error s w :
  invariant s -> enabled s (Error w) = true -> invariant (handle s (Error w)).
Proof.
  intros HI Hen. cbn [enabled] in Hen.
  destruct (heap s !! w) as [o|] eqn:Ho; [|discriminate].
  apply andb_prop in Hen as [Hcr Hrun]. apply negb_true_iff in Hcr.
  destruct (indexOf_Some (workers (pool s)) w (inv_members s HI w o Ho Hcr))
    as (idx & Hidx & Hat).
  cbn [handle]. rewrite (heap_update_obj w set_ended s o Ho).
  assert (Hlt : w < length (heap s)) by (now apply lookup_lt_Some in Ho).
  rewrite (handleError_member _ w idx (set_ended o));
    [|exact Hidx | cbn [with_heap heap]; now apply list_lookup_insert_eq].
  cbn [with_heap pool heap start_awaits respawn_awaits next_promise log set_ended _id].
  rewrite length_insert.
  set (hp := <[w := set_ended o]> (heap s)).
  assert (Hold : forall w' o', hp !! w' = Some o' ->
            exists o2, heap s !! w' = Some o2 /\ holding o' = holding o2
                       /\ served o' = served o2 /\ loaded o' = loaded o2
                       /\ (ended o' = false -> w' <> w /\ ended o2 = false)).
  { intros w' o' H. apply lookup_insert_obj in H as [(-> & -> & _)|[Hne H]].
    - exists o. repeat split; auto; discriminate.
    - exists o'. repeat split; auto. }
  assert (Hkeep : forall w' o2, heap s !! w' = Some o2 ->
            exists o', hp !! w' = Some o' /\ holding o' = holding o2
                       /\ loaded o' = loaded o2
                       /\ (ended o2 = true -> ended o' = true)).
  { intros w' o2 H. destruct (decide (w' = w)) as [->|Hne].
    - exists (set_ended o). rewrite Ho in H. injection H as <-.
      split; [now apply list_lookup_insert_eq|]. auto.
    - exists o2. split; [unfold hp; now rewrite list_lookup_insert_ne|]. auto. }
  assert (Hlen : length hp = length (heap s)) by apply length_insert.
  destruct HI as [I1 I2 I3 I4 I5 I6 I7 I8 I9 I10].
  constructor; unfold started in *; cbn [pool heap start_awaits respawn_awaits idle
    queue workers stats size inProgress] in *; try assumption.
  - rewrite length_app, length_insert. cbn [length].
    destruct (start_awaits s) as [[|]|]; lia.
  - now rewrite length_insert.
  - intros Hn. destruct (I3 Hn) as (H & _). rewrite H in Ho. discriminate.
  - intros Hs. destruct (I4 Hs) as [Hq Hall]. split; [exact Hq|].
    rewrite Forall_forall in Hall. apply Forall_app. split.
    + apply Forall_forall. intros o' [w' Hw']%list_elem_of_lookup.
      destruct (Hold w' o' Hw') as (o2 & Ho2 & -> & -> & _).
      apply Hall. apply list_elem_of_lookup. eauto.
    + repeat constructor.
  - intros w' Hw'. destruct (I5 w' Hw') as (o2 & Ho2 & H2 & H3).
    destruct (Hkeep w' o2 Ho2) as (o' & Ho' & Hh' & Hl' & _).
    exists o'. split; [|split; congruence].
    rewrite lookup_app_l; [exact Ho'|]. now apply lookup_lt_Some in Ho'.
  - intros w' [Hw'|Hw']%elem_of_app.
    + destruct (I7 w' Hw') as [(o2 & Ho2 & H2) H3]. split; [|exact H3].
      destruct (Hkeep w' o2 Ho2) as (o' & Ho' & Hh' & _).
      exists o'. split; [|congruence].
      rewrite lookup_app_l; [exact Ho'|]. now apply lookup_lt_Some in Ho'.
    + apply list_elem_of_singleton in Hw' as ->. split.
      * exists (mkObj (_id o) false false 0 false). split; [|reflexivity].
        rewrite lookup_app_r by lia. rewrite Hlen, Nat.sub_diag. reflexivity.
      * intros Hin. destruct (I5 _ Hin) as (o2 & Ho2 & _).
        apply lookup_lt_Some in Ho2. lia.
  - apply Forall_app. split; [|repeat constructor].
    rewrite Forall_forall in I8. apply Forall_forall.
    intros o' [w' Hw']%list_elem_of_lookup.
    destruct (Hold w' o' Hw') as (o2 & Ho2 & -> & _).
    apply I8. apply list_elem_of_lookup. eauto.
  - intros w' o' Hw' Hc'.
    destruct (decide (w' < length hp)) as [Hin|Hout].
    + rewrite lookup_app_l in Hw' by exact Hin.
      destruct (Hold w' o' Hw') as (o2 & Ho2 & _ & _ & _ & Hcc).
      destruct (Hcc Hc') as [Hne Hc2].
      pose proof (I9 w' o2 Ho2 Hc2) as Hmem.
      apply list_elem_of_lookup in Hmem as [j Hj].
      apply list_elem_of_lookup. exists j.
      rewrite list_lookup_insert_ne; [exact Hj|]. intros ->. congruence.
    + assert (w' = length (heap s)).
      { apply lookup_lt_Some in Hw'. rewrite length_app in Hw'. simpl in Hw'. lia. }
      subst w'. apply list_elem_of_insert. now apply lookup_lt_Some in Hat.
  - intros l Hl Hne. left.
    destruct (I10 l Hl Hne) as [(x & ox & Hx & Hox & Hcx)|(Hw & Hr & Hi & Hload)].
    + destruct (Hkeep x ox Hox) as (o' & Ho' & _ & _ & Hc').
      exists x, o'. split; [exact Hx|]. split; [|auto].
      rewrite lookup_app_l; [exact Ho'|]. now apply lookup_lt_Some in Ho'.
    + assert (Hs : match start_awaits s with Some [] => true | _ => false end = false)
        by (rewrite Hl; destruct l; [contradiction | reflexivity]).
      destruct (I4 Hs) as [_ Hall]. rewrite Forall_forall in Hall.
      destruct (Hall o) as [_ Hserved]; [apply list_elem_of_lookup; eauto|].
      rewrite Hserved, orb_false_r in Hrun. apply negb_true_iff in Hrun.
      exists w, (set_ended o). split; [|split; [|reflexivity]].
      * destruct (decide (w ∈ l)) as [Hin|Hnot]; [exact Hin|].
        rewrite (Hload w o Ho Hnot) in Hrun. discriminate.
      * rewrite lookup_app_l by lia. now apply list_lookup_insert_eq.
Qed.

(** The thread of worker [w] is over. *)
Lemma invariant_ended s w o :
  invariant s -> heap s !! w = Some o -> invariant (update_obj w set_ended s).
Proof.
  intros HI Ho. rewrite (heap_update_obj w set_ended s o Ho).
  assert (Hlt : w < length (heap s)) by (now apply lookup_lt_Some in Ho).
  assert (Hkeep : forall w' o2, heap s !! w' = Some o2 ->
            exists o', <[w := set_ended o]> (heap s) !! w' = Some o'
                       /\ holding o' = holding o2 /\ loaded o' = loaded o2
                       /\ (ended o2 = true -> ended o' = true)).
  { intros w' o2 H. destruct (decide (w' = w)) as [->|Hne].
    - exists (set_ended o). rewrite Ho in H. injection H as <-.
      split; [now apply list_lookup_insert_eq|]. auto.
    - exists o2. split; [now rewrite list_lookup_insert_ne|]. auto. }
  destruct HI as [I1 I2 I3 I4 I5 I6 I7 I8 I9 I10].
  constructor; unfold started in *; cbn [with_heap pool heap start_awaits
    respawn_awaits] in *; try assumption.
  - intros Hn. destruct (I3 Hn) as (Hheap & _). rewrite Hheap in Ho. discriminate.
  - intros Hs. destruct (I4 Hs) as [Hq Hall]. split; [exact Hq|].
    apply Forall_insert; [exact Hall|]. rewrite Forall_forall in Hall.
    apply (Hall o). apply list_elem_of_lookup. eauto.
  - intros w' Hw'. destruct (I5 w' Hw') as (o2 & Ho2 & H2 & H3).
    destruct (Hkeep w' o2 Ho2) as (o' & Ho' & Hh' & Hl' & _).
    exists o'. split; [exact Ho'|]. split; congruence.
  - intros w' Hw'. destruct (I7 w' Hw') as [(o2 & Ho2 & H2) H3]. split; [|exact H3].
    destruct (Hkeep w' o2 Ho2) as (o' & Ho' & Hh' & _).
    exists o'. split; [exact Ho' | congruence].
  - apply Forall_insert; [exact I8|]. rewrite Forall_forall in I8.
    apply (I8 o). apply list_elem_of_lookup. eauto.
  - intros w' o2 Hw' Hc2. apply lookup_insert_obj in Hw' as [(-> & -> & _)|[_ Hw']].
    + discriminate.
    + apply (I9 w' o2 Hw' Hc2).
  - intros l Hl Hne. rewrite length_insert.
    destruct (I10 l Hl Hne) as [(x & ox & Hx & Hox & Hcx)|(Hw & Hr & Hi & Hload)].
    + left. destruct (Hkeep x ox Hox) as (o' & Ho' & _ & _ & Hc'). eauto 6.
    + right. repeat split; try assumption.
      intros w' o2 Hw' Hnot. apply lookup_insert_obj in Hw' as [(-> & -> & _)|[_ Hw']].
      * simpl. now apply (Hload w o).
      * now apply (Hload w' o2).
Qed.

Lemma invariant_shutdown s : invariant s -> invariant (shutdown s).
Proof.
  unfold shutdown.
  destruct (post_exit_same (workers (pool s)) s) as (H1 & H2 & H3 & H4 & _).
  apply invariant_same; now rewrite ?H1, ?H2, ?H3, ?H4.
Qed.

(** Every turn keeps the invariant. *)
Lemma invariant_handle s i :
  invariant s -> enabled s i = true -> invariant (handle s i).
Proof.
  intros HI Hen. destruct i as [|novels| |w [|t c n|sl r]|w|w code|].
  - apply invariant_start; [exact HI|]. cbn [enabled] in Hen.
    destruct (start_awaits s); [discriminate | reflexivity].
  - now apply invariant_enqueue.
  - now apply invariant_waitUntilDone.
  - now apply invariant_ready.
  - exact HI.
  - now apply invariant_result.
  - now apply invariant_error.
  - cbn [enabled] in Hen. cbn [handle].
    destruct (heap s !! w) as [o|] eqn:Ho; [|discriminate].
    now apply (invariant_ended s w o).
  - now apply invariant_shutdown.
Qed.

End PoolInvariant.


(** C6, as the code has it.  [waitUntilDone()] called with an empty queue
    and no job in flight returns a promise that is already resolved.
    Otherwise it returns a pending promise, which is resolved by the first
    handler that ends with [_checkDone()] (that of a [result] message or of
    the [ready] message of a replacement) and leaves the queue empty and the
    in-flight count zero, by no other handler, and never a second time. *)
Theorem waitUntilDone_resolves_once :
  forall (n : nat) (s : Pool.State),
    Pool.reachable n s ->
    (fst (Pool.waitUntilDone s) ∉ Pool.settled (Pool.log s))
    /\ (Pool.all_done s = true ->
        Pool.settled (Pool.log (snd (Pool.waitUntilDone s)))
        = Pool.settled (Pool.log s) ++ [fst (Pool.waitUntilDone s)])
    /\ (Pool.all_done s = false ->
        Pool.settled (Pool.log (snd (Pool.waitUntilDone s))) = Pool.settled (Pool.log s)
        /\ Pool._resolveAllDone (Pool.pool (snd (Pool.waitUntilDone s)))
           = Some (fst (Pool.waitUntilDone s)))
    /\ (forall p i,
          Pool._resolveAllDone (Pool.pool s) = Some p -> i <> Pool.WaitUntilDone ->
          (p ∉ Pool.settled (Pool.log s))
          /\ (Pool.checks_done s i && Pool.all_done (Pool.handle s i) = true ->
              Pool.settled (Pool.log (Pool.handle s i)) = Pool.settled (Pool.log s) ++ [p]
              /\ Pool._resolveAllDone (Pool.pool (Pool.handle s i)) = None)
          /\ (Pool.checks_done s i && Pool.all_done (Pool.handle s i) = false ->
              Pool.settled (Pool.log (Pool.handle s i)) = Pool.settled (Pool.log s)
              /\ Pool._resolveAllDone (Pool.pool (Pool.handle s i)) = Some p))
    /\ (forall p inputs s',
          Pool._resolveAllDone (Pool.pool s) = Some p ->
          Pool.WaitUntilDone ∉ inputs ->
          Pool.run s inputs = Some s' ->
          (p ∈ Pool.settled (Pool.log s') <-> Pool.settles_during s inputs = true))
    /\ NoDup (Pool.settled (Pool.log s)).
Proof.
  intros n s Hreach. pose proof (reachable_promises_ok n s Hreach) as Hok.
  pose proof Hok as (Hlt & Hnd & Hres).
  pose proof (pview_waitUntilDone s) as Hw.
  assert (Hfst : fst (Pool.waitUntilDone s) = Pool.next_promise s).
  { unfold Pool.waitUntilDone. destruct (_ && _); reflexivity. }
  rewrite Hfst. split; [|split; [|split; [|split; [|split]]]].
  - intros H. apply Hlt in H. lia.
  - intros Hd. rewrite Hd in Hw. unfold Pool.pview in Hw. now injection Hw.
  - intros Hd. rewrite Hd in Hw. unfold Pool.pview in Hw. now injection Hw.
  - intros p i Hp Hi. pose proof (pview_handle s i Hi) as Hv. rewrite Hp in Hv.
    split; [apply (Hres p Hp)|]. split; intros Hc; rewrite Hc in Hv.
    + unfold Pool.pview in Hv. now injection Hv.
    + destruct (pview_parts _ _ Hv) as (Hl & _ & Hr). now rewrite Hl, Hr.
  - intros p inputs s' Hp Hno Hrun. now apply pending_settles.
  - exact Hnd.
Qed.

Lemma waitUntilDone_resolves_once_witness :
  Pool.reachable 1
    (Pool.after 1 [Pool.Start; Pool.Message 0 Pool.Ready;
                   Pool.Enqueue [Pool.sample_entry "a"]])
  /\ Pool.all_done
       (Pool.after 1 [Pool.Start; Pool.Message 0 Pool.Ready;
                      Pool.Enqueue [Pool.sample_entry "a"]]) = false
  /\ Pool._resolveAllDone
       (Pool.pool (snd (Pool.waitUntilDone
          (Pool.after 1 [Pool.Start; Pool.Message 0 Pool.Ready;
                         Pool.Enqueue [Pool.sample_entry "a"]]))))
     = Some (fst (Pool.waitUntilDone
          (Pool.after 1 [Pool.Start; Pool.Message 0 Pool.Ready;
                         Pool.Enqueue [Pool.sample_entry "a"]])))
  /\ NoDup (Pool.settled
       (Pool.log (Pool.after 1 [Pool.Start; Pool.Message 0 Pool.Ready;
                                Pool.Enqueue [Pool.sample_entry "a"]]))).
Proof.
  assert (Hr : Pool.reachable 1
            (Pool.after 1 [Pool.Start; Pool.Message 0 Pool.Ready;
                           Pool.Enqueue [Pool.sample_entry "a"]])).
  { exists [Pool.Start; Pool.Message 0 Pool.Ready; Pool.Enqueue [Pool.sample_entry "a"]].
    vm_compute. reflexivity. }
  assert (Hd : Pool.all_done
            (Pool.after 1 [Pool.Start; Pool.Message 0 Pool.Ready;
                           Pool.Enqueue [Pool.sample_entry "a"]]) = false).
  { vm_compute. reflexivity. }
  destruct (waitUntilDone_resolves_once 1 _ Hr) as (_ & _ & H & _ & _ & Hnd).
  split; [exact Hr|]. split; [exact Hd|].
  split; [exact (proj2 (H Hd)) | exact Hnd].
Defined.

(** C6, as stated, fails when the last job in flight ends by a fault of its
    worker: the handler of the fault leaves the queue empty and the count at
    zero, and the promise stays pending; it is resolved later, when the
    replacement reports [ready]. *)
Lemma fault_leaves_promise_pending :
  Pool.run (Pool.init 1)
    [Pool.Start; Pool.Message 0 Pool.Ready; Pool.Enqueue [Pool.sample_entry "a"];
     Pool.WaitUntilDone; Pool.Error 0]
  = Some (Pool.after 1
            [Pool.Start; Pool.Message 0 Pool.Ready; Pool.Enqueue [Pool.sample_entry "a"];
             Pool.WaitUntilDone; Pool.Error 0])
  /\ Pool.all_done
       (Pool.after 1
          [Pool.Start; Pool.Message 0 Pool.Ready; Pool.Enqueue [Pool.sample_entry "a"];
           Pool.WaitUntilDone; Pool.Error 0]) = true
  /\ Pool._resolveAllDone
       (Pool.pool
          (Pool.after 1
             [Pool.Start; Pool.Message 0 Pool.Ready; Pool.Enqueue [Pool.sample_entry "a"];
              Pool.WaitUntilDone; Pool.Error 0])) = Some 0
  /\ Pool.settled
       (Pool.log
          (Pool.after 1
             [Pool.Start; Pool.Message 0 Pool.Ready; Pool.Enqueue [Pool.sample_entry "a"];
              Pool.WaitUntilDone; Pool.Error 0])) = []
  /\ Pool.run (Pool.init 1)
       [Pool.Start; Pool.Message 0 Pool.Ready; Pool.Enqueue [Pool.sample_entry "a"];
        Pool.WaitUntilDone; Pool.Error 0; Pool.Message 1 Pool.Ready]
     = Some (Pool.after 1
               [Pool.Start; Pool.Message 0 Pool.Ready; Pool.Enqueue [Pool.sample_entry "a"];
                Pool.WaitUntilDone; Pool.Error 0; Pool.Message 1 Pool.Ready])
  /\ Pool.settled
       (Pool.log
          (Pool.after 1
             [Pool.Start; Pool.Message 0 Pool.Ready; Pool.Enqueue [Pool.sample_entry "a"];
              Pool.WaitUntilDone; Pool.Error 0; Pool.Message 1 Pool.Ready])) = [0].
Proof. vm_compute. repeat split. Qed.

Section PoolReachable.
Import Pool.

Lemma reachable_invariant n s : reachable n s -> invariant s.
Proof.
  apply (reachable_ind n invariant); [apply invariant_init|].
  intros s' i _ HI Hen. now apply invariant_handle.
Qed.

Lemma size_dispatch s : size (pool (_dispatch s)) = size (pool s).
Proof.
  apply (dispatch_loop_ind (fun s' => size (pool s') = size (pool s))); [|reflexivity].
  intros s' w idle' novel queue' _ _ H. exact H.
Qed.

Lemma size_checkDone s : size (pool (_checkDone s)) = size (pool s).
Proof.
  unfold _checkDone. destruct (_resolveAllDone (pool s)); [|reflexivity].
  destruct (_ && _); reflexivity.
Qed.

Lemma size_back_to_idle s w : size (pool (back_to_idle s w)) = size (pool s).
Proof. unfold back_to_idle. now rewrite size_checkDone, size_dispatch. Qed.

Lemma size_update_obj w f s : size (pool (update_obj w f s)) = size (pool s).
Proof. unfold update_obj. destruct (heap s !! w); reflexivity. Qed.

Lemma size_handle s i : size (pool (handle s i)) = size (pool s).
Proof.
  destruct i as [|novels| |w [|t c n|sl r]|w|w code|]; cbn [handle].
  - unfold start. destruct (spawn_loop_spec (size (pool s)) 0 s) as (_ & _ & H & _).
    destruct (workers (pool (spawn_loop (size (pool s)) 0 s))); exact H.
  - unfold enqueue. now rewrite size_dispatch.
  - unfold waitUntilDone. destruct (_ && _); reflexivity.
  - unfold on_ready. cbn [_handleMessage].
    set (s0 := update_obj w set_loaded s).
    set (s1 := match start_awaits s0 with
               | Some (x :: l) => _
               | _ => s0 end).
    assert (H1 : size (pool s1) = size (pool s)).
    { unfold s1. rewrite <- (size_update_obj w set_loaded s). fold s0.
      destruct (start_awaits s0) as [[|x l]|]; try reflexivity.
      destruct (bool_decide _); try reflexivity.
      destruct (List.filter _ _); reflexivity. }
    destruct (bool_decide _); [|exact H1].
    rewrite size_back_to_idle. exact H1.
  - reflexivity.
  - cbn [_handleMessage]. cbv zeta. rewrite size_back_to_idle. apply size_update_obj.
  - unfold _handleError.
    destruct (indexOf (workers (pool (update_obj w set_ended s))) w);
      cbn; apply size_update_obj.
  - apply size_update_obj.
  - unfold shutdown.
    destruct (post_exit_same (workers (pool s)) s) as (H1 & _). now rewrite H1.
Qed.

Lemma reachable_size n s : reachable n s -> size (pool s) = n.
Proof.
  apply (reachable_ind n (fun s' => size (pool s') = n)); [reflexivity|].
  intros s' i _ H _. now rewrite size_handle.
Qed.

End PoolReachable.

(** C5.  In every state the pool can reach, the number of jobs in flight is
    at most the size of the pool (it is at most the number of workers, which
    is the size once [start()] was called), and no worker holds more than one
    job it has not answered: a [download] message goes to a worker taken from
    the idle list, where no worker holds a job and no worker is listed
    twice. *)
Theorem in_flight_bounded_one_job_each :
  forall (n : nat) (s : Pool.State),
    Pool.reachable n s ->
    Pool.size (Pool.pool s) = n
    /\ (Pool.inProgress (Pool.stats (Pool.pool s))
        <= Z.of_nat (length (Pool.workers (Pool.pool s))))%Z
    /\ length (Pool.workers (Pool.pool s)) <= n
    /\ (Pool.inProgress (Pool.stats (Pool.pool s)) <= Z.of_nat n)%Z
    /\ (forall w o, Pool.heap s !! w = Some o -> Pool.holding o <= 1)
    /\ NoDup (Pool.idle (Pool.pool s))
    /\ (forall w, w ∈ Pool.idle (Pool.pool s) ->
          exists o, Pool.heap s !! w = Some o /\ Pool.holding o = 0).
Proof.
  intros n s Hreach. pose proof (reachable_invariant n s Hreach) as HI.
  pose proof (reachable_size n s Hreach) as Hsize.
  pose proof (Pool.inv_count s HI) as Hc. pose proof (Pool.inv_size s HI) as Hs.
  assert (Hw : length (Pool.workers (Pool.pool s)) <= n).
  { rewrite Hs, Hsize. destruct (Pool.start_awaits s); lia. }
  assert (Hin : (Pool.inProgress (Pool.stats (Pool.pool s))
                 <= Z.of_nat (length (Pool.workers (Pool.pool s))))%Z).
  { destruct (Pool.started s); lia. }
  split; [exact Hsize|]. split; [exact Hin|]. split; [exact Hw|]. split; [lia|].
  split; [|split].
  - intros w o Ho. now apply (lookup_holding_le s w o).
  - apply (Pool.inv_idle_nodup s HI).
  - intros w Hw'. destruct (Pool.inv_idle s HI w Hw') as (o & Ho & Hh & _). eauto.
Qed.

Lemma in_flight_bounded_one_job_each_witness :
  (Pool.inProgress
     (Pool.stats
        (Pool.pool
           (Pool.after 1 [Pool.Start; Pool.Message 0 Pool.Ready;
                          Pool.Enqueue [Pool.sample_entry "a"; Pool.sample_entry "b"]])))
   <= 1)%Z.
Proof.
  refine (proj1 (proj2 (proj2 (proj2
    (in_flight_bounded_one_job_each 1
       (Pool.after 1 [Pool.Start; Pool.Message 0 Pool.Ready;
                      Pool.Enqueue [Pool.sample_entry "a"; Pool.sample_entry "b"]])
       _))))).
  exists [Pool.Start; Pool.Message 0 Pool.Ready;
          Pool.Enqueue [Pool.sample_entry "a"; Pool.sample_entry "b"]].
  vm_compute. reflexivity.
Defined.

Section RespawnFacts.
Import Pool PoolRespawn.

Lemma awaiting_mono s s' :
  (forall w, w ∈ idle (pool s') -> w ∈ idle (pool s)) ->
  (forall x, x ∈ respawn_awaits s' -> x ∈ respawn_awaits s) ->
  (forall x o, heap s !! x = Some o ->
     exists o', heap s' !! x = Some o' /\ loaded o' = loaded o) ->
  (forall w sl t, Posted w (Download sl t) ∈ log s' -> Posted w (Download sl t) ∈ log s) ->
  awaiting s -> awaiting s'.
Proof.
  intros Hi Hr Hh Hl [A1 A2 A3 A4].
  assert (Hlt : forall w, w < length (heap s) -> w < length (heap s')).
  { intros w Hw. destruct (lookup_lt_is_Some_2 _ _ Hw) as [o Ho].
    destruct (Hh w o Ho) as (o' & Ho' & _). now apply lookup_lt_Some in Ho'. }
  constructor.
  - intros w Hw. destruct (A1 w (Hi w Hw)) as [H1 H2]. split; [|now apply Hlt].
    intros Hin. apply H1. now apply Hr.
  - intros x Hx. destruct (A2 x (Hr x Hx)) as (o & Ho & Hld).
    destruct (Hh x o Ho) as (o' & Ho' & Hld'). exists o'. split; [exact Ho'|congruence].
  - intros x sl t Hx Hin. apply (A3 x sl t (Hr x Hx)). now apply Hl.
  - intros w sl t Hin. apply Hlt. apply (A4 w sl t). now apply Hl.
Qed.

Lemma awaiting_update_obj w f s :
  (forall o, loaded (f o) = loaded o) -> awaiting s -> awaiting (update_obj w f s).
Proof.
  intros Hf. unfold update_obj. destruct (heap s !! w) as [o|] eqn:Ho; [|tauto].
  apply awaiting_mono; cbn [with_heap pool heap respawn_awaits log]; auto.
  intros x o2 Hx. destruct (decide (x = w)) as [->|Hne].
  - exists (f o). rewrite Ho in Hx. injection Hx as <-. split; [|apply Hf].
    apply list_lookup_insert_eq. now apply lookup_lt_Some in Ho.
  - exists o2. split; [|reflexivity]. now rewrite list_lookup_insert_ne.
Qed.

Lemma awaiting_post s w idle' novel queue' :
  idle (pool s) = w :: idle' -> awaiting s ->
  awaiting
    (post_download
       (with_pool s (mkPool (size (pool s)) (workers (pool s)) idle' queue'
                       (add_inProgress (stats (pool s)) 1)
                       (totalQueued (pool s)) (_resolveAllDone (pool s))))
       w novel).
Proof.
  intros Hidle [A1 A2 A3 A4].
  destruct (A1 w) as [Hnr Hlt]; [rewrite Hidle; left|].
  destruct (lookup_lt_is_Some_2 _ _ Hlt) as [o Ho].
  unfold post_download. cbn [with_pool heap]. rewrite Ho.
  constructor; cbn [emit with_heap with_pool pool heap respawn_awaits idle log].
  - intros w' Hw'. rewrite length_insert. apply A1. rewrite Hidle. now right.
  - intros x Hx. destruct (A2 x Hx) as (o2 & Ho2 & Hld). exists o2. split; [|exact Hld].
    rewrite list_lookup_insert_ne; [exact Ho2|]. intros ->. contradiction.
  - intros x sl t Hx [Hin|Hin]%elem_of_app.
    + now apply (A3 x sl t Hx).
    + apply list_elem_of_singleton in Hin. injection Hin as -> _ _. contradiction.
  - intros w' sl t [Hin|Hin]%elem_of_app; rewrite length_insert.
    + now apply (A4 w' sl t).
    + apply list_elem_of_singleton in Hin. now injection Hin as -> _ _.
Qed.

Lemma awaiting_dispatch s : awaiting s -> awaiting (_dispatch s).
Proof.
  apply dispatch_loop_ind. intros s' w idle' novel queue' Hi _ HA.
  now apply awaiting_post.
Qed.

(** [_checkDone()] settles a promise at most. *)
Lemma checkDone_effects s :
  idle (pool (_checkDone s)) = idle (pool s)
  /\ queue (pool (_checkDone s)) = queue (pool s)
  /\ heap (_checkDone s) = heap s
  /\ respawn_awaits (_checkDone s) = respawn_awaits s
  /\ exists l, log (_checkDone s) = log s ++ l
               /\ forall e, e ∈ l -> exists p, e = Settled p.
Proof.
  unfold _checkDone. destruct (_resolveAllDone (pool s)) as [r|].
  - destruct (_ && _).
    + repeat split. exists [Settled r]. split; [reflexivity|].
      intros e ->%list_elem_of_singleton. eauto.
    + repeat split. exists []. split; [now rewrite app_nil_r|]. intros e He. inversion He.
  - repeat split. exists []. split; [now rewrite app_nil_r|]. intros e He. inversion He.
Qed.

Lemma awaiting_checkDone s : awaiting s -> awaiting (_checkDone s).
Proof.
  destruct (checkDone_effects s) as (Hi & _ & Hh & Hr & l & Hl & Hall).
  apply awaiting_mono.
  - intros w. now rewrite Hi.
  - intros x. now rewrite Hr.
  - intros x o Ho. rewrite Hh. eauto.
  - intros w sl t. rewrite Hl. intros [Hin|Hin]%elem_of_app; [exact Hin|].
    destruct (Hall _ Hin) as [p Hp]. discriminate.
Qed.

Lemma awaiting_back_to_idle s w :
  awaiting s -> w ∉ respawn_awaits s -> w < length (heap s) ->
  awaiting (back_to_idle s w).
Proof.
  intros [A1 A2 A3 A4] Hnr Hlt. unfold back_to_idle.
  apply awaiting_checkDone, awaiting_dispatch.
  constructor; cbn [with_pool with_idle pool heap respawn_awaits idle log]; auto.
  intros w' [Hw'|Hw']%elem_of_app; [now apply A1|].
  apply list_elem_of_singleton in Hw' as ->. auto.
Qed.

Lemma log_spawn_loop n : forall i s w c,
  Posted w c ∈ log (spawn_loop n i s) -> Posted w c ∈ log s.
Proof.
  induction n as [|n IH]; intros i s w c; [auto|].
  cbn [spawn_loop spawn]. cbv zeta. intros H. apply IH in H.
  cbn [with_pool emit with_heap log] in H.
  apply elem_of_app in H as [H|H]; [exact H|].
  apply list_elem_of_singleton in H. discriminate.
Qed.

Lemma log_post_exit ws : forall s w sl t,
  Posted w (Download sl t) ∈ log (post_exit ws s) -> Posted w (Download sl t) ∈ log s.
Proof.
  induction ws as [|x ws IH]; intros s w sl t; [auto|].
  cbn [post_exit]. intros H. apply IH in H. cbn [emit log] in H.
  apply elem_of_app in H as [H|H]; [exact H|].
  apply list_elem_of_singleton in H. discriminate.
Qed.

Lemma awaiting_start s :
  invariant s -> awaiting s -> enabled s Start = true -> awaiting (start s).
Proof.
  intros HI [A1 A2 A3 A4] Hen. cbn [enabled] in Hen.
  destruct (start_awaits s) eqn:Haw; [discriminate|].
  destruct (inv_fresh s HI Haw) as (Hheap & Hidle & Hresp).
  destruct (spawn_loop_spec (size (pool s)) 0 s) as (_ & Hw & _ & Hi & _ & _ & _ & Hr).
  assert (Hlog : forall w sl t, Posted w (Download sl t) ∉ log (start s)).
  { intros w sl t Hin.
    assert (H : Posted w (Download sl t) ∈ log (spawn_loop (size (pool s)) 0 s)).
    { unfold start in Hin.
      destruct (workers (pool (spawn_loop (size (pool s)) 0 s))); exact Hin. }
    apply log_spawn_loop in H. apply A4 in H. rewrite Hheap in H. cbn in H. lia. }
  assert (Hidle' : idle (pool (start s)) = []).
  { unfold start.
    destruct (workers (pool (spawn_loop (size (pool s)) 0 s))) eqn:E.
    - unfold start_resume. cbn [with_idle pool idle]. exact E.
    - cbn [pool]. now rewrite Hi. }
  assert (Hresp' : respawn_awaits (start s) = []).
  { unfold start.
    destruct (workers (pool (spawn_loop (size (pool s)) 0 s))); cbn; now rewrite Hr. }
  constructor.
  - intros w Hw'. rewrite Hidle' in Hw'. inversion Hw'.
  - intros x Hx. rewrite Hresp' in Hx. inversion Hx.
  - intros x sl t Hx. rewrite Hresp' in Hx. inversion Hx.
  - intros w sl t Hin. now apply Hlog in Hin.
Qed.

Lemma awaiting_error s w :
  awaiting s -> awaiting (_handleError w s).
Proof.
  intros [A1 A2 A3 A4]. unfold _handleError.
  destruct (indexOf (workers (pool s)) w) as [idx|].
  - cbn [spawn]. cbv zeta.
    constructor; cbn [emit with_heap with_pool with_stats pool heap respawn_awaits idle log].
    + intros w' Hw'. destruct (A1 w' Hw') as [H1 H2]. rewrite length_app. cbn [length].
      split; [|lia]. intros [H|H]%elem_of_app; [contradiction|].
      apply list_elem_of_singleton in H. lia.
    + intros x [Hx|Hx]%elem_of_app.
      * destruct (A2 x Hx) as (o & Ho & Hld). exists o. split; [|exact Hld].
        now apply lookup_app_l_Some.
      * apply list_elem_of_singleton in Hx as ->. eexists. split.
        -- rewrite lookup_app_r by lia. now rewrite Nat.sub_diag.
        -- reflexivity.
    + intros x sl t [Hx|Hx]%elem_of_app [Hin|Hin]%elem_of_app.
      * now apply (A3 x sl t Hx).
      * apply list_elem_of_singleton in Hin. discriminate.
      * apply list_elem_of_singleton in Hx as ->. apply A4 in Hin. lia.
      * apply list_elem_of_singleton in Hin. discriminate.
    + intros w' sl t [Hin|Hin]%elem_of_app.
      * rewrite length_app. apply A4 in Hin. lia.
      * apply list_elem_of_singleton in Hin. discriminate.
  - constructor; cbn [with_pool with_stats pool heap respawn_awaits idle log]; auto.
Qed.

(** What the listener of [start()] leaves of the pool at the [ready] message
    of a worker that runs: nothing changes but the list it awaits, unless the
    message is the last one awaited; then no worker was replaced, and the
    workers, the first objects made, become idle. *)
Lemma start_listener_effects s w o :
  invariant s -> heap s !! w = Some o -> ended o = false ->
  forall s0, pool s0 = pool s -> start_awaits s0 = start_awaits s ->
             respawn_awaits s0 = respawn_awaits s -> log s0 = log s ->
  let s1 :=
    match start_awaits s0 with
    | Some (x :: l) =>
        if bool_decide (w ∈ x :: l) then
          let rest := List.filter (fun y => negb (y =? w)) (x :: l) in
          let s' := mkState (pool s0) (heap s0) (Some rest) (respawn_awaits s0)
                            (next_promise s0) (log s0) in
          match rest with
          | [] => start_resume s'
          | _ :: _ => s'
          end
        else s0
    | _ => s0
    end in
  heap s1 = heap s0 /\ log s1 = log s /\ respawn_awaits s1 = respawn_awaits s
  /\ queue (pool s1) = queue (pool s)
  /\ stats (pool s1) = stats (pool s)
  /\ (idle (pool s1) = idle (pool s)
      \/ (idle (pool s1) = seq 0 (length (heap s)) /\ respawn_awaits s = []
          /\ queue (pool s) = [])).
Proof.
  intros HI Ho Hcr s0 Hp Hsa Hra Hlog. cbv zeta.
  destruct (start_awaits s0) as [[|x l]|] eqn:Haw;
    [rewrite Hp; repeat split; auto | | rewrite Hp; repeat split; auto].
  destruct (bool_decide (w ∈ x :: l)); [|rewrite Hp; repeat split; auto].
  destruct (List.filter (fun y => negb (y =? w)) (x :: l)) as [|z rest] eqn:E.
  - unfold start_resume. cbn [with_idle pool heap log respawn_awaits idle queue stats].
    rewrite Hp. repeat split; auto. right.
    symmetry in Hsa.
    destruct (inv_starting s HI (x :: l) Hsa) as [(y & oy & Hy & Hoy & Hcy)|(Hw & Hr & _)];
      [discriminate| |].
    + assert (Hin : y ∈ List.filter (fun z => negb (z =? w)) (x :: l)).
      { apply elem_of_remove. split; [exact Hy|]. intros ->. congruence. }
      rewrite E in Hin. inversion Hin.
    + split; [exact Hw|]. split; [exact Hr|].
      apply (inv_before s HI). unfold started. now rewrite Hsa.
  - cbn [pool heap log respawn_awaits]. rewrite Hp. repeat split; auto.
Qed.

Lemma awaiting_ready s w :
  invariant s -> awaiting s -> enabled s (Message w Ready) = true ->
  awaiting (handle s (Message w Ready)).
Proof.
  intros HI HA Hen. cbn [enabled] in Hen.
  destruct (heap s !! w) as [o|] eqn:Ho; [|discriminate].
  apply andb_prop in Hen as [Hcr Hl]. apply negb_true_iff in Hcr, Hl.
  assert (Hlt : w < length (heap s)) by (now apply lookup_lt_Some in Ho).
  cbn [handle]. set (s0 := update_obj w set_loaded s).
  assert (E0 : s0 = with_heap s (<[w := set_loaded o]> (heap s)))
    by (apply heap_update_obj; exact Ho).
  unfold on_ready. cbn [_handleMessage].
  pose proof (start_listener_effects s w o HI Ho Hcr s0) as H1.
  cbv zeta in H1.
  set (s1 := match start_awaits s0 with
             | Some (x :: l) => _
             | _ => s0 end) in *.
  destruct H1 as (Hh1 & Hl1 & Hr1 & Hq1 & Hst1 & Hi1); try (rewrite E0; reflexivity).
  assert (Hheap : heap s1 = <[w := set_loaded o]> (heap s)).
  { rewrite Hh1, E0. reflexivity. }
  destruct HA as [A1 A2 A3 A4].
  destruct (bool_decide (w ∈ respawn_awaits s1)) eqn:Ew.
  - apply bool_decide_eq_true in Ew. rewrite Hr1 in Ew.
    destruct Hi1 as [Hi1|(_ & Hnil & _)]; [|rewrite Hnil in Ew; inversion Ew].
    apply awaiting_back_to_idle; cbn [respawn_awaits heap].
    + constructor; cbn [pool heap respawn_awaits log]; rewrite ?Hheap, ?Hl1, ?Hr1, ?Hi1.
      * intros w' Hw'. destruct (A1 w' Hw') as [H1 H2]. rewrite length_insert.
        split; [|exact H2]. intros [H _]%elem_of_remove. contradiction.
      * intros x [Hx Hne]%elem_of_remove. destruct (A2 x Hx) as (o2 & Ho2 & Hld).
        exists o2. split; [|exact Hld]. now rewrite list_lookup_insert_ne.
      * intros x sl t [Hx _]%elem_of_remove. now apply A3.
      * intros w' sl t Hin. rewrite length_insert. now apply (A4 w' sl t).
    + rewrite elem_of_remove. tauto.
    + rewrite Hheap, length_insert. exact Hlt.
  - apply bool_decide_eq_false in Ew. rewrite Hr1 in Ew.
    constructor; rewrite ?Hheap, ?Hl1, ?Hr1, ?length_insert.
    + intros w' Hw'. destruct Hi1 as [Hi1|(Hi1 & Hnil & _)]; rewrite Hi1 in Hw'.
      * now apply A1.
      * rewrite Hnil. split; [intros H; inversion H|]. now apply elem_of_seq in Hw'.
    + intros x Hx. destruct (A2 x Hx) as (o2 & Ho2 & Hld). exists o2. split; [|exact Hld].
      rewrite list_lookup_insert_ne; [exact Ho2|]. intros ->. contradiction.
    + exact A3.
    + exact A4.
Qed.

Lemma awaiting_handle s i :
  invariant s -> awaiting s -> enabled s i = true -> awaiting (handle s i).
Proof.
  intros HI HA Hen.
  destruct i as [|novels| |w [|t c n|sl r]|w|w code|]; cbn [handle].
  - now apply awaiting_start.
  - unfold enqueue. apply awaiting_dispatch. revert HA.
    apply awaiting_mono; cbn [with_pool pool heap respawn_awaits idle log]; eauto.
  - revert HA. unfold waitUntilDone. destruct (_ && _); cbn [snd];
      apply awaiting_mono; cbn [pool heap respawn_awaits idle log]; eauto.
    intros w sl t [Hin|Hin]%elem_of_app; [exact Hin|].
    apply list_elem_of_singleton in Hin. discriminate.
  - now apply awaiting_ready.
  - exact HA.
  - cbn [enabled] in Hen. destruct (heap s !! w) as [o|] eqn:Ho; [|discriminate].
    apply andb_prop in Hen as [Hen _]. apply andb_prop in Hen as [_ Hl].
    cbn [_handleMessage]. cbv zeta.
    assert (HA0 : awaiting (update_obj w answer s))
      by (apply awaiting_update_obj; [reflexivity | exact HA]).
    assert (E0 : update_obj w answer s = with_heap s (<[w := answer o]> (heap s)))
      by (apply heap_update_obj; exact Ho).
    apply awaiting_back_to_idle.
    + revert HA0. apply awaiting_mono;
        cbn [with_pool with_stats pool heap respawn_awaits idle log]; eauto.
    + cbn [with_pool respawn_awaits]. rewrite E0. cbn [with_heap respawn_awaits].
      intros Hin. destruct (aw_loading s HA w Hin) as (o2 & Ho2 & Hld). congruence.
    + cbn [with_pool heap]. rewrite E0. cbn [with_heap heap]. rewrite length_insert.
      now apply lookup_lt_Some in Ho.
  - apply awaiting_error. apply awaiting_update_obj; [reflexivity | exact HA].
  - apply awaiting_update_obj; [reflexivity | exact HA].
  - unfold shutdown. destruct (post_exit_same (workers (pool s)) s) as (Hp & Hh & _ & Hr & _).
    revert HA. apply awaiting_mono; rewrite ?Hp, ?Hh, ?Hr; eauto.
    apply log_post_exit.
Qed.

Lemma dispatch_loop_dispatched : forall I Q s,
  idle (pool s) = I -> queue (pool s) = Q -> dispatched (dispatch_loop I Q s).
Proof.
  induction I as [|w I IH]; intros Q s HI HQ.
  - left. exact HI.
  - destruct Q as [|novel Q]; [right; exact HQ|].
    cbn [dispatch_loop]. apply IH; reflexivity.
Qed.

Lemma dispatched_dispatch s : dispatched (_dispatch s).
Proof. now apply dispatch_loop_dispatched. Qed.

Lemma dispatched_back_to_idle s w : dispatched (back_to_idle s w).
Proof.
  unfold back_to_idle, dispatched.
  match goal with |- context [_checkDone ?x] =>
    destruct (checkDone_effects x) as (-> & -> & _); apply dispatched_dispatch end.
Qed.

Lemma dispatched_same s s' :
  idle (pool s') = idle (pool s) -> queue (pool s') = queue (pool s) ->
  dispatched s -> dispatched s'.
Proof. unfold dispatched. intros -> ->. tauto. Qed.

Lemma pool_update_obj w f s : pool (update_obj w f s) = pool s.
Proof. unfold update_obj. destruct (heap s !! w); reflexivity. Qed.

Lemma dispatched_handle s i :
  invariant s -> dispatched s -> enabled s i = true -> dispatched (handle s i).
Proof.
  intros HI HD Hen.
  destruct i as [|novels| |w [|t c n|sl r]|w|w code|]; cbn [handle].
  - right. cbn [enabled] in Hen. destruct (start_awaits s) eqn:Haw; [discriminate|].
    destruct (inv_before s HI) as [Hq _]; [unfold started; now rewrite Haw|].
    destruct (spawn_loop_spec (size (pool s)) 0 s) as (_ & _ & _ & _ & Hq' & _).
    unfold start. destruct (workers (pool (spawn_loop (size (pool s)) 0 s)));
      cbn; now rewrite Hq'.
  - apply dispatched_dispatch.
  - revert HD. unfold waitUntilDone. destruct (_ && _); now apply dispatched_same.
  - cbn [enabled] in Hen. destruct (heap s !! w) as [o|] eqn:Ho; [|discriminate].
    apply andb_prop in Hen as [Hcr _]. apply negb_true_iff in Hcr.
    set (s0 := update_obj w set_loaded s).
    assert (E0 : s0 = with_heap s (<[w := set_loaded o]> (heap s)))
      by (apply heap_update_obj; exact Ho).
    unfold on_ready. cbn [_handleMessage].
    pose proof (start_listener_effects s w o HI Ho Hcr s0) as H1.
    cbv zeta in H1.
    set (s1 := match start_awaits s0 with
               | Some (x :: l) => _
               | _ => s0 end) in *.
    destruct H1 as (_ & _ & _ & Hq1 & _ & Hi1); try (rewrite E0; reflexivity).
    destruct (bool_decide _); [apply dispatched_back_to_idle|].
    destruct Hi1 as [Hi1|(_ & _ & Hq)].
    + revert HD. now apply dispatched_same.
    + right. now rewrite Hq1.
  - exact HD.
  - cbn [_handleMessage]. cbv zeta. apply dispatched_back_to_idle.
  - revert HD. apply dispatched_same.
    + unfold _handleError.
      destruct (indexOf (workers (pool (update_obj w set_ended s))) w);
        cbn; now rewrite pool_update_obj.
    + unfold _handleError.
      destruct (indexOf (workers (pool (update_obj w set_ended s))) w);
        cbn; now rewrite pool_update_obj.
  - revert HD. apply dispatched_same; now rewrite pool_update_obj.
  - unfold shutdown. destruct (post_exit_same (workers (pool s)) s) as (Hp & _).
    revert HD. apply dispatched_same; now rewrite Hp.
Qed.

Lemma reachable_awaiting n s : reachable n s -> awaiting s /\ dispatched s.
Proof.
  apply (reachable_ind n (fun s => awaiting s /\ dispatched s)).
  - split; [|now left].
    constructor; cbn; intros; match goal with H : _ ∈ [] |- _ => inversion H end.
  - intros s' i Hr [HA HD] Hen. pose proof (reachable_invariant n s' Hr) as HI.
    split; [now apply awaiting_handle | now apply dispatched_handle].
Qed.

(** The [ready] message of an awaited replacement: [readyP.then] pushes it
    to the idle list and calls [_dispatch()] and [_checkDone()]. *)
Lemma ready_of_replacement n s x :
  reachable n s -> x ∈ respawn_awaits s -> enabled s (Message x Ready) = true ->
  (x ∉ respawn_awaits (handle s (Message x Ready)))
  /\ exists l,
       (forall e, e ∈ l -> exists p, e = Settled p)
       /\ match queue (pool s) with
          | [] =>
              idle (pool (handle s (Message x Ready))) = idle (pool s) ++ [x]
              /\ log (handle s (Message x Ready)) = log s ++ l
          | novel :: rest =>
              idle (pool (handle s (Message x Ready))) = []
              /\ queue (pool (handle s (Message x Ready))) = rest
              /\ log (handle s (Message x Ready))
                 = log s ++ Posted x (Download (slug novel) (title novel)) :: l
          end.
Proof.
  intros Hreach Hx Hen. pose proof (reachable_invariant n s Hreach) as HI.
  destruct (reachable_awaiting n s Hreach) as [HA HD].
  cbn [enabled] in Hen.
  destruct (heap s !! x) as [o|] eqn:Ho; [|discriminate].
  apply andb_prop in Hen as [Hcr _]. apply negb_true_iff in Hcr.
  cbn [handle]. set (s0 := update_obj x set_loaded s).
  assert (E0 : s0 = with_heap s (<[x := set_loaded o]> (heap s)))
    by (apply heap_update_obj; exact Ho).
  unfold on_ready. cbn [_handleMessage].
  pose proof (start_listener_effects s x o HI Ho Hcr s0) as H1.
  cbv zeta in H1.
  set (s1 := match start_awaits s0 with
             | Some (y :: l) => _
             | _ => s0 end) in *.
  destruct H1 as (Hh1 & Hl1 & Hr1 & Hq1 & Hst1 & Hi1); try (rewrite E0; reflexivity).
  destruct Hi1 as [Hi1|(_ & Hnil & _)]; [|rewrite Hnil in Hx; inversion Hx].
  rewrite bool_decide_eq_true_2 by (now rewrite Hr1).
  unfold back_to_idle.
  match goal with |- context [_checkDone ?y] =>
    set (s3 := y);
    destruct (checkDone_effects s3) as (Ei & Eq & _ & Er & l & El & Hall) end.
  rewrite Ei, Eq, Er, El. split.
  { assert (Hr3 : respawn_awaits s3
                  = List.filter (fun y => negb (y =? x)) (respawn_awaits s1)).
    { unfold s3, _dispatch.
      match goal with |- respawn_awaits (dispatch_loop ?I ?Q ?y) = _ =>
        change (respawn_awaits (_dispatch y)
                = List.filter (fun z => negb (z =? x)) (respawn_awaits s1));
        apply (dispatch_loop_ind
                 (fun s' => respawn_awaits s'
                            = List.filter (fun z => negb (z =? x)) (respawn_awaits s1)));
        [|reflexivity] end.
      intros s' w idle' novel queue' _ _ H. exact H. }
    rewrite Hr3, elem_of_remove. tauto. }
  exists l. split; [exact Hall|].
  unfold s3, _dispatch. cbn [with_pool with_idle pool idle queue].
  rewrite Hi1, Hq1.
  destruct (queue (pool s)) as [|novel rest] eqn:Hq.
  - assert (Hd : forall I y, dispatch_loop I [] y = y) by (intros [|? ?] y; reflexivity).
    rewrite Hd. cbn [with_pool with_idle pool idle log]. rewrite ?Hi1, ?Hl1. auto.
  - destruct HD as [HD|HD]; [|congruence]. rewrite HD. cbn [app dispatch_loop].
    unfold post_download.
    cbn [with_pool with_idle with_heap emit pool idle queue log heap].
    rewrite Hl1. repeat split. now rewrite <- app_assoc.
Qed.

End RespawnFacts.

(** C7.  When a worker of a reachable pool throws an uncaught error, the
    handler counts one failed job, creates one worker with the [_id] of the
    faulty one, puts it at the place of the faulty one in [this.workers] and
    leaves the idle list as it is; the new worker is awaited.  A worker is in
    the idle list only if its [ready] message was received.  As long as a
    replacement is awaited, its [ready] message has not come, it is not in
    the idle list and no [download] message was sent to it; its [ready]
    message ends the wait and pushes it to the idle list, behind the workers
    that are idle, when no novel is queued; when one is, no worker was idle,
    and [_dispatch()] takes the replacement at once for the first novel of
    the queue.  Nothing else is posted in that turn: [_checkDone()] may
    settle a promise. *)
Theorem fault_counts_one_and_respawns :
  forall (n : nat) (s : Pool.State) (w : nat),
    Pool.reachable n s ->
    (Pool.enabled s (Pool.Error w) = true ->
     exists o idx,
       Pool.heap s !! w = Some o
       /\ Pool.workers (Pool.pool s) !! idx = Some w
       /\ Pool.failed (Pool.stats (Pool.pool (Pool.handle s (Pool.Error w))))
          = (Pool.failed (Pool.stats (Pool.pool s)) + 1)%Z
       /\ Pool.succeeded (Pool.stats (Pool.pool (Pool.handle s (Pool.Error w))))
          = Pool.succeeded (Pool.stats (Pool.pool s))
       /\ Pool.skipped (Pool.stats (Pool.pool (Pool.handle s (Pool.Error w))))
          = Pool.skipped (Pool.stats (Pool.pool s))
       /\ Pool.log (Pool.handle s (Pool.Error w))
          = Pool.log s ++ [Pool.Spawned (length (Pool.heap s))]
       /\ Pool.heap (Pool.handle s (Pool.Error w)) !! length (Pool.heap s)
          = Some (Pool.mkObj (Pool._id o) false false 0 false)
       /\ Pool.workers (Pool.pool (Pool.handle s (Pool.Error w)))
          = <[idx := length (Pool.heap s)]> (Pool.workers (Pool.pool s))
       /\ Pool.idle (Pool.pool (Pool.handle s (Pool.Error w))) = Pool.idle (Pool.pool s)
       /\ (length (Pool.heap s) ∉ Pool.idle (Pool.pool (Pool.handle s (Pool.Error w))))
       /\ Pool.respawn_awaits (Pool.handle s (Pool.Error w))
          = Pool.respawn_awaits s ++ [length (Pool.heap s)])
    /\ (forall x, x ∈ Pool.idle (Pool.pool s) ->
          exists o, Pool.heap s !! x = Some o /\ Pool.loaded o = true)
    /\ (forall x, x ∈ Pool.respawn_awaits s ->
          (x ∉ Pool.idle (Pool.pool s))
          /\ (exists o, Pool.heap s !! x = Some o /\ Pool.loaded o = false)
          /\ (forall sl t, Pool.Posted x (Pool.Download sl t) ∉ Pool.log s)
          /\ (Pool.enabled s (Pool.Message x Pool.Ready) = true ->
              (x ∉ Pool.respawn_awaits (Pool.handle s (Pool.Message x Pool.Ready)))
              /\ exists l,
                   (forall e, e ∈ l -> exists p, e = Pool.Settled p)
                   /\ match Pool.queue (Pool.pool s) with
                      | [] =>
                          Pool.idle (Pool.pool (Pool.handle s (Pool.Message x Pool.Ready)))
                          = Pool.idle (Pool.pool s) ++ [x]
                          /\ Pool.log (Pool.handle s (Pool.Message x Pool.Ready))
                             = Pool.log s ++ l
                      | novel :: rest =>
                          Pool.idle (Pool.pool (Pool.handle s (Pool.Message x Pool.Ready)))
                          = []
                          /\ Pool.queue (Pool.pool (Pool.handle s (Pool.Message x Pool.Ready)))
                             = rest
                          /\ Pool.log (Pool.handle s (Pool.Message x Pool.Ready))
                             = Pool.log s
                               ++ Pool.Posted x (Pool.Download (Pool.slug novel)
                                                               (Pool.title novel)) :: l
                      end)).
Proof.
  intros n s w Hreach. pose proof (reachable_invariant n s Hreach) as HI.
  split; [|split].
  - intros Hen. cbn [Pool.enabled] in Hen.
    destruct (Pool.heap s !! w) as [o|] eqn:Ho; [|discriminate].
    apply andb_prop in Hen as [Hcr _]. apply negb_true_iff in Hcr.
    destruct (indexOf_Some (Pool.workers (Pool.pool s)) w
                (Pool.inv_members s HI w o Ho Hcr)) as (idx & Hidx & Hat).
    exists o, idx. split; [reflexivity|]. split; [exact Hat|].
    assert (Hlt : w < length (Pool.heap s)) by (now apply lookup_lt_Some in Ho).
    cbn [Pool.handle]. rewrite (heap_update_obj w Pool.set_ended s o Ho).
    rewrite (handleError_member _ w idx (Pool.set_ended o));
      [|exact Hidx | cbn [Pool.with_heap Pool.heap]; now apply list_lookup_insert_eq].
    cbn [Pool.with_heap Pool.pool Pool.heap Pool.start_awaits Pool.respawn_awaits
         Pool.log Pool.stats Pool.failed Pool.succeeded Pool.skipped Pool.workers
         Pool.idle Pool.set_ended Pool._id].
    rewrite length_insert. repeat split.
    + rewrite lookup_app_r by (rewrite length_insert; lia).
      rewrite length_insert, Nat.sub_diag. reflexivity.
    + intros Hin. destruct (Pool.inv_idle s HI _ Hin) as (o2 & Ho2 & _).
      apply lookup_lt_Some in Ho2. lia.
  - intros x Hx. destruct (Pool.inv_idle s HI x Hx) as (o & Ho & _ & Hl). eauto.
  - intros x Hx. destruct (reachable_awaiting n s Hreach) as [HA _].
    split; [apply (Pool.inv_respawn s HI x Hx)|].
    split; [apply (PoolRespawn.aw_loading s HA x Hx)|].
    split; [intros sl t; apply (PoolRespawn.aw_unserved s HA x sl t Hx)|].
    intros Hen. now apply (ready_of_replacement n).
Qed.

Lemma fault_counts_one_and_respawns_witness :
  Pool.log
    (Pool.handle
       (Pool.after 1 [Pool.Start; Pool.Message 0 Pool.Ready;
                      Pool.Enqueue [Pool.sample_entry "a"; Pool.sample_entry "b"]])
       (Pool.Error 0))
  = Pool.log
      (Pool.after 1 [Pool.Start; Pool.Message 0 Pool.Ready;
                     Pool.Enqueue [Pool.sample_entry "a"; Pool.sample_entry "b"]])
    ++ [Pool.Spawned 1]
  /\ exists l,
       Pool.log
         (Pool.handle
            (Pool.after 1 [Pool.Start; Pool.Message 0 Pool.Ready;
                           Pool.Enqueue [Pool.sample_entry "a"; Pool.sample_entry "b"];
                           Pool.Error 0])
            (Pool.Message 1 Pool.Ready))
       = Pool.log
           (Pool.after 1 [Pool.Start; Pool.Message 0 Pool.Ready;
                          Pool.Enqueue [Pool.sample_entry "a"; Pool.sample_entry "b"];
                          Pool.Error 0])
         ++ Pool.Posted 1 (Pool.Download (lit "b") (lit "b")) :: l.
Proof.
  split.
  - assert (Hr : Pool.reachable 1
              (Pool.after 1 [Pool.Start; Pool.Message 0 Pool.Ready;
                             Pool.Enqueue [Pool.sample_entry "a"; Pool.sample_entry "b"]])).
    { exists [Pool.Start; Pool.Message 0 Pool.Ready;
              Pool.Enqueue [Pool.sample_entry "a"; Pool.sample_entry "b"]].
      vm_compute. reflexivity. }
    assert (He : Pool.enabled
              (Pool.after 1 [Pool.Start; Pool.Message 0 Pool.Ready;
                             Pool.Enqueue [Pool.sample_entry "a"; Pool.sample_entry "b"]])
              (Pool.Error 0) = true).
    { vm_compute. reflexivity. }
    destruct (proj1 (fault_counts_one_and_respawns 1 _ 0 Hr) He)
      as (o & idx & _ & _ & _ & _ & _ & Hlog & _).
    exact Hlog.
  - assert (Hr : Pool.reachable 1
              (Pool.after 1 [Pool.Start; Pool.Message 0 Pool.Ready;
                             Pool.Enqueue [Pool.sample_entry "a"; Pool.sample_entry "b"];
                             Pool.Error 0])).
    { exists [Pool.Start; Pool.Message 0 Pool.Ready;
              Pool.Enqueue [Pool.sample_entry "a"; Pool.sample_entry "b"]; Pool.Error 0].
      vm_compute. reflexivity. }
    assert (Hx : 1 ∈ Pool.respawn_awaits
              (Pool.after 1 [Pool.Start; Pool.Message 0 Pool.Ready;
                             Pool.Enqueue [Pool.sample_entry "a"; Pool.sample_entry "b"];
                             Pool.Error 0])).
    { vm_compute. left. }
    assert (He : Pool.enabled
              (Pool.after 1 [Pool.Start; Pool.Message 0 Pool.Ready;
                             Pool.Enqueue [Pool.sample_entry "a"; Pool.sample_entry "b"];
                             Pool.Error 0])
              (Pool.Message 1 Pool.Ready) = true).
    { vm_compute. reflexivity. }
    destruct (proj2 (proj2 (fault_counts_one_and_respawns 1 _ 0 Hr)) 1 Hx)
      as (_ & _ & _ & Hready).
    destruct (Hready He) as (_ & l & _ & Hq).
    exists l. exact (proj2 (proj2 Hq)).
Defined.

(** ** The limiter *)

Section LimiterFacts.
Import Job.
Variable W : World.
Variable novel : Novel.
Variable report : bool.
Variable K : nat.

Lemma machine_step_running m c m' :
  machine_step W novel report K m c = Some m' ->
  length (running m) <= K -> length (running m') <= K.
Proof.
  unfold machine_step. destruct (finished m); [discriminate|].
  destruct c as [|i|].
  - destruct (waiting m) as [|i rest]; [discriminate|].
    destruct (length (running m) <? K) eqn:E; [|discriminate].
    intros [= <-] _. simpl. rewrite length_app. simpl.
    apply Nat.ltb_lt in E. lia.
  - destruct (bool_decide (i ∈ running m)); [|discriminate].
    intros [= <-] H. simpl.
    pose proof (filter_length_le (fun j => negb (j =? i)) (running m)). lia.
  - destruct (waiting m); [|discriminate]. destruct (running m); [|discriminate].
    destruct (mpass m <? MAX_RETRY_PASSES).
    + destruct (failedIndices (fragments (mjs m))); intros [= <-] _; simpl; lia.
    + intros [= <-] _. simpl. lia.
Qed.

Lemma machine_step_pass m c m' :
  machine_step W novel report K m c = Some m' ->
  mpass m <= MAX_RETRY_PASSES -> mpass m' <= MAX_RETRY_PASSES.
Proof.
  unfold machine_step. destruct (finished m); [discriminate|].
  destruct c as [|i|].
  - destruct (waiting m) as [|i rest]; [discriminate|].
    destruct (length (running m) <? K); [|discriminate]. now intros [= <-].
  - destruct (bool_decide (i ∈ running m)); [|discriminate]. now intros [= <-].
  - destruct (waiting m); [|discriminate]. destruct (running m); [|discriminate].
    destruct (mpass m <? MAX_RETRY_PASSES) eqn:E.
    + apply Nat.ltb_lt in E.
      destruct (failedIndices (fragments (mjs m))); intros [= <-] _; simpl; lia.
    + now intros [= <-].
Qed.

Lemma machine_run_running cs : forall m m',
  machine_run W novel report K m cs = Some m' ->
  length (running m) <= K /\ mpass m <= MAX_RETRY_PASSES ->
  length (running m') <= K /\ mpass m' <= MAX_RETRY_PASSES.
Proof.
  induction cs as [|c cs IH]; intros m m' Hrun Hm.
  - now injection Hrun as <-.
  - simpl in Hrun. destruct (machine_step W novel report K m c) as [m1|] eqn:E;
      [|discriminate].
    apply (IH m1 m' Hrun). split.
    + apply (machine_step_running m c m1 E), Hm.
    + apply (machine_step_pass m c m1 E), Hm.
Qed.

End LimiterFacts.

Section LimiterRefinement.
Import Job.
Variable W : World.
Variable novel : Novel.
Variable report : bool.
Variable tr : list event.

Lemma retry_passes_snoc (W0 : World) k : forall p st,
  retry_passes W0 novel (S k) p st
  = match failedIndices (fragments (retry_passes W0 novel k p st)) with
    | [] => retry_passes W0 novel k p st
    | i :: rest =>
        run_tasks (retry_task W0 novel (p + k)) (schedule W0 (p + k) (i :: rest))
          (cooled (p + k) (retry_passes W0 novel k p st))
    end.
Proof.
  induction k as [|k IH]; intros p st.
  - cbn [retry_passes]. rewrite Nat.add_0_r.
    destruct (failedIndices (fragments st)); reflexivity.
  - remember (S k) as k' eqn:Ek. cbn [retry_passes].
    destruct (failedIndices (fragments st)) as [|i rest] eqn:E.
    + subst k'. cbn [retry_passes]. now rewrite E, E.
    + subst k'. rewrite IH. cbn [retry_passes]. rewrite E.
      now replace (S p + k) with (p + S k) by lia.
Qed.

Lemma retry_passes_stop (W0 : World) j k st :
  failedIndices (fragments (retry_passes W0 novel j 1 st)) = [] ->
  j <= k ->
  retry_passes W0 novel k 1 st = retry_passes W0 novel j 1 st.
Proof.
  intros Hnil Hle. induction Hle as [|k Hle IH]; [reflexivity|].
  rewrite retry_passes_snoc, IH, Hnil. reflexivity.
Qed.

Lemma retry_passes_ext sched sched' left : forall pass st,
  (forall q ts, pass <= q < pass + left -> sched q ts = sched' q ts) ->
  retry_passes (with_schedule W sched) novel left pass st
  = retry_passes (with_schedule W sched') novel left pass st.
Proof.
  induction left as [|left IH]; intros pass st Hag; [reflexivity|].
  cbn [retry_passes]. destruct (failedIndices (fragments st)) as [|i rest]; [reflexivity|].
  cbn [schedule with_schedule]. rewrite (Hag pass) by lia.
  apply IH. intros q ts Hq. apply Hag. lia.
Qed.

Lemma override_perm sched pass tasks order :
  (forall p ts, sched p ts ≡ₚ ts) -> order ≡ₚ tasks ->
  forall p ts, override sched pass tasks order p ts ≡ₚ ts.
Proof.
  intros Hs Ho p ts. unfold override. case_bool_decide as H; [|apply Hs].
  destruct H as [_ ->]. exact Ho.
Qed.

Lemma override_same sched pass tasks order :
  override sched pass tasks order pass tasks = order.
Proof. unfold override. now rewrite bool_decide_eq_true_2. Qed.

Lemma override_other sched pass tasks order q ts :
  q <> pass -> override sched pass tasks order q ts = sched q ts.
Proof. intros H. unfold override. rewrite bool_decide_eq_false_2; [reflexivity|tauto]. Qed.

(** When every task of a pass has settled, the state is the one the loop of
    [downloadNovel] is in after that pass, for the order in which the tasks
    settled. *)
Lemma pass_ends sched pass tasks start order :
  pass_begins W novel report tr sched pass tasks start ->
  retry_passes (with_schedule W (override sched pass tasks order)) novel pass 1
    (after_initial (with_schedule W (override sched pass tasks order)) novel report tr)
  = run_tasks (pass_task W novel report pass) order start.
Proof.
  destruct pass as [|q]; cbn [pass_begins pass_task].
  - intros [-> ->]. cbn [retry_passes]. unfold after_initial.
    cbn [schedule with_schedule]. now rewrite override_same.
  - intros (Ht & Hne & ->).
    set (sched' := override sched (S q) tasks order).
    assert (Hinit : after_initial (with_schedule W sched') novel report tr
                    = after_initial (with_schedule W sched) novel report tr).
    { unfold after_initial. cbn [schedule with_schedule]. unfold sched'.
      now rewrite override_other by lia. }
    assert (Hb : retry_passes (with_schedule W sched') novel q 1
                   (after_initial (with_schedule W sched') novel report tr)
                 = retry_passes (with_schedule W sched) novel q 1
                     (after_initial (with_schedule W sched) novel report tr)).
    { rewrite Hinit. symmetry. apply retry_passes_ext. intros p ts Hp. unfold sched'.
      now rewrite override_other by lia. }
    rewrite retry_passes_snoc, Hb, <- Ht.
    destruct tasks as [|i rest]; [contradiction|].
    cbn [schedule with_schedule Nat.add]. unfold sched'. rewrite override_same.
    reflexivity.
Qed.

Lemma refines_init : refines W novel report tr (machine_init novel tr).
Proof.
  exists (fun _ ts => ts). split; [reflexivity|]. split; [cbn; unfold MAX_RETRY_PASSES; lia|].
  cbn [machine_init finished mpass running waiting mjs].
  exists [], (seq 0 (length (chapters novel))),
         (mkJ (repeat Hole (length (chapters novel))) 0 tr).
  split; [split; reflexivity|]. split; reflexivity.
Qed.

Lemma pass_begins_NoDup sched pass tasks start :
  pass_begins W novel report tr sched pass tasks start -> NoDup tasks.
Proof.
  destruct pass; cbn [pass_begins].
  - intros [-> _]. apply NoDup_seq.
  - intros (-> & _). apply failedIndices_NoDup.
Qed.

Lemma filter_remove_perm (i : nat) (l : list nat) :
  NoDup l -> i ∈ l -> l ≡ₚ i :: List.filter (fun j => negb (j =? i)) l.
Proof.
  induction l as [|x l IH]; intros Hnd Hin; [now apply elem_of_nil in Hin|].
  apply NoDup_cons in Hnd as [Hx Hnd]. cbn [List.filter].
  destruct (Nat.eqb_spec x i) as [->|Hne]; cbn [negb].
  - f_equiv. clear IH Hin Hnd. induction l as [|y l IH]; [reflexivity|].
    cbn [List.filter]. apply not_elem_of_cons in Hx as [Hy Hx].
    destruct (Nat.eqb_spec y i) as [->|_]; [contradiction|]. cbn [negb]. f_equiv. now apply IH.
  - apply elem_of_cons in Hin as [->|Hin]; [contradiction|].
    rewrite (IH Hnd Hin) at 1. apply Permutation_swap.
Qed.

Lemma machine_step_refines K m c m' :
  machine_step W novel report K m c = Some m' ->
  refines W novel report tr m -> refines W novel report tr m'.
Proof.
  unfold machine_step. destruct (finished m) eqn:Ef; [discriminate|].
  intros Hstep (sched & Hperm & Hpass & Hinv). rewrite Ef in Hinv.
  destruct Hinv as (order & tasks & start & Hbeg & Hall & Hjs).
  destruct c as [|i|].
  - destruct (waiting m) as [|i rest]; [discriminate|].
    destruct (length (running m) <? K); [|discriminate]. injection Hstep as <-.
    exists sched. split; [exact Hperm|]. split; [exact Hpass|].
    cbn [finished mpass running waiting mjs].
    exists order, tasks, start. split; [exact Hbeg|]. split; [|exact Hjs].
    rewrite <- Hall, <- app_assoc. reflexivity.
  - case_bool_decide as Hin; [|discriminate]. injection Hstep as <-.
    exists sched. split; [exact Hperm|]. split; [exact Hpass|].
    cbn [finished mpass running waiting mjs].
    exists (order ++ [i]), tasks, start. split; [exact Hbeg|].
    assert (Hnd : NoDup (running m)).
    { pose proof (pass_begins_NoDup _ _ _ _ Hbeg) as Hnd. rewrite <- Hall in Hnd.
      apply NoDup_app in Hnd as (_ & _ & Hnd). now apply NoDup_app in Hnd as (Hnd & _). }
    split.
    + rewrite <- Hall, <- app_assoc. f_equiv. cbn [app].
      rewrite (filter_remove_perm i (running m) Hnd Hin) at 2. reflexivity.
    + unfold run_tasks. rewrite fold_left_app. cbn [fold_left]. fold (run_tasks (pass_task W novel report (mpass m)) order start).
      rewrite <- Hjs. unfold pass_task. destruct (mpass m); reflexivity.
  - destruct (waiting m) eqn:Ew; [|discriminate].
    destruct (running m) eqn:Er; [|discriminate].
    cbn [app] in Hall. rewrite app_nil_r in Hall.
    pose proof (pass_ends sched (mpass m) tasks start order Hbeg) as Hend.
    rewrite <- Hjs in Hend.
    set (sched' := override sched (mpass m) tasks order) in *.
    assert (Hperm' : forall p ts, sched' p ts ≡ₚ ts).
    { now apply override_perm. }
    destruct (mpass m <? MAX_RETRY_PASSES) eqn:Elt.
    + apply Nat.ltb_lt in Elt.
      destruct (failedIndices (fragments (mjs m))) as [|i rest] eqn:Ef2;
        injection Hstep as <-; exists sched'; (split; [exact Hperm'|]).
      * split; [exact Hpass|]. cbn [finished mjs].
        unfold after_retries.
        rewrite (retry_passes_stop _ (mpass m) MAX_RETRY_PASSES); [now rewrite Hend| |lia].
        now rewrite Hend.
      * split; [cbn [mpass]; lia|]. cbn [finished mpass running waiting mjs].
        exists [], (i :: rest), (cooled (S (mpass m)) (mjs m)).
        split; [|split; reflexivity].
        cbn [pass_begins]. rewrite Hend. now rewrite Ef2.
    + apply Nat.ltb_ge in Elt. injection Hstep as <-. exists sched'.
      split; [exact Hperm'|]. split; [exact Hpass|]. cbn [finished mjs].
      unfold after_retries. replace MAX_RETRY_PASSES with (mpass m) by lia.
      now rewrite Hend.
Qed.

Lemma machine_run_refines K cs : forall m m',
  machine_run W novel report K m cs = Some m' ->
  refines W novel report tr m -> refines W novel report tr m'.
Proof.
  induction cs as [|c cs IH]; intros m m' Hrun Hm.
  - now injection Hrun as <-.
  - cbn [machine_run] in Hrun.
    destruct (machine_step W novel report K m c) as [m1|] eqn:E; [|discriminate].
    apply (IH m1 m' Hrun). exact (machine_step_refines K m c m1 E Hm).
Qed.

(** With at least one slot the limiter never blocks a job: as long as the
    job is not over, a task can settle, a queued task can start, or
    [downloadNovel] can resume. *)
Lemma machine_progress (K : nat) (m : mstate) :
  1 <= K -> finished m = false ->
  exists c m', machine_step W novel report K m c = Some m'.
Proof.
  intros HK Hf. unfold machine_step. rewrite Hf.
  destruct (running m) as [|i run] eqn:Er.
  - destruct (waiting m) as [|i rest] eqn:Ew.
    + exists Resume.
      destruct (mpass m <? MAX_RETRY_PASSES); [|eauto].
      destruct (failedIndices (fragments (mjs m))); eauto.
    + exists StartNext. cbn [length].
      destruct (Nat.ltb_spec 0 K) as [_|H]; [eauto|lia].
  - exists (Finish i). rewrite bool_decide_eq_true_2 by left. eauto.
Qed.

End LimiterRefinement.

(** Every run of the limiter that ends a job ends it in a state of the
    passes of [downloadNovel], for some order in which the tasks of each
    pass complete: what holds of the passes for every such order holds of
    the job under the limiter. *)
Lemma machine_refines_passes :
  forall (W : Job.World) (novel : Job.Novel) (report : bool) (K : nat)
         (tr : list Job.event) (cs : list Job.choice) (m : Job.mstate),
    Job.machine_run W novel report K (Job.machine_init novel tr) cs = Some m ->
    Job.finished m = true ->
    exists sched,
      (forall pass tasks, sched pass tasks ≡ₚ tasks)
      /\ Job.mjs m = Job.after_retries (Job.with_schedule W sched) novel report tr.
Proof.
  intros W novel report K tr cs m Hrun Hfin.
  destruct (machine_run_refines W novel report tr K cs _ m Hrun
              (refines_init W novel report tr))
    as (sched & Hperm & _ & H).
  rewrite Hfin in H. eauto.
Qed.

(** C9.  At every moment of a job, in the initial pass (pass 0) and in the
    retry passes (1 and 2), at most [K] fragment fetch tasks are pending. *)
Theorem at_most_K_tasks_pending :
  forall (W : Job.World) (novel : Job.Novel) (report : bool) (K : nat)
         (tr : list Job.event) (cs : list Job.choice) (m : Job.mstate),
    Job.machine_run W novel report K (Job.machine_init novel tr) cs = Some m ->
    length (Job.running m) <= K /\ Job.mpass m <= 2.
Proof.
  intros W novel report K tr cs m Hrun.
  apply (machine_run_running W novel report K cs _ m Hrun).
  simpl. unfold Job.MAX_RETRY_PASSES. lia.
Qed.

Lemma at_most_K_tasks_pending_witness :
  exists m,
    Job.machine_run (Job.sample_world (fun _ ts => ts)) Job.sample_novel true 2
      (Job.machine_init Job.sample_novel [])
      [Job.StartNext; Job.StartNext; Job.Finish 1; Job.StartNext; Job.Finish 0;
       Job.Finish 2; Job.Resume; Job.StartNext]
    = Some m
    /\ length (Job.running m) <= 2 /\ Job.mpass m <= 2.
Proof.
  destruct (Job.machine_run (Job.sample_world (fun _ ts => ts)) Job.sample_novel true 2
              (Job.machine_init Job.sample_novel [])
              [Job.StartNext; Job.StartNext; Job.Finish 1; Job.StartNext; Job.Finish 0;
               Job.Finish 2; Job.Resume; Job.StartNext]) as [m|] eqn:E.
  - exists m. split; [reflexivity|].
    exact (at_most_K_tasks_pending _ _ _ _ _ _ _ E).
  - vm_compute in E. discriminate E.
Defined.

(** ** More of the code: back-off, the library, the scraper and the pool *)

Section BackoffFacts.
Import Fetcher Backoff.

Lemma retry_loop_delays (fn : fstate -> run) delayMs :
  (forall st r st', fn st = Done r st' ->
                    attempts st' = attempts st /\ delays st' = delays st
                    /\ caught st' = caught st) ->
  forall left i st r st',
    retry_loop fn delayMs left i st = Done r st' ->
    exists ds es,
      delays st' = delays st ++ ds
      /\ caught st' = caught st ++ es
      /\ length ds <= left
      /\ attempts st' = attempts st + S (length ds)
      /\ (forall k d, ds !! k = Some d ->
            exists err,
              es !! k = Some err
              /\ d = if includes err (lit "429")
                     then (delayMs * 2 ^ Z.of_nat (i + k))%Z
                     else (delayMs * (Z.of_nat (i + k) + 1))%Z)
      /\ (forall v, r = Resolved v -> length es = length ds)
      /\ (forall msg, r = Rejected msg ->
            length ds = left /\ es !! left = Some msg).
Proof.
  intros Hfn. induction left as [|left IH]; intros i st r st'; cbn [retry_loop].
  - destruct (fn _) as [[v|err] st1| |st1] eqn:E; [| |discriminate|discriminate];
      intros [= <- <-]; destruct (Hfn _ _ _ E) as (Ha & Hd & Hc); cbn in Ha, Hd, Hc.
    + exists [], []. rewrite !app_nil_r, Ha, Hd, Hc. cbn.
      repeat split; try lia; try discriminate;
        intros k d Hk; now rewrite lookup_nil in Hk.
    + exists [], [err]. cbn [attempts delays caught]. rewrite app_nil_r, Ha, Hd, Hc. cbn.
      split; [reflexivity|]. split; [reflexivity|]. split; [lia|]. split; [lia|].
      split; [intros k d Hk; now rewrite lookup_nil in Hk|].
      split; [discriminate|]. intros ? [= ->]. split; reflexivity.
  - destruct (fn _) as [[v|err] st1| |st1] eqn:E; [| |discriminate|discriminate].
    + intros [= <- <-]. destruct (Hfn _ _ _ E) as (Ha & Hd & Hc). cbn in Ha, Hd, Hc.
      exists [], []. rewrite !app_nil_r, Ha, Hd, Hc. cbn.
      repeat split; try lia; try discriminate;
        intros k d Hk; now rewrite lookup_nil in Hk.
    + intros H. destruct (Hfn _ _ _ E) as (Ha & Hd & Hc). cbn in Ha, Hd, Hc.
      destruct (IH _ _ _ _ H) as (ds & es & H1 & H1' & H2 & H3 & H4 & H5 & H6).
      cbn [delays attempts caught] in H1, H1', H3.
      exists (backoff delayMs i err :: ds), (err :: es). cbn [length].
      split; [now rewrite H1, Hd, <- app_assoc|].
      split; [now rewrite H1', Hc, <- app_assoc|].
      split; [lia|]. split; [lia|]. split; [|split].
      * intros [|k] d Hk.
        -- cbn in Hk. injection Hk as <-. rewrite Nat.add_0_r.
           exists err. split; reflexivity.
        -- cbn in Hk. destruct (H4 k d Hk) as (err' & He & Hd').
           exists err'. split; [exact He|].
           now replace (i + S k) with (S i + k) by lia.
      * intros v Hr. f_equal. now apply (H5 v).
      * intros msg Hr. destruct (H6 msg Hr) as [Hlen Hlast].
        split; [now f_equal | exact Hlast].
Qed.

Lemma includes_app_r a b sub : includes b sub = true -> includes (a ++ b) sub = true.
Proof.
  intros H. induction a as [|c a IH]; [exact H|].
  cbn [app includes]. rewrite IH. apply orb_true_r.
Qed.

Lemma includes_app_l a b sub : includes a sub = true -> includes (a ++ b) sub = true.
Proof.
  assert (Hsw : forall s x y, starts_with s x = true -> starts_with s (x ++ y) = true).
  { induction s as [|c s IHs]; intros x y; [reflexivity|].
    destruct x as [|d x]; [discriminate|]. cbn [starts_with app].
    intros [H1 H2]%andb_prop. rewrite H1. cbn. now apply IHs. }
  induction a as [|c a IH]; intros H.
  - cbn [includes] in H. rewrite orb_false_r in H. destruct sub; [|discriminate].
    destruct b; reflexivity.
  - cbn [includes app] in *. apply orb_prop in H as [H|H].
    + change (c :: a ++ b) with ((c :: a) ++ b). now rewrite (Hsw _ _ _ H).
    + rewrite (IH H). apply orb_true_r.
Qed.

End BackoffFacts.

(** X1.  The waits of one fetch.  There is one wait between two attempts,
    at most five in all; the wait number [k] (from 0) follows the error
    number [k] that [retry] caught, and it is [3000 * 2^k] ms when the
    message of that error holds [429] and [3000 * (k + 1)] ms when it does
    not; a fetch waits at most 93 s in all, and one that rejects has made
    six attempts, waited at least 45 s and throws the sixth error. *)
Theorem fetch_backoff_schedule :
  forall (net : Fetcher.network) (late : Fetcher.late_events)
         (resolve_url : list N -> list N -> option (list N))
         (fuel : nat) (url : list N) (r : outcome (list N)) (st : Fetcher.fstate),
    Fetcher.fetch net late resolve_url fuel url = Fetcher.Done r st ->
    Fetcher.attempts st = S (length (Fetcher.delays st))
    /\ length (Fetcher.delays st) <= 5
    /\ (forall k d, Fetcher.delays st !! k = Some d ->
          exists err,
            Fetcher.caught st !! k = Some err
            /\ d = if includes err (lit "429")
                   then (3000 * 2 ^ Z.of_nat k)%Z
                   else (3000 * (Z.of_nat k + 1))%Z)
    /\ (Backoff.total_delay st <= 93000)%Z
    /\ (forall v, r = Resolved v ->
          length (Fetcher.caught st) = length (Fetcher.delays st))
    /\ (forall msg, r = Rejected msg ->
          Fetcher.attempts st = 6 /\ (45000 <= Backoff.total_delay st)%Z
          /\ Fetcher.caught st !! 5 = Some msg).
Proof.
  intros net late resolve_url fuel url r st Hf. unfold Fetcher.fetch, Fetcher.retry in Hf.
  assert (Hfn : forall s0 r0 s1,
            Fetcher.fetchWithBypassRaw net late resolve_url fuel url s0 = Fetcher.Done r0 s1 ->
            Fetcher.attempts s1 = Fetcher.attempts s0
            /\ Fetcher.delays s1 = Fetcher.delays s0
            /\ Fetcher.caught s1 = Fetcher.caught s0).
  { intros s0 r0 s1 H.
    now destruct (fetchWithBypassRaw_effects _ _ _ _ _ _ _ _ H) as (_ & ? & ? & ? & _). }
  destruct (retry_loop_delays _ Fetcher.default_delayMs Hfn _ _ _ _ _ Hf)
    as (ds & es & H1 & H1' & H2 & H3 & H4 & H5 & H6).
  cbn in H1, H1', H3. unfold Fetcher.default_retries in H2, H6.
  unfold Fetcher.default_delayMs in H4. cbn [Nat.add] in H4.
  unfold Backoff.total_delay. rewrite H1, H1', H3.
  split; [reflexivity|]. split; [exact H2|]. split; [exact H4|].
  assert (Hb : forall k d, ds !! k = Some d -> k < 5 ->
                 (3000 * (Z.of_nat k + 1) <= d <= 3000 * 2 ^ Z.of_nat k)%Z).
  { intros k d Hk Hlt. destruct (H4 k d Hk) as (err & _ & ->).
    destruct (includes err (lit "429")).
    - split; [|lia]. do 5 (destruct k as [|k]; [cbn; lia|]). lia.
    - split; [lia|]. do 5 (destruct k as [|k]; [cbn; lia|]). lia. }
  assert (Htot : (fold_right Z.add 0 ds <= 93000)%Z
                 /\ (length ds = 5 -> (45000 <= fold_right Z.add 0 ds)%Z)).
  { destruct ds as [|d0 [|d1 [|d2 [|d3 [|d4 [|d5 ds]]]]]]; cbn [length] in H2; try lia.
    all: try (pose proof (Hb 0 _ eq_refl ltac:(lia)) as B0; cbn in B0).
    all: try (pose proof (Hb 1 _ eq_refl ltac:(lia)) as B1; cbn in B1).
    all: try (pose proof (Hb 2 _ eq_refl ltac:(lia)) as B2; cbn in B2).
    all: try (pose proof (Hb 3 _ eq_refl ltac:(lia)) as B3; cbn in B3).
    all: try (pose proof (Hb 4 _ eq_refl ltac:(lia)) as B4; cbn in B4).
    all: cbn [fold_right length]; split; [lia|]; intros Hlen; first [discriminate | lia]. }
  destruct Htot as [Hle Hge].
  split; [exact Hle|]. split; [exact H5|].
  intros msg Hr. destruct (H6 msg Hr) as [Hlen Hlast].
  rewrite Hlen. split; [reflexivity|]. split; [now apply Hge | exact Hlast].
Qed.

(** A server whose answers are in turn a rate limit (429) and an error
    (500): the waits are 3 s, 6 s, 12 s, 12 s and 48 s. *)
Lemma fetch_backoff_schedule_witness :
  exists r st,
    Fetcher.fetch Backoff.limit_then_error Fetcher.quiet Fetcher.absolute 1 (lit "u")
    = Fetcher.Done r st
    /\ Fetcher.attempts st = S (length (Fetcher.delays st))
    /\ Fetcher.delays st = [3000; 6000; 12000; 12000; 48000]%Z
    /\ (forall d, Fetcher.delays st !! 3 = Some d ->
          exists err,
            Fetcher.caught st !! 3 = Some err
            /\ d = if includes err (lit "429")
                   then (3000 * 2 ^ Z.of_nat 3)%Z
                   else (3000 * (Z.of_nat 3 + 1))%Z)
    /\ (Backoff.total_delay st <= 93000)%Z.
Proof.
  destruct (Fetcher.fetch Backoff.limit_then_error Fetcher.quiet Fetcher.absolute 1 (lit "u"))
    as [r st| |st] eqn:E.
  - exists r, st. split; [reflexivity|].
    destruct (fetch_backoff_schedule _ _ _ _ _ _ _ E) as (H1 & _ & H3 & H4 & _).
    split; [exact H1|]. split; [|split; [exact (H3 3)|exact H4]].
    vm_compute in E. injection E as _ <-. reflexivity.
  - vm_compute in E. discriminate.
  - vm_compute in E. discriminate.
Defined.

Section RateLimitFacts.
Import Fetcher Backoff.

Lemma retry_loop_rate_limited (fn : fstate -> run) delayMs :
  (forall st, exists msg,
      fn st = Done (Rejected msg)
                (mkF (S (requests st)) (attempts st) (delays st) (abandoned st)
                     (caught st))
      /\ includes msg (lit "429") = true) ->
  forall left i st, exists msg st',
    retry_loop fn delayMs left i st = Done (Rejected msg) st'
    /\ requests st' = requests st + S left
    /\ attempts st' = attempts st + S left
    /\ delays st'
       = delays st ++ List.map (fun k => (delayMs * 2 ^ Z.of_nat (i + k))%Z) (seq 0 left)
    /\ includes msg (lit "429") = true.
Proof.
  intros Hfn. induction left as [|left IH]; intros i st; cbn [retry_loop].
  - destruct (Hfn (mkF (requests st) (S (attempts st)) (delays st) (abandoned st)
                       (caught st)))
      as (msg & -> & Hm).
    exists msg. eexists. split; [reflexivity|]. cbn. rewrite app_nil_r.
    repeat split; try lia. exact Hm.
  - destruct (Hfn (mkF (requests st) (S (attempts st)) (delays st) (abandoned st)
                       (caught st)))
      as (msg & -> & Hm).
    cbn [requests attempts delays abandoned caught].
    destruct (IH (S i) (mkF (S (requests st)) (S (attempts st))
                           (delays st ++ [backoff delayMs i msg]) (abandoned st)
                           (caught st ++ [msg])))
      as (msg2 & st2 & -> & Hr2 & Ha2 & Hd2 & Hm2).
    exists msg2, st2. split; [reflexivity|].
    cbn [requests attempts delays] in Hr2, Ha2, Hd2.
    split; [lia|]. split; [lia|]. split; [|exact Hm2].
    rewrite Hd2. unfold backoff. rewrite Hm. rewrite <- app_assoc. cbn [app seq List.map].
    rewrite Nat.add_0_r, <- seq_shift, map_map.
    do 2 f_equal.
    apply map_ext. intros k. now replace (S i + k) with (i + S k) by lia.
Qed.

End RateLimitFacts.

(** X2.  [retry] takes an error for a rate limit when its message holds
    [429], and the message of an HTTP error ends with the URL: on a URL
    that holds [429], a server that answers every request with an error
    status (any but 429 too) is waited for 3, 6, 12, 24 and 48 s, the
    waits of a rate limit, before the sixth request fails the fetch. *)
Theorem error_on_url_with_429_is_rate_limit :
  forall (net : Fetcher.network) (late : Fetcher.late_events)
         (resolve_url : list N -> list N -> option (list N))
         (fuel : nat) (url : list N),
    (forall n u, exists code body,
        net n u = Fetcher.Response code None body /\ (code < 200 \/ 300 <= code)%Z) ->
    includes url (lit "429") = true ->
    exists msg st,
      Fetcher.fetch net late resolve_url (S fuel) url = Fetcher.Done (Rejected msg) st
      /\ Fetcher.requests st = 6
      /\ Fetcher.delays st = [3000; 6000; 12000; 24000; 48000]%Z.
Proof.
  intros net late resolve_url fuel url Hnet Hurl.
  destruct (retry_loop_rate_limited
              (Fetcher.fetchWithBypassRaw net late resolve_url (S fuel) url)
              Fetcher.default_delayMs) with (left := Fetcher.default_retries) (i := 0)
              (st := Fetcher.fstate0) as (msg & st & Hrun & Hr & _ & Hd & _).
  - intros st. cbn [Fetcher.fetchWithBypassRaw].
    destruct (Hnet (Fetcher.requests st) url) as (code & body & -> & Hcode).
    cbn [Fetcher.is_redirect].
    assert (Hc : ((code <? 200)%Z || (300 <=? code)%Z) = true).
    { apply orb_true_iff. destruct Hcode; [left; now apply Z.ltb_lt | right; now apply Z.leb_le]. }
    rewrite Hc. eexists. split; [reflexivity|].
    rewrite !app_assoc. now apply includes_app_r.
  - exists msg, st. split; [exact Hrun|]. split; [exact Hr | exact Hd].
Qed.

Lemma error_on_url_with_429_is_rate_limit_witness :
  exists msg st,
    Fetcher.fetch (Backoff.always_status 503) Fetcher.quiet Fetcher.absolute 1
      (lit "/chapter-429")
    = Fetcher.Done (Rejected msg) st
    /\ Fetcher.requests st = 6
    /\ Fetcher.delays st = [3000; 6000; 12000; 24000; 48000]%Z.
Proof.
  apply (error_on_url_with_429_is_rate_limit (Backoff.always_status 503) Fetcher.quiet
           Fetcher.absolute 0 (lit "/chapter-429")).
  - intros n u. exists 503%Z, (Resolved []). split; [reflexivity | right; lia].
  - vm_compute. reflexivity.
Defined.

Section ResolveFacts.
Import Fetcher.
Variable net : network.
Variable late : late_events.
Variable resolve_url : list N -> list N -> option (list N).

(** A call that resolves got its value as the body of its last response,
    whose status was between 200 and 299. *)
Lemma fetchWithBypassRaw_resolved fuel : forall url st v st',
  fetchWithBypassRaw net late resolve_url fuel url st = Done (Resolved v) st' ->
  exists u code location,
    net (requests st' - 1) u = Response code location (Resolved v)
    /\ (200 <= code < 300)%Z /\ requests st < requests st'.
Proof.
  induction fuel as [|fuel IH]; intros url st v st'; cbn [fetchWithBypassRaw]; [discriminate|].
  destruct (net (requests st) url) as [code loc body|msg] eqn:En; [|discriminate].
  destruct (is_redirect code loc) as [target|].
  - destruct (resolve_url target url) as [redirectUrl|]; [|discriminate].
    destruct (late (requests st)); [discriminate|].
    intros H. destruct (IH _ _ _ _ H) as (u & c & l & H1 & H2 & H3).
    cbn [requests] in H3. exists u, c, l. repeat split; try assumption; lia.
  - destruct ((code <? 200)%Z || (300 <=? code)%Z) eqn:Ec; [discriminate|].
    intros [= -> <-]. cbn [requests].
    replace (S (requests st) - 1) with (requests st) by lia.
    exists url, code, loc. apply orb_false_elim in Ec as [E1 E2].
    apply Z.ltb_ge in E1. apply Z.leb_gt in E2. repeat split; try assumption; lia.
Qed.

Lemma retry_loop_resolved (fn : fstate -> run) delayMs
    (P : list N -> fstate -> Prop) :
  (forall st v st', fn st = Done (Resolved v) st' -> P v st') ->
  forall left i st v st',
    retry_loop fn delayMs left i st = Done (Resolved v) st' -> P v st'.
Proof.
  intros Hfn. induction left as [|left IH]; intros i st v st'; cbn [retry_loop].
  - destruct (fn _) as [[w|err] st1| |st1] eqn:E; [| |discriminate|discriminate].
    + intros [= <- <-]. now apply (Hfn _ _ _ E).
    + discriminate.
  - destruct (fn _) as [[w|err] st1| |st1] eqn:E; [| |discriminate|discriminate].
    + intros [= <- <-]. now apply (Hfn _ _ _ E).
    + apply IH.
Qed.

End ResolveFacts.

(** X3.  A fetch resolves only with the body of a response whose status is
    between 200 and 299, the response to its last request: the page of an
    error status, or of a redirect without [location], is never taken for
    the page asked for. *)
Theorem fetch_resolves_only_on_2xx :
  forall (net : Fetcher.network) (late : Fetcher.late_events)
         (resolve_url : list N -> list N -> option (list N))
         (fuel : nat) (url v : list N) (st : Fetcher.fstate),
    Fetcher.fetch net late resolve_url fuel url = Fetcher.Done (Resolved v) st ->
    exists u code location,
      net (Fetcher.requests st - 1) u = Fetcher.Response code location (Resolved v)
      /\ (200 <= code < 300)%Z.
Proof.
  intros net late resolve_url fuel url v st Hf. unfold Fetcher.fetch, Fetcher.retry in Hf.
  apply (retry_loop_resolved (Fetcher.fetchWithBypassRaw net late resolve_url fuel url)
           Fetcher.default_delayMs
           (fun v st => exists u code location,
              net (Fetcher.requests st - 1) u = Fetcher.Response code location (Resolved v)
              /\ (200 <= code < 300)%Z)) in Hf; [exact Hf|].
  intros s0 w s1 H.
  destruct (fetchWithBypassRaw_resolved net late resolve_url fuel url s0 w s1 H)
    as (u & code & loc & H1 & H2 & _).
  eauto.
Qed.

Lemma fetch_resolves_only_on_2xx_witness :
  exists u code location,
    Fetcher.redirect_chain 2 (lit "page") (3 - 1) u
    = Fetcher.Response code location (Resolved (lit "page"))
    /\ (200 <= code < 300)%Z.
Proof.
  apply (fetch_resolves_only_on_2xx (Fetcher.redirect_chain 2 (lit "page")) Fetcher.quiet
           Fetcher.absolute 3 (lit "u") (lit "page") (Fetcher.mkF 3 1 [] [] [])).
  vm_compute. reflexivity.
Defined.

Section SlugFacts.
Import Library.

Lemma dash_from_units b s : Forall slug_unit (dash_from b s).
Proof.
  revert b. induction s as [|c t IH]; intros b; [constructor|].
  cbn [dash_from]. destruct (is_slug_char c) eqn:E.
  - constructor; [now left | apply IH].
  - destruct b; [apply IH|]. constructor; [now right | apply IH].
Qed.

Lemma is_slug_char_dash : is_slug_char 45 = false.
Proof. reflexivity. Qed.

Lemma dash_from_head_run s : head (dash_from true s) <> Some 45%N.
Proof.
  induction s as [|c t IH]; [discriminate|].
  cbn [dash_from]. destruct (is_slug_char c) eqn:E; [|exact IH].
  cbn. intros [= ->]. discriminate.
Qed.

Lemma dash_from_no_double b s : no_double_dash (dash_from b s).
Proof.
  revert b. induction s as [|c t IH]; intros b; [exact I|].
  cbn [dash_from]. destruct (is_slug_char c) eqn:E.
  - split; [|apply IH]. intros ->. discriminate.
  - destruct b; [apply IH|]. split; [|apply IH]. intros _. apply dash_from_head_run.
Qed.

Lemma drop_last_dash_units s : Forall slug_unit s -> Forall slug_unit (drop_last_dash s).
Proof.
  induction s as [|c t IH]; intros H; [constructor|].
  apply Forall_cons in H as [Hc Ht]. cbn [drop_last_dash].
  destruct t as [|d t'].
  - destruct (c =? 45)%N; constructor; [exact Hc | constructor].
  - constructor; [exact Hc | now apply IH].
Qed.

Lemma drop_last_dash_head s :
  head s <> Some 45%N -> head (drop_last_dash s) <> Some 45%N.
Proof.
  destruct s as [|c t]; intros H; [discriminate|]. cbn [drop_last_dash].
  destruct t as [|d t']; [|exact H].
  destruct (N.eqb_spec c 45) as [->|Hc]; [discriminate|exact H].
Qed.

Lemma no_double_dash_tail_head c t :
  no_double_dash (c :: t) -> c = 45%N -> head t <> Some 45%N.
Proof. intros [H _]. exact H. Qed.

Lemma drop_last_dash_head_eq c d t :
  head (drop_last_dash (c :: d :: t)) = Some c.
Proof. reflexivity. Qed.

Lemma drop_last_dash_no_double s :
  no_double_dash s -> no_double_dash (drop_last_dash s).
Proof.
  induction s as [|c t IH]; intros H; [exact I|].
  destruct H as [Hc Ht]. cbn [drop_last_dash]. destruct t as [|d t'].
  - destruct (c =? 45)%N; [exact I|]. split; [intros _; discriminate | exact I].
  - split; [|now apply IH]. intros E. specialize (Hc E).
    destruct t' as [|e t'']; cbn [drop_last_dash].
    + destruct (d =? 45)%N; [discriminate | exact Hc].
    + exact Hc.
Qed.

Lemma drop_last_dash_last s :
  no_double_dash s -> last (drop_last_dash s) <> Some 45%N.
Proof.
  induction s as [|c t IH]; intros H; [discriminate|].
  destruct H as [Hc Ht]. cbn [drop_last_dash]. destruct t as [|d t'].
  - destruct (N.eqb_spec c 45) as [E|Hne]; [discriminate|]. cbn. congruence.
  - specialize (IH Ht). destruct t' as [|e t''].
    + cbn [drop_last_dash] in *. destruct (N.eqb_spec d 45) as [E|Hne].
      * cbn. intros [= E']. apply (Hc E'). cbn. now rewrite E.
      * cbn. congruence.
    + change (drop_last_dash (d :: e :: t'')) with (d :: drop_last_dash (e :: t'')) in *.
      rewrite last_cons_cons. exact IH.
Qed.

Lemma strip_edge_dashes_slug s :
  Forall slug_unit s -> no_double_dash s -> is_slug (strip_edge_dashes s).
Proof.
  intros Hu Hnd. destruct s as [|c t]; [repeat split; try discriminate; constructor|].
  cbn [strip_edge_dashes]. apply Forall_cons in Hu as [Hc Ht].
  destruct (N.eqb_spec c 45) as [->|Hne].
  - destruct Hnd as [Hh Hnd]. repeat split.
    + now apply drop_last_dash_units.
    + now apply drop_last_dash_no_double.
    + apply drop_last_dash_head. now apply Hh.
    + now apply drop_last_dash_last.
  - repeat split.
    + apply drop_last_dash_units. now constructor.
    + now apply drop_last_dash_no_double.
    + apply drop_last_dash_head. cbn. congruence.
    + now apply drop_last_dash_last.
Qed.

Lemma dash_from_slug_id s :
  Forall slug_unit s -> no_double_dash s -> dash_from false s = s.
Proof.
  induction s as [|c t IH]; intros Hu Hnd; [reflexivity|].
  apply Forall_cons in Hu as [Hc Ht]. destruct Hnd as [Hh Hnd].
  cbn [dash_from]. destruct (is_slug_char c) eqn:E.
  - f_equal. now apply IH.
  - destruct Hc as [Hc| ->]; [congruence|]. f_equal.
    specialize (Hh eq_refl). destruct t as [|d t']; [reflexivity|].
    cbn [dash_from]. apply Forall_cons in Ht as [Hd Ht'].
    destruct (is_slug_char d) eqn:Ed.
    + pose proof (IH (Forall_cons_2 _ _ _ Hd Ht') Hnd) as H.
      cbn [dash_from] in H. rewrite Ed in H. exact H.
    + destruct Hd as [Hd| ->]; [congruence|]. now contradiction Hh.
Qed.

Lemma drop_last_dash_id s : last s <> Some 45%N -> drop_last_dash s = s.
Proof.
  induction s as [|c t IH]; intros H; [reflexivity|].
  cbn [drop_last_dash]. destruct t as [|d t'].
  - destruct (N.eqb_spec c 45) as [->|Hne]; [now contradiction H | reflexivity].
  - f_equal. apply IH. now rewrite last_cons_cons in H.
Qed.

Lemma strip_edge_dashes_id s :
  head s <> Some 45%N -> last s <> Some 45%N -> strip_edge_dashes s = s.
Proof.
  intros Hh Hl. destruct s as [|c t]; [reflexivity|]. cbn [strip_edge_dashes].
  destruct (N.eqb_spec c 45) as [->|Hne]; [now contradiction Hh|].
  now apply drop_last_dash_id.
Qed.

Lemma slugify_is_slug tl title : is_slug (slugify tl title).
Proof.
  unfold slugify. apply strip_edge_dashes_slug;
    [apply dash_from_units | apply dash_from_no_double].
Qed.

Lemma ascii_toLowerCase_slug s : is_slug s -> ascii_toLowerCase s = s.
Proof.
  intros (Hu & _). unfold ascii_toLowerCase. induction Hu as [|c t Hc Ht IH]; [reflexivity|].
  cbn [List.map]. rewrite IH. f_equal.
  destruct ((65 <=? c) && (c <=? 90))%N eqn:E; [|reflexivity].
  apply andb_prop in E as [E1 E2]. apply N.leb_le in E1, E2.
  destruct Hc as [Hc | ->]; [|lia]. unfold is_slug_char in Hc.
  apply orb_prop in Hc as [Hc|Hc]; apply andb_prop in Hc as [H1 H2];
    apply N.leb_le in H1, H2; lia.
Qed.

End SlugFacts.

(** X4.  Whatever the title, a slug is made of lower-case letters, digits
    and hyphens only, with no hyphen at either end and no two hyphens in a
    row; and a slug is its own slug when lower-casing leaves such strings
    alone. *)
Theorem slugify_shape_and_fixpoint :
  forall (toLowerCase : list N -> list N) (title : list N),
    Library.is_slug (Library.slugify toLowerCase title)
    /\ ((forall s, Library.is_slug s -> toLowerCase s = s) ->
        Library.slugify toLowerCase (Library.slugify toLowerCase title)
        = Library.slugify toLowerCase title).
Proof.
  intros tl title. split; [apply slugify_is_slug|].
  intros Hfix. pose proof (slugify_is_slug tl title) as Hs.
  unfold Library.slugify at 1. rewrite (Hfix _ Hs).
  destruct Hs as (Hu & Hnd & Hh & Hl).
  rewrite dash_from_slug_id by assumption. now apply strip_edge_dashes_id.
Qed.

Lemma slugify_shape_and_fixpoint_witness :
  Library.slugify Library.ascii_toLowerCase
    (Library.slugify Library.ascii_toLowerCase (lit "The Way: Home!"))
  = Library.slugify Library.ascii_toLowerCase (lit "The Way: Home!").
Proof.
  apply (proj2 (slugify_shape_and_fixpoint Library.ascii_toLowerCase (lit "The Way: Home!"))).
  apply ascii_toLowerCase_slug.
Defined.

Section SyncFacts.
Import Library Sync.
Variable toLowerCase : list N -> list N.
Variable W : World.
Variable inputDir outputDir : list N.

Lemma string_slugs_app l1 l2 :
  string_slugs (l1 ++ l2) = string_slugs l1 ++ string_slugs l2.
Proof. unfold string_slugs. apply omap_app. Qed.

Lemma slugs_of_spec l slugs : slugs_of l = Resolved slugs -> slugs = string_slugs l.
Proof.
  revert slugs. induction l as [|e l IH]; intros slugs; cbn [slugs_of].
  - now intros [= <-].
  - unfold string_slugs. cbn [omap list_omap]. fold (string_slugs l).
    destruct (slug_of e) as [v|err]; [|discriminate].
    destruct (slugs_of l) as [sl|err]; [|discriminate].
    intros [= <-]. rewrite (IH sl eq_refl).
    destruct v as [[]|]; reflexivity.
Qed.

Lemma slugs_of_app l1 l2 s1 s2 :
  slugs_of l1 = Resolved s1 -> slugs_of l2 = Resolved s2 ->
  slugs_of (l1 ++ l2) = Resolved (s1 ++ s2).
Proof.
  revert s1. induction l1 as [|e l1 IH]; intros s1; cbn [slugs_of app].
  - now intros [= <-].
  - destruct (slug_of e) as [v|err]; [|discriminate].
    destruct (slugs_of l1) as [sl|err]; [|discriminate].
    intros [= <-] H2. rewrite (IH sl eq_refl H2).
    destruct v as [[]|]; reflexivity.
Qed.

Local Abbreviation loop := (sync_loop toLowerCase W inputDir outputDir).

(** What the loop of [syncLibrary] adds. *)
Lemma sync_loop_spec files : forall manifest slugs k tr m' k' tr',
  loop files manifest slugs k tr = (Resolved (m', k'), tr') ->
  exists added copies,
    m' = manifest ++ added /\ k' = k + length added /\ tr' = tr ++ copies
    /\ slugs_of added = Resolved (string_slugs added)
    /\ length (string_slugs added) = length added
    /\ NoDup (string_slugs added)
    /\ (forall s, s ∈ string_slugs added -> s ∉ slugs)
    /\ List.filter is_copy copies = copies /\ length copies = length added
    /\ (forall file meta,
          file ∈ files ->
          extractMetadata W (path_join W inputDir file) = Resolved (Some meta) ->
          slugify toLowerCase (m_title meta) ∈ slugs ++ string_slugs added)
    /\ (forall file, file ∈ files ->
          exists r, extractMetadata W (path_join W inputDir file) = Resolved r).
Proof.
  induction files as [|file rest IH]; intros manifest slugs k tr m' k' tr'; cbn [sync_loop].
  - intros [= <- <- <-]. exists [], []. rewrite !app_nil_r, Nat.add_0_r.
    repeat split; try constructor;
      try (intros ? Hin; now apply elem_of_nil in Hin);
      try (intros ? ? Hin; now apply elem_of_nil in Hin).
  - destruct (extractMetadata W (path_join W inputDir file)) as [[meta|]|err] eqn:Em;
      [| |discriminate].
    + case_bool_decide as Hin.
      * intros H. destruct (IH _ _ _ _ _ _ _ H)
          as (added & copies & H1 & H2 & H3 & H4 & H5 & H6 & H7 & H8 & H9 & H10 & H11).
        exists added, copies. repeat split; try assumption.
        -- intros f mt [->|Hf]%elem_of_cons Hmt.
           ++ rewrite Em in Hmt. injection Hmt as <-. apply elem_of_app. now left.
           ++ now apply (H10 f).
        -- intros f [->|Hf]%elem_of_cons; [eauto | now apply H11].
      * destruct (statSync W (path_join W inputDir file)) as [size|err]; [|discriminate].
        destruct (copyFileSync W _ _) as [u|err]; [|discriminate].
        intros H. destruct (IH _ _ _ _ _ _ _ H)
          as (added & copies & H1 & H2 & H3 & H4 & H5 & H6 & H7 & H8 & H9 & H10 & H11).
        set (slug := slugify toLowerCase (m_title meta)) in *.
        set (e := entry slug (slug ++ lit ".epub") meta size) in *.
        assert (He : string_slugs [e] = [slug]) by reflexivity.
        assert (Hse : slugs_of [e] = Resolved [slug]) by reflexivity.
        exists (e :: added), (EvCopy (path_join W inputDir file)
                                (path_join W outputDir (slug ++ lit ".epub")) :: copies).
        change (e :: added) with ([e] ++ added).
        rewrite string_slugs_app, He. cbn [app length].
        split; [now rewrite H1, <- app_assoc|].
        split; [lia|]. split; [now rewrite H3, <- app_assoc|].
        split; [apply (slugs_of_app [e] added [slug]); assumption|].
        split; [now rewrite H5|].
        split.
        { constructor; [|exact H6]. intros Hs. apply (H7 _ Hs).
          apply elem_of_app. right. left. }
        split.
        { intros s [->|Hs]%elem_of_cons; [exact Hin|].
          intros Hs'. apply (H7 _ Hs). apply elem_of_app. now left. }
        split; [cbn [List.filter is_copy]; now rewrite H8|].
        split; [now rewrite H9|].
        split.
        -- intros f mt [->|Hf]%elem_of_cons Hmt.
           ++ rewrite Em in Hmt. injection Hmt as <-. apply elem_of_app. right. left.
           ++ specialize (H10 f mt Hf Hmt). rewrite <- app_assoc in H10. exact H10.
        -- intros f [->|Hf]%elem_of_cons; [eauto | now apply H11].
    + intros H. destruct (IH _ _ _ _ _ _ _ H)
        as (added & copies & H1 & H2 & H3 & H4 & H5 & H6 & H7 & H8 & H9 & H10 & H11).
      exists added, copies. repeat split; try assumption.
      * intros f mt [->|Hf]%elem_of_cons Hmt; [congruence | now apply (H10 f)].
      * intros f [->|Hf]%elem_of_cons; [eauto | now apply H11].
Qed.

(** Files whose slug is known are passed over. *)
Lemma sync_loop_skip files manifest slugs k tr :
  (forall file, file ∈ files ->
     exists r, extractMetadata W (path_join W inputDir file) = Resolved r) ->
  (forall file meta, file ∈ files ->
     extractMetadata W (path_join W inputDir file) = Resolved (Some meta) ->
     slugify toLowerCase (m_title meta) ∈ slugs) ->
  loop files manifest slugs k tr = (Resolved (manifest, k), tr).
Proof.
  induction files as [|file rest IH]; intros Hres Hknown; [reflexivity|].
  cbn [sync_loop]. destruct (Hres file) as [r Hr]; [left|]. rewrite Hr.
  assert (Hrest : loop rest manifest slugs k tr = (Resolved (manifest, k), tr)).
  { apply IH; intros f; [intros Hf | intros mt Hf]; [apply Hres | apply Hknown]; now right. }
  destruct r as [meta|]; [|exact Hrest].
  rewrite bool_decide_eq_true_2; [exact Hrest|]. apply (Hknown file); [left | exact Hr].
Qed.

(** Without a known slug and without two files of the same slug, the loop
    of [syncLibrary] does what the loop of the build script does. *)
Lemma build_loop_sync files : forall manifest slugs k tr m tr',
  build_loop toLowerCase W inputDir outputDir files manifest tr = (Resolved m, tr') ->
  slugs_of manifest = Resolved slugs ->
  NoDup (string_slugs m) ->
  exists k', loop files manifest slugs k tr = (Resolved (m, k'), tr').
Proof.
  induction files as [|file rest IH]; intros manifest slugs k tr m tr';
    cbn [build_loop sync_loop].
  - intros [= <- <-] _ _. eauto.
  - destruct (extractMetadata W (path_join W inputDir file)) as [[meta|]|err] eqn:Em;
      [| |discriminate].
    + destruct (statSync W (path_join W inputDir file)) as [size|err]; [|discriminate].
      destruct (copyFileSync W _ _) as [u|err]; [|discriminate].
      intros Hb Hsl Hnd.
      set (slug := slugify toLowerCase (m_title meta)) in *.
      set (e := entry slug (slug ++ lit ".epub") meta size) in *.
      assert (Hse : slugs_of [e] = Resolved [slug]) by reflexivity.
      pose proof (slugs_of_app manifest [e] slugs [slug] Hsl Hse) as Hsl'.
      assert (Hpre : exists more, m = (manifest ++ [e]) ++ more).
      { clear -Hb. revert Hb. generalize (manifest ++ [e]).
        generalize (tr ++ [EvCopy (path_join W inputDir file)
                             (path_join W outputDir (slug ++ lit ".epub"))]).
        induction rest as [|f rest IHr]; intros t l; cbn [build_loop].
        - intros [= <- _]. exists []. now rewrite app_nil_r.
        - destruct (extractMetadata W (path_join W inputDir f)) as [[mt|]|err];
            [| |discriminate].
          + destruct (statSync W _); [|discriminate].
            destruct (copyFileSync W _ _); [|discriminate].
            intros H. destruct (IHr _ _ H) as [more ->].
            eexists. rewrite <- !app_assoc. reflexivity.
          + apply IHr. }
      destruct Hpre as [more Hm].
      rewrite bool_decide_eq_false_2.
      * apply (IH _ _ _ _ _ _ Hb Hsl' Hnd).
      * intros Hin. rewrite (slugs_of_spec _ _ Hsl) in Hin.
        rewrite Hm, !string_slugs_app in Hnd.
        apply NoDup_app in Hnd as (Hnd & _ & _).
        apply NoDup_app in Hnd as (_ & Hdis & _).
        apply (Hdis _ Hin). left.
    + intros Hb Hsl Hnd. apply (IH _ _ _ _ _ _ Hb Hsl Hnd).
Qed.

End SyncFacts.

Lemma sync_loop_with_manifest tl W path m inD outD files : forall manifest slugs k tr,
  Sync.sync_loop tl (Sync.with_manifest W path m) inD outD files manifest slugs k tr
  = Sync.sync_loop tl W inD outD files manifest slugs k tr.
Proof.
  induction files as [|file rest IH]; intros manifest slugs k tr; [reflexivity|].
  cbn [Sync.sync_loop Sync.with_manifest Sync.path_join Sync.extractMetadata
       Sync.statSync Sync.copyFileSync].
  destruct (Sync.extractMetadata W _) as [[meta|]|]; [|apply IH|reflexivity].
  destruct (bool_decide _); [apply IH|].
  destruct (Sync.statSync W _); [|reflexivity].
  destruct (Sync.copyFileSync W _ _); [apply IH|reflexivity].
Qed.

(** X5.  [syncLibrary] keeps the entries of the manifest it finds and adds
    an entry, with one copy, for each EPUB whose slug is new: no slug is
    added twice and none that the manifest had. *)
Theorem syncLibrary_adds_each_slug_once :
  forall (toLowerCase : list N -> list N) (W : Sync.World) (inputDir outputDir : list N)
         (manifest : list Sync.json) (tr : list Sync.event),
    Sync.syncLibrary toLowerCase W inputDir outputDir = (Resolved manifest, tr) ->
    exists existing added,
      Sync.existingManifest W (Sync.path_join W outputDir (lit "manifest.json"))
      = Sync.JArr existing
      /\ manifest = existing ++ added
      /\ length (Sync.string_slugs added) = length added
      /\ NoDup (Sync.string_slugs added)
      /\ (forall s, s ∈ Sync.string_slugs added -> s ∉ Sync.string_slugs existing)
      /\ length (List.filter Sync.is_copy tr) = length added.
Proof.
  intros tl W inD outD manifest tr. unfold Sync.syncLibrary.
  destruct (Sync.mkdirSync W outD); [|discriminate].
  destruct (Sync.existingManifest W _) as [| | | |existing|] eqn:Eex; try discriminate.
  destruct (Sync.slugs_of existing) as [slugs|] eqn:Esl; [|discriminate].
  destruct (Sync.readdirSync W inD) as [names|]; [|discriminate].
  destruct (List.filter _ names) as [|file rest].
  - intros [= <- <-]. exists existing, []. rewrite app_nil_r.
    repeat split; try constructor. intros s Hs. now apply elem_of_nil in Hs.
  - destruct (Sync.sync_loop tl W inD outD (file :: rest) existing slugs 0 [])
      as [[[m k]|err] tr0] eqn:El; [|discriminate].
    destruct (Sync.writeFileSync W _ m); [|discriminate].
    intros [= <- <-].
    destruct (sync_loop_spec tl W inD outD _ _ _ _ _ _ _ _ El)
      as (added & copies & H1 & H2 & H3 & H4 & H5 & H6 & H7 & H8 & H9 & _).
    exists existing, added. rewrite (slugs_of_spec _ _ Esl) in H7.
    repeat split; try assumption.
    rewrite H3. cbn [app]. rewrite List.filter_app, H8. cbn. rewrite app_nil_r. exact H9.
Qed.

Lemma syncLibrary_adds_each_slug_once_witness :
  exists manifest tr existing added,
    Sync.syncLibrary Library.ascii_toLowerCase
      (Sync.sample_world [lit "One.epub"; lit "notes.txt"; lit "one.epub"])
      (lit "output") (lit "docs/epubs")
    = (Resolved manifest, tr)
    /\ manifest = existing ++ added
    /\ NoDup (Sync.string_slugs added)
    /\ length (List.filter Sync.is_copy tr) = length added.
Proof.
  destruct (Sync.syncLibrary Library.ascii_toLowerCase
              (Sync.sample_world [lit "One.epub"; lit "notes.txt"; lit "one.epub"])
              (lit "output") (lit "docs/epubs")) as [[manifest|err] tr] eqn:E.
  - destruct (syncLibrary_adds_each_slug_once _ _ _ _ _ _ E)
      as (existing & added & _ & H2 & _ & H4 & _ & H6).
    exists manifest, tr, existing, added. auto.
  - vm_compute in E. discriminate.
Defined.

(** X6.  A second run of [syncLibrary], on the manifest the first one
    wrote and the same EPUBs, copies nothing and resolves to that
    manifest. *)
Theorem syncLibrary_second_run_adds_nothing :
  forall (toLowerCase : list N -> list N) (W : Sync.World) (inputDir outputDir : list N)
         (manifest : list Sync.json) (tr : list Sync.event),
    Sync.syncLibrary toLowerCase W inputDir outputDir = (Resolved manifest, tr) ->
    exists tr2,
      Sync.syncLibrary toLowerCase
        (Sync.with_manifest W (Sync.path_join W outputDir (lit "manifest.json")) manifest)
        inputDir outputDir
      = (Resolved manifest, tr2)
      /\ List.filter Sync.is_copy tr2 = [].
Proof.
  intros tl W inD outD manifest tr. unfold Sync.syncLibrary.
  cbn [Sync.with_manifest Sync.mkdirSync Sync.path_join Sync.readdirSync Sync.writeFileSync].
  destruct (Sync.mkdirSync W outD); [|discriminate].
  set (path := Sync.path_join W outD (lit "manifest.json")).
  assert (Hex2 : forall m, Sync.existingManifest (Sync.with_manifest W path m) path
                           = Sync.JArr m).
  { intros m. unfold Sync.existingManifest. cbn [Sync.with_manifest Sync.manifest_file].
    now rewrite bool_decide_eq_true_2. }
  rewrite Hex2.
  destruct (Sync.existingManifest W path) as [| | | |existing|] eqn:Eex; try discriminate.
  destruct (Sync.slugs_of existing) as [slugs|] eqn:Esl; [|discriminate].
  destruct (Sync.readdirSync W inD) as [names|]; [|discriminate].
  destruct (List.filter _ names) as [|file rest].
  - intros [= <- <-]. rewrite Esl. exists []. split; reflexivity.
  - destruct (Sync.sync_loop tl W inD outD (file :: rest) existing slugs 0 [])
      as [[[m k]|err] tr0] eqn:El; [|discriminate].
    destruct (Sync.writeFileSync W path m) eqn:Ew; [|discriminate].
    intros [= <- <-].
    destruct (sync_loop_spec tl W inD outD _ _ _ _ _ _ _ _ El)
      as (added & copies & H1 & H2 & H3 & H4 & H5 & H6 & H7 & H8 & H9 & H10 & H11).
    rewrite H1, (slugs_of_app _ _ _ _ Esl H4), sync_loop_with_manifest.
    rewrite (sync_loop_skip tl W inD outD (file :: rest) _ _ 0 [] H11 H10).
    rewrite <- H1, Ew. eexists. split; reflexivity.
Qed.

Lemma syncLibrary_second_run_adds_nothing_witness :
  exists manifest tr tr2,
    Sync.syncLibrary Library.ascii_toLowerCase
      (Sync.sample_world [lit "One.epub"; lit "Two.epub"]) (lit "output") (lit "docs/epubs")
    = (Resolved manifest, tr)
    /\ Sync.syncLibrary Library.ascii_toLowerCase
         (Sync.with_manifest (Sync.sample_world [lit "One.epub"; lit "Two.epub"])
            (Sync.path_join (Sync.sample_world [lit "One.epub"; lit "Two.epub"])
               (lit "docs/epubs") (lit "manifest.json"))
            manifest)
         (lit "output") (lit "docs/epubs")
       = (Resolved manifest, tr2)
    /\ List.filter Sync.is_copy tr2 = [].
Proof.
  destruct (Sync.syncLibrary Library.ascii_toLowerCase
              (Sync.sample_world [lit "One.epub"; lit "Two.epub"])
              (lit "output") (lit "docs/epubs")) as [[manifest|err] tr] eqn:E.
  - destruct (syncLibrary_second_run_adds_nothing _ _ _ _ _ _ E) as (tr2 & H1 & H2).
    exists manifest, tr, tr2. auto.
  - vm_compute in E. discriminate.
Defined.

(** X7.  From no manifest, [syncLibrary] with its default directories does
    what [main] of the build script does (the same copies, the same
    manifest written), as long as that manifest has no two entries of the
    same slug. *)
Theorem syncLibrary_agrees_with_build_script :
  forall (toLowerCase : list N -> list N) (W : Sync.World) (tr : list Sync.event),
    Sync.manifest_file W (Sync.path_join W (lit "docs/epubs") (lit "manifest.json")) = None ->
    Sync.build_main toLowerCase W = (Resolved tt, tr) ->
    (forall path m, Sync.EvWrite path m ∈ tr -> NoDup (Sync.string_slugs m)) ->
    exists manifest,
      Sync.syncLibrary toLowerCase W (lit "output") (lit "docs/epubs")
      = (Resolved manifest, tr)
      /\ (forall path m, Sync.EvWrite path m ∈ tr -> m = manifest).
Proof.
  intros tl W tr Hnone. unfold Sync.build_main, Sync.syncLibrary, Sync.existingManifest.
  cbv zeta. rewrite Hnone.
  destruct (Sync.mkdirSync W _); [|discriminate]. cbn [Sync.slugs_of].
  destruct (Sync.readdirSync W _) as [names|]; [|discriminate].
  destruct (List.filter _ names) as [|file rest].
  - intros [= <-] _. exists []. split; [reflexivity|].
    intros path m H. now apply elem_of_nil in H.
  - destruct (Sync.build_loop tl W _ _ (file :: rest) [] []) as [[m|err] tr0] eqn:Eb;
      [|discriminate].
    destruct (Sync.writeFileSync W _ m) eqn:Ew; [|discriminate].
    intros [= <-] Hnd.
    assert (Hm : NoDup (Sync.string_slugs m)).
    { apply (Hnd (Sync.path_join W (lit "docs/epubs") (lit "manifest.json"))).
      apply elem_of_app. right. left. }
    destruct (build_loop_sync tl W _ _ _ _ [] 0 _ _ _ Eb eq_refl Hm) as [k' ->].
    rewrite Ew. exists m. split; [reflexivity|].
    intros path m' [Hin|Hin]%elem_of_app.
    + exfalso. clear -Eb Hin.
      assert (Hgen : forall files manifest t m0 t0,
                Sync.build_loop tl W (lit "output") (lit "docs/epubs") files manifest t
                = (Resolved m0, t0) ->
                Sync.EvWrite path m' ∈ t0 -> Sync.EvWrite path m' ∈ t).
      { induction files as [|f files IH]; intros manifest t m0 t0; cbn [Sync.build_loop].
        - now intros [= _ <-].
        - destruct (Sync.extractMetadata W _) as [[mt|]|]; [| |discriminate].
          + destruct (Sync.statSync W _); [|discriminate].
            destruct (Sync.copyFileSync W _ _); [|discriminate].
            intros H Hin'. specialize (IH _ _ _ _ H Hin').
            apply elem_of_app in IH as [IH|IH]; [exact IH|].
            apply list_elem_of_singleton in IH. discriminate.
          + apply IH. }
      specialize (Hgen _ _ _ _ _ Eb Hin). now apply elem_of_nil in Hgen.
    + apply list_elem_of_singleton in Hin. now injection Hin as _ <-.
Qed.

Lemma syncLibrary_agrees_with_build_script_witness :
  exists tr manifest,
    Sync.build_main Library.ascii_toLowerCase (Sync.sample_world [lit "One.epub"; lit "Two.epub"])
    = (Resolved tt, tr)
    /\ Sync.syncLibrary Library.ascii_toLowerCase
         (Sync.sample_world [lit "One.epub"; lit "Two.epub"]) (lit "output") (lit "docs/epubs")
       = (Resolved manifest, tr).
Proof.
  destruct (Sync.build_main Library.ascii_toLowerCase
              (Sync.sample_world [lit "One.epub"; lit "Two.epub"])) as [[[]|err] tr] eqn:E.
  - destruct (syncLibrary_agrees_with_build_script Library.ascii_toLowerCase
                (Sync.sample_world [lit "One.epub"; lit "Two.epub"]) tr eq_refl E)
      as (manifest & H & _).
    + intros path m Hin. vm_compute in E. injection E as <-.
      apply elem_of_cons in Hin as [Hin|Hin]; [discriminate|].
      apply elem_of_cons in Hin as [Hin|Hin]; [discriminate|].
      apply list_elem_of_singleton in Hin. injection Hin as _ ->.
      vm_compute. repeat constructor; intros H; repeat (apply elem_of_cons in H as [H|H];
        [discriminate|]); inversion H.
    + exists tr, manifest. auto.
  - vm_compute in E. discriminate.
Defined.

Section ProgressFacts.
Import Job JobReport.
Variable W : World.
Variable novel : Novel.
Hypothesis schedule_perm : forall pass tasks, schedule W pass tasks ≡ₚ tasks.

Lemma progress_is_progress report c :
  List.filter is_progress (progress novel report c) = progress novel report c.
Proof.
  unfold progress, worker_progress. destruct report; [|reflexivity].
  destruct (_ || _); reflexivity.
Qed.

Lemma initial_tasks_progress report order : forall st,
  (forall i, i ∈ order -> i < length (chapters novel)) ->
  List.filter is_progress (trace (run_tasks (initial_task W novel report) order st))
  = List.filter is_progress (trace st)
    ++ flat_map (progress novel report) (seq (S (completed st)) (length order))
  /\ completed (run_tasks (initial_task W novel report) order st)
     = completed st + length order.
Proof.
  induction order as [|i order IH]; intros st Hr.
  - cbn. rewrite app_nil_r. split; [reflexivity | lia].
  - change (run_tasks (initial_task W novel report) (i :: order) st)
      with (run_tasks (initial_task W novel report) order
              (initial_task W novel report i st)).
    destruct (IH (initial_task W novel report i st)) as [H1 H2].
    { intros j Hj. apply Hr. now right. }
    rewrite H1, H2. unfold initial_task.
    destruct (chapters novel !! i) as [ch|] eqn:E.
    + cbn [trace completed length seq flat_map].
      rewrite !List.filter_app. cbn [List.filter is_progress app].
      rewrite progress_is_progress, <- !app_assoc. split; [reflexivity | lia].
    + apply lookup_ge_None in E. specialize (Hr i (list_elem_of_here _ _)). lia.
Qed.

Lemma pass_events_no_progress l :
  List.filter is_pass_event l = l -> List.filter is_progress l = [].
Proof.
  induction l as [|e l IH]; [reflexivity|]. cbn [List.filter].
  destruct e; cbn [is_pass_event is_progress].
  - intros H. exfalso.
    assert (Hlen := filter_length_le is_pass_event l). rewrite H in Hlen. cbn in Hlen. lia.
  - intros [= H]. now apply IH.
  - intros H. exfalso.
    assert (Hlen := filter_length_le is_pass_event l). rewrite H in Hlen. cbn in Hlen. lia.
  - intros [= H]. now apply IH.
  - intros H. exfalso.
    assert (Hlen := filter_length_le is_pass_event l). rewrite H in Hlen. cbn in Hlen. lia.
Qed.

Lemma after_retries_progress report tr :
  List.filter is_progress (trace (after_retries W novel report tr))
  = List.filter is_progress tr
    ++ flat_map (progress novel report) (seq 1 (length (chapters novel))).
Proof.
  unfold after_retries, MAX_RETRY_PASSES.
  destruct (retry_passes_trace W novel schedule_perm 2 0 _
              (after_initial_inv W novel schedule_perm report tr))
    as (new & Htr & _ & Hpe & _).
  rewrite Htr, List.filter_app, (pass_events_no_progress _ Hpe), app_nil_r.
  unfold after_initial.
  destruct (initial_tasks_progress report
              (schedule W 0 (seq 0 (length (chapters novel))))
              (mkJ (repeat Hole (length (chapters novel))) 0 tr)) as [H _].
  { intros i Hi. rewrite (schedule_perm 0) in Hi. apply elem_of_seq in Hi. lia. }
  rewrite H. cbn [trace completed]. now rewrite (schedule_perm 0), length_seq.
Qed.

End ProgressFacts.

(** X8.  A worker reports its progress after every twentieth chapter of
    the initial pass that is over and after the last one, with a count that
    grows by one per chapter whatever the order in which the fetches end;
    the retry passes report nothing, and neither does automate.js, which
    moves a progress bar instead. *)
Theorem progress_reported_every_twenty :
  forall (W : Job.World) (novel : Job.Novel) (report : bool) (tr : list Job.event),
    (forall pass tasks, Job.schedule W pass tasks ≡ₚ tasks) ->
    List.filter JobReport.is_progress (Job.trace (Job.after_retries W novel report tr))
    = List.filter JobReport.is_progress tr
      ++ (if report
          then List.map (fun c => Job.EvProgress c (length (Job.chapters novel)))
                 (List.filter (fun c => (c mod 20 =? 0) || (c =? length (Job.chapters novel)))
                    (seq 1 (length (Job.chapters novel))))
          else []).
Proof.
  intros W novel report tr Hs. rewrite (after_retries_progress W novel Hs).
  f_equal. unfold Job.progress. destruct report.
  - induction (seq 1 (length (Job.chapters novel))) as [|c l IH]; [reflexivity|].
    cbn [flat_map List.filter]. rewrite IH. unfold Job.worker_progress.
    destruct (_ || _); reflexivity.
  - induction (seq 1 (length (Job.chapters novel))) as [|c l IH]; [reflexivity|].
    exact IH.
Qed.

Lemma progress_reported_every_twenty_witness :
  List.filter JobReport.is_progress
    (Job.trace (Job.after_retries (Job.sample_world (fun _ ts => ts)) Job.sample_novel true []))
  = [Job.EvProgress 3 3].
Proof.
  apply (progress_reported_every_twenty (Job.sample_world (fun _ ts => ts))
           Job.sample_novel true []).
  intros pass tasks. reflexivity.
Defined.

Section AgreeFacts.
Import Job JobReport JobAgree.
Variable W : World.
Variable novel : Novel.

Lemma work_app l1 l2 : work (l1 ++ l2) = work l1 ++ work l2.
Proof. apply List.filter_app. Qed.

Lemma work_progress report c : work (progress novel report c) = [].
Proof.
  unfold progress, worker_progress. destruct report; [|reflexivity].
  destruct (_ || _); reflexivity.
Qed.

Lemma same_work_initial r1 r2 order : forall st1 st2,
  same_work st1 st2 ->
  same_work (run_tasks (initial_task W novel r1) order st1)
            (run_tasks (initial_task W novel r2) order st2).
Proof.
  induction order as [|i order IH]; intros st1 st2 H; [exact H|].
  apply IH. destruct H as (Hf & Hc & Ht). unfold initial_task.
  destruct (chapters novel !! i) as [ch|]; [|now repeat split].
  repeat split; cbn [fragments completed trace].
  - now rewrite Hf.
  - now rewrite Hc.
  - rewrite !work_app, !work_progress, Ht. reflexivity.
Qed.

Lemma same_work_retry_tasks pass order : forall st1 st2,
  same_work st1 st2 ->
  same_work (run_tasks (retry_task W novel pass) order st1)
            (run_tasks (retry_task W novel pass) order st2).
Proof.
  induction order as [|i order IH]; intros st1 st2 H; [exact H|].
  apply IH. destruct H as (Hf & Hc & Ht). unfold retry_task.
  destruct (chapters novel !! i) as [ch|]; repeat split; cbn [fragments completed trace];
    try (now rewrite Hf); try (now rewrite Hc); try assumption.
  now rewrite !work_app, Ht.
Qed.

Lemma same_work_retry_passes left : forall pass st1 st2,
  same_work st1 st2 ->
  same_work (retry_passes W novel left pass st1) (retry_passes W novel left pass st2).
Proof.
  induction left as [|left IH]; intros pass st1 st2 H; [exact H|].
  cbn [retry_passes]. destruct H as (Hf & Hc & Ht). rewrite <- Hf.
  destruct (failedIndices (fragments st1)) as [|i rest]; [now repeat split|].
  apply IH, same_work_retry_tasks. repeat split; cbn [fragments completed trace]; try assumption.
  now rewrite !work_app, Ht.
Qed.

Lemma same_work_after_retries r1 r2 tr :
  same_work (after_retries W novel r1 tr) (after_retries W novel r2 tr).
Proof.
  unfold after_retries. apply same_work_retry_passes.
  unfold after_initial. apply same_work_initial. repeat split.
Qed.

End AgreeFacts.

(** X9.  The two [downloadNovel] agree: for the same slug, the same
    settings and the same answers of the site, the function of
    automate.js resolves to [true] exactly when that of worker.js resolves
    to a result with [success: true], rejects when it rejects, with the
    same error, and does the same work (the same fetches in the same
    passes, the same array given to [buildEpub]); only the progress
    messages of the worker are its own. *)
Theorem automate_agrees_with_worker :
  forall (W : Job.World) (cfg : Job.Config) (slug listTitle : list N),
    match fst (Job.downloadNovel W cfg slug listTitle),
          fst (Job.automate_downloadNovel W cfg slug) with
    | Resolved r, Resolved b => b = Job.success r
    | Rejected e1, Rejected e2 => e1 = e2
    | _, _ => False
    end
    /\ JobAgree.work (snd (Job.downloadNovel W cfg slug listTitle))
       = JobAgree.work (snd (Job.automate_downloadNovel W cfg slug)).
Proof.
  intros W cfg slug listTitle. unfold Job.downloadNovel, Job.automate_downloadNovel.
  destruct (Job.fetchNovelDetail W slug) as [novel|err]; [|split; reflexivity].
  cbv zeta. destruct (negb (truthy_str (Job.title novel))); [split; reflexivity|].
  destruct (length (Job.chapters novel) =? 0); [split; reflexivity|].
  destruct (_ && _); [split; reflexivity|].
  destruct (Job.pLimit W (Job.concurrency cfg)); [|split; reflexivity].
  unfold Job.fetch_fragments.
  destruct (same_work_after_retries W novel true false [Job.EvDetail slug])
    as (Hf & _ & Ht).
  rewrite Hf.
  destruct (Job.fill_failures novel _) as [[arr k]|err]; [|split; [reflexivity | exact Ht]].
  destruct (Job.buildEpub W novel arr); cbn [fst snd]; (split; [reflexivity|]);
    unfold JobAgree.work in *; rewrite !List.filter_app, Ht; reflexivity.
Qed.

Section EpubFacts.
Import Job Epub.
Variable W : World.
Variable novel : Novel.
Hypothesis schedule_perm : forall pass tasks, schedule W pass tasks ≡ₚ tasks.

(** What a task stores is [null] or a chapter with text. *)
Lemma stored_not_blank r ch c : stored r ch = Filled c -> is_blank c = false.
Proof.
  unfold stored. destruct r as [content|msg]; [|discriminate].
  destruct (_ || _) eqn:E; [discriminate|]. intros [= <-]. exact E.
Qed.

Lemma value_after_not_blank ch i pass c :
  value_after W ch i pass = Filled c -> is_blank c = false.
Proof.
  induction pass as [|pass IH]; cbn [value_after]; [apply stored_not_blank|].
  destruct (is_null (value_after W ch i pass)); [apply stored_not_blank | exact IH].
Qed.

Lemma placeholder_not_blank i ch : is_blank (placeholder i ch) = false.
Proof. reflexivity. Qed.

(** The chapters handed to [buildEpub] all have text. *)
Lemma fetched_chapters_not_blank report tr i :
  i < length (chapters novel) ->
  exists c,
    imap (fill_slot novel) (fragments (after_retries W novel report tr)) !! i
    = Some (Filled c)
    /\ is_blank c = false.
Proof.
  intros Hi. destruct (after_retries_fragments W novel schedule_perm report tr) as [Hlen Hget].
  destruct (lookup_lt_is_Some_2 _ _ Hi) as [ch Ech].
  rewrite list_lookup_imap, (Hget i ch Ech). cbn [fmap option_fmap option_map].
  pose proof (value_after_not_hole W ch i 2) as Hnh.
  pose proof (value_after_not_blank ch i 2) as Hnb.
  destruct (value_after W ch i 2) as [| |c]; [contradiction| |].
  - cbn [fill_slot]. rewrite Ech. eauto using placeholder_not_blank.
  - cbn [fill_slot]. eauto.
Qed.

End EpubFacts.

(** X10.  The array [downloadNovel] hands to [buildEpub] has, at every index
    of the manifest, a chapter whose content is not blank (the text fetched
    or the failure marker): [buildEpub] counts no empty chapter, so it does
    not warn, and the body of every chapter of the EPUB is that content
    after the heading, never the text put for a chapter without
    content. *)
Theorem chapters_given_to_buildEpub_have_text :
  forall (W : Job.World) (novel : Job.Novel) (report : bool) (tr : list Job.event),
    (forall pass tasks, Job.schedule W pass tasks ≡ₚ tasks) ->
    exists a failedCount epubChapters,
      fst (Job.fetch_fragments W novel report tr) = Resolved (a, failedCount)
      /\ Epub.emptyCount a = Resolved 0
      /\ Epub.epubChapters a = Resolved epubChapters
      /\ length epubChapters = length (Job.chapters novel)
      /\ forall i, i < length (Job.chapters novel) ->
           exists c,
             a !! i = Some (Job.Filled c)
             /\ Job.ch_content c <> []
             /\ epubChapters !! i
                = Some (Some (Epub.mkEpubChapter
                                (or_str (Job.ch_title c) (lit "Untitled Chapter"))
                                (Epub.heading (or_str (Job.ch_title c) (lit "Untitled Chapter"))
                                 ++ Job.ch_content c))).
Proof.
  intros W novel report tr Hs.
  destruct (after_retries_fragments W novel Hs report tr) as [Hlen Hget].
  set (frags := Job.fragments (Job.after_retries W novel report tr)) in *.
  set (a := imap (Job.fill_slot novel) frags).
  assert (Hla : length a = length (Job.chapters novel)).
  { unfold a. now rewrite length_imap. }
  assert (Hall : forall i, i < length (Job.chapters novel) ->
                   exists c, a !! i = Some (Job.Filled c) /\ Epub.is_blank c = false).
  { intros i Hi. apply (fetched_chapters_not_blank W novel Hs report tr i Hi). }
  assert (Hslots : forall s, s ∈ a -> exists c, s = Job.Filled c /\ Epub.is_blank c = false).
  { intros s (i & Hi)%list_elem_of_lookup.
    destruct (Hall i) as (c & Hc & Hb).
    - apply lookup_lt_Some in Hi. lia.
    - rewrite Hc in Hi. injection Hi as <-. eauto. }
  assert (Hnull : existsb Job.is_null a = false).
  { apply not_true_is_false. intros (s & Hin & Hn)%existsb_exists.
    apply list_elem_of_In in Hin. destruct (Hslots s Hin) as (c & -> & _). discriminate. }
  eexists a, _, _. split.
  { unfold Job.fetch_fragments. cbn [fst]. fold frags. now apply fill_failures_spec. }
  unfold Epub.emptyCount, Epub.epubChapters. rewrite Hnull.
  split.
  { f_equal. apply length_zero_iff_nil.
    clear -Hslots. induction a as [|s l IH]; [reflexivity|].
    cbn [List.filter]. destruct (Hslots s) as (c & -> & Hb); [left|]. rewrite Hb.
    apply IH. intros x Hx. apply Hslots. now right. }
  split; [reflexivity|]. split; [now rewrite length_map|].
  intros i Hi. destruct (Hall i Hi) as (c & Hc & Hb). exists c.
  split; [exact Hc|].
  unfold Epub.is_blank in Hb. apply orb_false_elim in Hb as [Hb _].
  apply negb_false_iff in Hb.
  split; [destruct (Job.ch_content c); [discriminate Hb | discriminate]|].
  change (List.map ?f ?l) with (f <$> l). rewrite list_lookup_fmap, Hc.
  cbn [fmap option_fmap option_map]. unfold Epub.epub_chapter.
  do 3 f_equal. unfold or_str at 2. now rewrite Hb.
Qed.

Lemma chapters_given_to_buildEpub_have_text_witness :
  exists a failedCount,
    fst (Job.fetch_fragments (Job.sample_world (fun _ ts => ts)) Job.sample_novel true [])
    = Resolved (a, failedCount)
    /\ Epub.emptyCount a = Resolved 0.
Proof.
  destruct (chapters_given_to_buildEpub_have_text (Job.sample_world (fun _ ts => ts))
              Job.sample_novel true [])
    as (a & k & e & H1 & H2 & _).
  - intros pass tasks. reflexivity.
  - exists a, k. auto.
Defined.

Section ScraperFacts.
Import Job Scraper Cli.

Lemma starts_with_app p s : starts_with p (p ++ s) = true.
Proof. induction p as [|c p IH]; [reflexivity|]. cbn. now rewrite N.eqb_refl. Qed.

Lemma remove_first_prefix p s : remove_first p (p ++ s) = s.
Proof.
  destruct p as [|c p]; [destruct s; reflexivity|].
  cbn [app remove_first]. change (c :: p ++ s) with ((c :: p) ++ s).
  rewrite starts_with_app. now rewrite drop_app_length.
Qed.

Lemma strip_trailing_slash_id s : last s <> Some 47%N -> strip_trailing_slash s = s.
Proof.
  induction s as [|c t IH]; intros H; [reflexivity|].
  cbn [strip_trailing_slash]. destruct t as [|d t'].
  - destruct (N.eqb_spec c 47) as [->|Hne]; [now contradiction H | reflexivity].
  - f_equal. apply IH. now rewrite last_cons_cons in H.
Qed.

Lemma strip_trailing_slash_snoc s :
  last s <> Some 47%N -> strip_trailing_slash (s ++ [47%N]) = s.
Proof.
  induction s as [|c t IH]; intros H; [reflexivity|].
  cbn [app strip_trailing_slash]. destruct t as [|d t'].
  - reflexivity.
  - cbn [app]. f_equal. apply IH. now rewrite last_cons_cons in H.
Qed.

Lemma until_slash_id s : 47%N ∉ s -> until_slash s = s.
Proof.
  induction s as [|c t IH]; intros H; [reflexivity|].
  apply not_elem_of_cons in H as [Hc Ht]. cbn [until_slash].
  destruct (N.eqb_spec c 47) as [->|_]; [contradiction|]. f_equal. now apply IH.
Qed.

Lemma join_wrapped ps :
  paragraphs ps = [] \/ exists m, join [10%N] (paragraphs ps) = lit "<p>" ++ m ++ lit "</p>".
Proof.
  unfold paragraphs. induction ps as [|t ps IH]; [now left|].
  cbn [omap list_omap]. destruct (truthy_str (trim t)); [|exact IH].
  right. fold (paragraphs ps) in *. cbn [join].
  destruct IH as [-> | [m Hm]].
  - eauto.
  - destruct (paragraphs ps) as [|q qs] eqn:E; [eauto|].
    rewrite Hm. exists (trim t ++ lit "</p>" ++ [10%N] ++ lit "<p>" ++ m).
    now rewrite <- !app_assoc.
Qed.

Lemma paragraphs_nil ps :
  paragraphs ps = [] <-> Forall (fun t => trim t = []) ps.
Proof.
  unfold paragraphs. induction ps as [|t ps IH]; [split; [constructor | reflexivity]|].
  cbn [omap list_omap]. destruct (trim t) as [|c r] eqn:E; cbn [truthy_str].
  - rewrite IH. split; [now constructor | now intros [_ H]%Forall_cons].
  - split; [discriminate | intros [H _]%Forall_cons; congruence].
Qed.

Lemma wrapped_trim m : trim (lit "<p>" ++ m ++ lit "</p>") = lit "<p>" ++ m ++ lit "</p>".
Proof.
  apply trim_id; [reflexivity|]. unfold no_trailing_space.
  rewrite !rev_app_distr. reflexivity.
Qed.

End ScraperFacts.

(** X11.  The content [fetchChapterContent] makes of a page is empty when no
    paragraph has text, and else begins with [<p>] and ends with [</p>]:
    the task of [downloadNovel] stores [null] for the chapter exactly when
    no paragraph of the page has text. *)
Theorem chapter_without_text_is_retried :
  forall (page : Scraper.ChapterPage) (ch : Job.ChapterRef),
    (Forall (fun t => trim t = []) (Scraper.p_texts page) ->
     Job.ch_content (Scraper.chapter_of_page page) = []
     /\ Job.stored (Resolved (Scraper.chapter_of_page page)) ch = Job.Null)
    /\ (~ Forall (fun t => trim t = []) (Scraper.p_texts page) ->
        (exists m, Job.ch_content (Scraper.chapter_of_page page)
                   = lit "<p>" ++ m ++ lit "</p>")
        /\ Job.stored (Resolved (Scraper.chapter_of_page page)) ch
           = Job.Filled (Job.mkChapter
                           (or_str (Job.ch_title (Scraper.chapter_of_page page))
                                   (Job.ref_title ch))
                           (Job.ch_content (Scraper.chapter_of_page page)))).
Proof.
  intros page ch. unfold Scraper.chapter_of_page. cbn [Job.ch_content Job.ch_title].
  split.
  - intros H. apply paragraphs_nil in H. rewrite H. split; reflexivity.
  - intros H. destruct (join_wrapped (Scraper.p_texts page)) as [E|[m Hm]].
    + apply paragraphs_nil in E. contradiction.
    + split; [eauto|]. unfold Job.stored. cbn [Job.ch_content Job.ch_title].
      rewrite Hm, wrapped_trim. reflexivity.
Qed.

Lemma chapter_without_text_is_retried_witness :
  Job.stored (Resolved (Scraper.chapter_of_page
                          (Scraper.mkChapterPage (lit "One") [] [lit " "; []])))
             (Job.mkRef (lit "c1") (lit "u1"))
  = Job.Null.
Proof.
  apply (proj1 (chapter_without_text_is_retried
                  (Scraper.mkChapterPage (lit "One") [] [lit " "; []])
                  (Job.mkRef (lit "c1") (lit "u1")))).
  repeat constructor.
Defined.

(** X12.  The slug of a listed novel leads back to the page its link points
    to: for a link [/novel/s], with or without a slash at its end,
    [fetchNovelDetail] fetches [BASE_URL/novel/s]; and the slug index.js
    reads from the [--url] of that page is [s] again. *)
Theorem slug_round_trip :
  forall s : list N,
    s <> [] -> 47%N ∉ s ->
    Scraper.slug_of_href (lit "/novel/" ++ s) = s
    /\ Scraper.slug_of_href (lit "/novel/" ++ s ++ lit "/") = s
    /\ Scraper.detail_url (Scraper.slug_of_href (lit "/novel/" ++ s))
       = Scraper.BASE_URL ++ lit "/novel/" ++ s
    /\ Cli.slug_from_url (Scraper.detail_url s) = Some s.
Proof.
  intros s Hne Hns.
  assert (Hlast : last s <> Some 47%N).
  { intros H. apply Hns. apply last_Some in H as [l ->]. apply elem_of_app. right. left. }
  assert (H1 : Scraper.slug_of_href (lit "/novel/" ++ s) = s).
  { unfold Scraper.slug_of_href. rewrite remove_first_prefix.
    now apply strip_trailing_slash_id. }
  split; [exact H1|]. split.
  { unfold Scraper.slug_of_href. rewrite remove_first_prefix.
    now apply strip_trailing_slash_snoc. }
  split; [now rewrite H1|].
  unfold Scraper.detail_url, Scraper.BASE_URL.
  destruct s as [|c t]; [contradiction|].
  apply not_elem_of_cons in Hns as [Hc Ht].
  cbn. destruct (N.eqb_spec c 47) as [E|_]; [now contradiction Hc|].
  now rewrite until_slash_id.
Qed.

Lemma slug_round_trip_witness :
  Cli.slug_from_url (Scraper.detail_url (lit "ab")) = Some (lit "ab").
Proof.
  apply (slug_round_trip (lit "ab")).
  - discriminate.
  - intros H. vm_compute in H.
    repeat (apply elem_of_cons in H as [H|H]; [discriminate|]). inversion H.
Defined.

Section SequentialFacts.
Import Job Sequential.
Variable W : World.

Lemma seq_loop_spec refs : forall i a k tr,
  i + length refs <= length a ->
  let '(a', k', tr') := seq_loop W refs i a k tr in
  length a' = length a
  /\ (forall j, a' !! j
        = if bool_decide (i <= j < i + length refs)
          then (fun ch => Filled (seq_stored j ch (fetchChapterContent W 0 j (ref_url ch))))
                 <$> refs !! (j - i)
          else a !! j)
  /\ k' = k + length (List.filter
                        (fun p => is_rejected (fetchChapterContent W 0 (fst p) (ref_url (snd p))))
                        (imap (fun j ch => (i + j, ch)) refs))
  /\ tr' = tr ++ imap (fun j ch => EvFetch 0 (i + j) (ref_url ch)) refs.
Proof.
  induction refs as [|ch rest IH]; intros i a k tr Hlen.
  - cbn. rewrite app_nil_r. repeat split; try lia.
    intros j. rewrite bool_decide_eq_false_2 by lia. reflexivity.
  - cbn [seq_loop length] in *.
    set (r := fetchChapterContent W 0 i (ref_url ch)).
    assert (Hset : js_set i (Filled (seq_stored i ch r)) a
                   = <[i := Filled (seq_stored i ch r)]> a).
    { unfold js_set. destruct (Nat.ltb_spec i (length a)); [reflexivity | lia]. }
    rewrite Hset.
    specialize (IH (S i) (<[i := Filled (seq_stored i ch r)]> a)
                  (if is_rejected r then S k else k)
                  (tr ++ [EvFetch 0 i (ref_url ch)])).
    rewrite length_insert in IH. specialize (IH ltac:(lia)).
    destruct (seq_loop W rest (S i) _ _ _) as [[a' k'] tr'].
    destruct IH as (H1 & H2 & H3 & H4). split; [exact H1|]. split; [|split].
    + intros j. rewrite H2. destruct (decide (j = i)) as [->|Hne].
      * rewrite bool_decide_eq_false_2 by lia. rewrite bool_decide_eq_true_2 by lia.
        rewrite Nat.sub_diag. cbn. apply list_lookup_insert_eq. lia.
      * rewrite list_lookup_insert_ne by congruence.
        destruct (decide (S i <= j < S i + length rest)) as [Hj|Hj].
        -- rewrite bool_decide_eq_true_2 by exact Hj.
           rewrite bool_decide_eq_true_2 by lia.
           replace (j - i) with (S (j - S i)) by lia. reflexivity.
        -- rewrite bool_decide_eq_false_2 by exact Hj.
           rewrite bool_decide_eq_false_2 by lia. reflexivity.
    + rewrite H3. cbn [imap List.filter fst snd]. rewrite Nat.add_0_r. fold r.
      rewrite (imap_ext (fun j ch0 => (S i + j, ch0)) ((fun j ch0 => (i + j, ch0)) ∘ S))
        by (intros; cbn; f_equal; lia).
      destruct (is_rejected r); cbn [length]; lia.
    + rewrite H4, <- app_assoc. cbn [imap app]. rewrite Nat.add_0_r. do 2 f_equal.
      apply imap_ext. intros j x _. cbn. f_equal. lia.
Qed.

End SequentialFacts.

(** X13.  The sequential [downloadNovel] of index.js fetches every chapter
    of the manifest once, in order, and never again; its array holds a
    chapter at every index (a fetch that throws leaves a chapter that tells
    the error), so the download resolves to [true] whenever the novel page
    has a title and chapters and [buildEpub] does not throw, even when
    every fetch failed; a novel whose EPUB exists is not fetched at all. *)
Theorem sequential_download_fetches_each_once :
  forall (W : Job.World) (existsSync : list N -> bool) (slug : list N) (novel : Job.Novel),
    Job.fetchNovelDetail W slug = Resolved novel ->
    Job.title novel <> [] ->
    (existsSync (epubExists_filename (Job.title novel)) = true ->
     Sequential.downloadNovel W existsSync slug = (Resolved true, [Job.EvDetail slug]))
    /\ (existsSync (epubExists_filename (Job.title novel)) = false ->
        Job.chapters novel <> [] ->
        exists a,
          length a = length (Job.chapters novel)
          /\ (forall i ch, Job.chapters novel !! i = Some ch ->
                a !! i = Some (Job.Filled
                                 (Sequential.seq_stored i ch
                                    (Job.fetchChapterContent W 0 i (Job.ref_url ch)))))
          /\ Job.buildEpub W novel a = Job.genEpub W novel a
          /\ snd (Sequential.downloadNovel W existsSync slug)
             = [Job.EvDetail slug]
               ++ imap (fun i ch => Job.EvFetch 0 i (Job.ref_url ch)) (Job.chapters novel)
               ++ [Job.EvBuildEpub a]
          /\ (forall u, Job.genEpub W novel a = Resolved u ->
                fst (Sequential.downloadNovel W existsSync slug) = Resolved true)).
Proof.
  intros W existsSync slug novel Hdetail Htitle.
  assert (Ht : negb (truthy_str (Job.title novel)) = false).
  { destruct (Job.title novel); [contradiction | reflexivity]. }
  unfold Sequential.downloadNovel. rewrite Hdetail, Ht. split.
  - intros ->. reflexivity.
  - intros -> Hch.
    assert (E0 : (length (Job.chapters novel) =? 0) = false).
    { apply Nat.eqb_neq. destruct (Job.chapters novel); [contradiction | discriminate]. }
    rewrite E0.
    pose proof (seq_loop_spec W (Job.chapters novel) 0
                  (repeat Job.Hole (length (Job.chapters novel))) 0 [Job.EvDetail slug]) as Hspec.
    rewrite repeat_length in Hspec. specialize (Hspec ltac:(lia)).
    destruct (Sequential.seq_loop W _ 0 _ 0 _) as [[a k] tr].
    destruct Hspec as (H1 & H2 & _ & H4).
    assert (Hget : forall i ch, Job.chapters novel !! i = Some ch ->
              a !! i = Some (Job.Filled
                               (Sequential.seq_stored i ch
                                  (Job.fetchChapterContent W 0 i (Job.ref_url ch))))).
    { intros i ch Hi. rewrite H2. apply lookup_lt_Some in Hi as Hlt.
      rewrite bool_decide_eq_true_2 by lia. rewrite Nat.sub_0_r, Hi. reflexivity. }
    assert (Hbuild : Job.buildEpub W novel a = Job.genEpub W novel a).
    { unfold Job.buildEpub.
      destruct (existsb Job.is_null a) eqn:E; [|reflexivity].
      apply existsb_exists in E as (s & Hin & Hnull).
      apply list_elem_of_In, list_elem_of_lookup in Hin as [i Hi].
      assert (Hlt : i < length (Job.chapters novel)).
      { apply lookup_lt_Some in Hi. lia. }
      destruct (lookup_lt_is_Some_2 _ _ Hlt) as [ch Ech].
      rewrite (Hget i ch Ech) in Hi. injection Hi as <-. discriminate. }
    exists a. split; [now rewrite H1|]. split; [exact Hget|]. split; [exact Hbuild|].
    rewrite Hbuild, H4. split.
    + destruct (Job.genEpub W novel a); cbn [snd]; now rewrite <- app_assoc.
    + intros u ->. reflexivity.
Qed.

Lemma sequential_download_fetches_each_once_witness :
  exists a : list Job.slot,
    length a = 3
    /\ fst (Sequential.downloadNovel (Job.sample_world (fun _ ts => ts)) (fun _ => false)
              (lit "s"))
       = Resolved true.
Proof.
  destruct (proj2 (sequential_download_fetches_each_once
                     (Job.sample_world (fun _ ts => ts)) (fun _ => false) (lit "s")
                     Job.sample_novel eq_refl ltac:(discriminate)) eq_refl ltac:(discriminate))
    as (a & H1 & _ & _ & _ & H5).
  exists a. split; [exact H1|]. apply (H5 tt). reflexivity.
Defined.

Section PoolLedgerFacts.
Import Pool PoolLedger.

Lemma posted_novels_app l1 l2 :
  posted_novels (l1 ++ l2) = posted_novels l1 ++ posted_novels l2.
Proof. unfold posted_novels. apply omap_app. Qed.

Lemma ledger_dispatch s : ledger_view (_dispatch s) = ledger_view s.
Proof.
  apply (dispatch_loop_ind (fun s' => ledger_view s' = ledger_view s)); [|reflexivity].
  intros s' w idle' novel queue' _ Hq <-. unfold ledger_view, post_download.
  cbn [log emit with_heap with_pool pool queue stats]. rewrite Hq.
  rewrite posted_novels_app. cbn [posted_novels omap]. 
  destruct novel as [sl t]. cbn [slug title].
  f_equal.
  - now rewrite <- app_assoc.
  - rewrite length_app.
    change (posted_novels [Posted w (Download sl t)]) with [mkEntry sl t].
    cbn [length]. unfold accounted, add_inProgress.
    cbn [succeeded failed skipped inProgress]. lia.
Qed.

Lemma ledger_checkDone s : ledger_view (_checkDone s) = ledger_view s.
Proof.
  unfold _checkDone. destruct (_resolveAllDone (pool s)); [|reflexivity].
  destruct (_ && _); [|reflexivity].
  unfold ledger_view. cbn [log emit with_pool pool queue stats].
  rewrite posted_novels_app. cbn. now rewrite app_nil_r.
Qed.

Lemma ledger_back_to_idle s w : ledger_view (back_to_idle s w) = ledger_view s.
Proof. unfold back_to_idle. now rewrite ledger_checkDone, ledger_dispatch. Qed.

Lemma ledger_update_obj w f s : ledger_view (update_obj w f s) = ledger_view s.
Proof. unfold update_obj. destruct (heap s !! w); reflexivity. Qed.

Lemma ledger_spawn s id : ledger_view (snd (spawn s id)) = ledger_view s.
Proof.
  unfold spawn, ledger_view. cbn [snd log emit with_heap pool].
  rewrite posted_novels_app. cbn. now rewrite app_nil_r.
Qed.

Lemma ledger_spawn_loop n : forall i s, ledger_view (spawn_loop n i s) = ledger_view s.
Proof.
  induction n as [|n IH]; intros i s; [reflexivity|].
  cbn [spawn_loop]. pose proof (ledger_spawn s (i + 1)) as H.
  destruct (spawn s (i + 1)) as [w s1]. rewrite IH. exact H.
Qed.

Lemma ledger_start s : ledger_view (start s) = ledger_view s.
Proof.
  unfold start. rewrite <- (ledger_spawn_loop (size (pool s)) 0 s).
  destruct (workers (pool (spawn_loop (size (pool s)) 0 s))); reflexivity.
Qed.

Lemma ledger_handleError w s :
  ledger_view (_handleError w s) = ledger_view s.
Proof.
  unfold _handleError.
  set (s1 := with_pool s _).
  assert (H1 : ledger_view s1 = ledger_view s).
  { unfold ledger_view, s1. cbn [with_pool log pool queue stats with_stats].
    f_equal. unfold accounted. cbn [succeeded failed skipped inProgress]. lia. }
  destruct (indexOf (workers (pool s)) w); [|exact H1].
  pose proof (ledger_spawn s1 (match heap s !! w with Some o => _id o | None => 0 end)) as H.
  destruct (spawn s1 _) as [w' s2]. cbn [snd] in H. rewrite <- H1, <- H. reflexivity.
Qed.

Lemma ledger_post_exit ws : forall s, ledger_view (post_exit ws s) = ledger_view s.
Proof.
  induction ws as [|w ws IH]; intros s; [reflexivity|].
  cbn [post_exit]. rewrite IH. unfold ledger_view. cbn [log emit pool].
  rewrite posted_novels_app. cbn. now rewrite app_nil_r.
Qed.

Lemma ledger_on_ready w s : ledger_view (on_ready w s) = ledger_view s.
Proof.
  unfold on_ready.
  set (s1 := match start_awaits s with
             | Some (x :: l) => _
             | _ => s end).
  assert (H1 : ledger_view s1 = ledger_view s).
  { unfold s1. destruct (start_awaits s) as [[|x l]|]; try reflexivity.
    destruct (bool_decide _); try reflexivity.
    destruct (List.filter _ _); reflexivity. }
  cbn [_handleMessage]. destruct (bool_decide _); [|exact H1].
  rewrite ledger_back_to_idle. exact H1.
Qed.

Lemma ledger_result w sl r s :
  ledger_view (_handleMessage w (Result sl r) s) = ledger_view s.
Proof.
  cbn [_handleMessage]. rewrite ledger_back_to_idle.
  unfold ledger_view. cbn [with_pool log pool queue stats with_stats]. f_equal.
  unfold accounted, add_inProgress.
  destruct (Job.success r); [|destruct (Job.skipped r)];
    cbn [succeeded failed skipped inProgress]; lia.
Qed.

Lemma ledger_handle s i :
  ledger_view (handle s i)
  = (fst (ledger_view s) ++ match i with Enqueue novels => novels | _ => [] end,
     snd (ledger_view s)).
Proof.
  assert (Hsame : forall s', ledger_view s' = ledger_view s ->
                             ledger_view s' = (fst (ledger_view s) ++ [], snd (ledger_view s))).
  { intros s' ->. rewrite app_nil_r. now destruct (ledger_view s). }
  destruct i as [|novels| |w [|t c n|sl r]|w|w code|]; cbn [handle].
  - apply Hsame, ledger_start.
  - unfold enqueue. rewrite ledger_dispatch. unfold ledger_view.
    cbn [with_pool log pool queue stats fst snd]. now rewrite app_assoc.
  - apply Hsame. unfold waitUntilDone. destruct (_ && _); cbn [snd].
    + unfold ledger_view. cbn [log pool]. rewrite posted_novels_app. cbn.
      now rewrite app_nil_r.
    + reflexivity.
  - apply Hsame. now rewrite ledger_on_ready, ledger_update_obj.
  - now apply Hsame.
  - apply Hsame. now rewrite ledger_result, ledger_update_obj.
  - apply Hsame. now rewrite ledger_handleError, ledger_update_obj.
  - apply Hsame, ledger_update_obj.
  - apply Hsame. apply ledger_post_exit.
Qed.

Lemma ledger_after n inputs :
  ledger_view (after n inputs) = (enqueued inputs, 0%Z).
Proof.
  unfold after. induction inputs as [|i inputs IH] using rev_ind; [reflexivity|].
  rewrite fold_left_app. cbn [fold_left]. rewrite ledger_handle, IH. cbn [fst snd].
  unfold enqueued. rewrite flat_map_app. cbn [flat_map]. now rewrite app_nil_r.
Qed.

End PoolLedgerFacts.

(** X14.  The pool hands out the novels in the order of their arrival, each
    once: the novels of the [download] messages posted so far, followed by
    those still queued, are the novels given to [enqueue]. *)
Theorem pool_dispatches_in_order :
  forall (n : nat) (inputs : list Pool.input),
    PoolLedger.posted_novels (Pool.log (Pool.after n inputs))
    ++ Pool.queue (Pool.pool (Pool.after n inputs))
    = PoolLedger.enqueued inputs.
Proof.
  intros n inputs. pose proof (ledger_after n inputs) as H.
  now injection H as H _.
Qed.

(** X15.  The counters of the pool account for every job sent: succeeded,
    failed, skipped and in-flight jobs add up to the number of [download]
    messages posted; so, when the queue is empty and no job is in flight,
    the three numbers of the summary of [main] add up to the number of
    novels enqueued. *)
Theorem pool_counters_add_up :
  forall (n : nat) (inputs : list Pool.input),
    PoolLedger.accounted (Pool.stats (Pool.pool (Pool.after n inputs)))
    = Z.of_nat (length (PoolLedger.posted_novels (Pool.log (Pool.after n inputs))))
    /\ (Pool.all_done (Pool.after n inputs) = true ->
        PoolLedger.reported (Pool.stats (Pool.pool (Pool.after n inputs)))
        = Z.of_nat (length (PoolLedger.enqueued inputs))).
Proof.
  intros n inputs. pose proof (ledger_after n inputs) as H.
  unfold PoolLedger.ledger_view in H. injection H as Hl Hc. split; [lia|].
  intros Hdone. unfold Pool.all_done in Hdone.
  apply andb_prop in Hdone as [Hin Hq].
  apply Z.eqb_eq in Hin. apply Nat.eqb_eq in Hq.
  rewrite <- Hl, length_app, Hq, Nat.add_0_r.
  unfold PoolLedger.accounted in Hc. unfold PoolLedger.reported. lia.
Qed.

Lemma pool_counters_add_up_witness :
  PoolLedger.reported
    (Pool.stats (Pool.pool
       (Pool.after 1 [Pool.Start; Pool.Message 0 Pool.Ready;
                      Pool.Enqueue [Pool.sample_entry "a"];
                      Pool.Message 0 (Pool.Result (lit "a") (Pool.sample_result true false))])))
  = Z.of_nat (length (PoolLedger.enqueued
       [Pool.Start; Pool.Message 0 Pool.Ready;
        Pool.Enqueue [Pool.sample_entry "a"];
        Pool.Message 0 (Pool.Result (lit "a") (Pool.sample_result true false))])).
Proof.
  apply (proj2 (pool_counters_add_up 1
                  [Pool.Start; Pool.Message 0 Pool.Ready;
                   Pool.Enqueue [Pool.sample_entry "a"];
                   Pool.Message 0 (Pool.Result (lit "a") (Pool.sample_result true false))])).
  vm_compute. reflexivity.
Defined.

Section PoolIdsFacts.
Import Pool PoolLedger PoolIds.

Lemma run_is_after n inputs s : run (init n) inputs = Some s -> s = after n inputs.
Proof.
  unfold after. generalize (init n). intros s0. revert s0.
  induction inputs as [|i inputs IH]; intros s0 H.
  - now injection H as <-.
  - cbn [run] in H. unfold step in H. destruct (enabled s0 i); [|discriminate].
    cbn [fold_left]. now apply IH.
Qed.

Lemma worker_ids_view s s' : ids_view s' = ids_view s -> worker_ids s' = worker_ids s.
Proof.
  unfold ids_view, worker_ids. intros [= Hh Hw _]. rewrite Hw.
  apply map_ext. intros w.
  change (List.map _id (heap s')) with (_id <$> heap s') in Hh.
  change (List.map _id (heap s)) with (_id <$> heap s) in Hh.
  now rewrite <- !list_lookup_fmap, Hh.
Qed.

Lemma ids_update_obj w f s :
  (forall o, _id (f o) = _id o) -> ids_view (update_obj w f s) = ids_view s.
Proof.
  intros Hf. unfold update_obj. destruct (heap s !! w) as [o|] eqn:Ho; [|reflexivity].
  unfold ids_view. cbn [with_heap heap pool start_awaits].
  f_equal. f_equal.
  change (List.map _id ?l) with (_id <$> l).
  rewrite list_fmap_insert, Hf. apply list_insert_id.
  now rewrite list_lookup_fmap, Ho.
Qed.

Lemma ids_dispatch s : ids_view (_dispatch s) = ids_view s.
Proof.
  apply (dispatch_loop_ind (fun s' => ids_view s' = ids_view s)); [|reflexivity].
  intros s' w idle' novel queue' _ _ <-. unfold post_download.
  cbn [with_pool heap pool]. unfold ids_view.
  cbn [emit with_heap heap pool start_awaits workers].
  f_equal. f_equal.
  destruct (heap s' !! w) as [o|] eqn:Ho; [|reflexivity].
  change (List.map _id ?l) with (_id <$> l).
  rewrite list_fmap_insert. cbn [_id]. apply list_insert_id.
  now rewrite list_lookup_fmap, Ho.
Qed.

Lemma ids_checkDone s : ids_view (_checkDone s) = ids_view s.
Proof.
  unfold _checkDone. destruct (_resolveAllDone (pool s)); [|reflexivity].
  destruct (_ && _); reflexivity.
Qed.

Lemma ids_back_to_idle s w : ids_view (back_to_idle s w) = ids_view s.
Proof. unfold back_to_idle. now rewrite ids_checkDone, ids_dispatch. Qed.

Lemma ids_post_exit ws : forall s, ids_view (post_exit ws s) = ids_view s.
Proof. induction ws as [|w ws IH]; intros s; [reflexivity|]. cbn [post_exit]. now rewrite IH. Qed.

Lemma ids_on_ready w s :
  start_awaits s <> None -> ids_view (on_ready w s) = ids_view s.
Proof.
  intros Hst. unfold on_ready.
  set (s1 := match start_awaits s with
             | Some (x :: l) => _
             | _ => s end).
  assert (H1 : ids_view s1 = ids_view s).
  { unfold s1. destruct (start_awaits s) as [[|x l]|] eqn:E; try reflexivity.
    destruct (bool_decide _); try reflexivity.
    destruct (List.filter _ _); unfold ids_view, start_resume;
      cbn [heap pool workers with_idle start_awaits]; now rewrite E. }
  cbn [_handleMessage]. destruct (bool_decide _); [|exact H1].
  rewrite ids_back_to_idle. exact H1.
Qed.

(** The ids of [this.workers] in every state of a pool of [n] workers. *)
Lemma reachable_worker_ids n s :
  reachable n s ->
  worker_ids s
  = match start_awaits s with
    | Some _ => List.map Some (seq 1 n)
    | None => []
    end.
Proof.
  intros Hreach. pattern s. revert s Hreach. apply reachable_ind; [reflexivity|].
  intros s i Hreach IH Hen.
  pose proof (reachable_invariant n s Hreach) as HI.
  pose proof (reachable_size n s Hreach) as Hsize.
  assert (Hkeep : forall s', ids_view s' = ids_view s ->
            worker_ids s' = match start_awaits s' with
                            | Some _ => List.map Some (seq 1 n)
                            | None => []
                            end).
  { intros s' Hv. rewrite (worker_ids_view _ _ Hv), IH.
    unfold ids_view in Hv. injection Hv as _ _ Hst.
    destruct (start_awaits s), (start_awaits s'); try reflexivity; discriminate. }
  destruct i as [|novels| |w [|t c k|sl r]|w|w code|]; cbn [handle].
  - cbn [enabled] in Hen. destruct (start_awaits s) eqn:Est; [discriminate|].
    destruct (inv_fresh s HI Est) as (Hheap & _ & _).
    pose proof (inv_size s HI) as Hw. rewrite Est in Hw. apply nil_length_inv in Hw.
    destruct (spawn_loop_spec (size (pool s)) 0 s) as (H1 & H2 & _).
    rewrite Hsize, Hheap in H1. rewrite Hsize, Hheap, Hw in H2. cbn [app length] in H1, H2.
    assert (Hids : List.map (fun w => _id <$> heap (spawn_loop n 0 s) !! w)
                            (workers (pool (spawn_loop n 0 s)))
                   = List.map Some (seq 1 n)).
    { rewrite H1, H2.
      change (List.map ?f ?l) with (f <$> l).
      apply list_eq. intros j. rewrite !list_lookup_fmap.
      destruct (decide (j < n)) as [Hj|Hj].
      - rewrite !lookup_seq_lt by lia. cbn [fmap option_fmap option_map].
        rewrite list_lookup_fmap, lookup_seq_lt by lia. cbn. f_equal. f_equal. lia.
      - rewrite !lookup_seq_ge by lia. reflexivity. }
    assert (Hgoal : forall s',
              heap s' = heap (spawn_loop n 0 s) ->
              workers (pool s') = workers (pool (spawn_loop n 0 s)) ->
              (exists l, start_awaits s' = Some l) ->
              worker_ids s' = match start_awaits s' with
                              | Some _ => List.map Some (seq 1 n)
                              | None => []
                              end).
    { intros s' Hh' Hw' [l Hl]. unfold worker_ids. rewrite Hh', Hw', Hl. exact Hids. }
    unfold start. rewrite Hsize.
    destruct (workers (pool (spawn_loop n 0 s))) eqn:Ew; apply Hgoal;
      unfold start_resume; cbn [heap pool workers with_idle start_awaits]; eauto.
  - apply Hkeep. unfold enqueue. rewrite ids_dispatch. reflexivity.
  - apply Hkeep. unfold waitUntilDone. destruct (_ && _); reflexivity.
  - assert (Hst : start_awaits s <> None).
    { intros Hn. destruct (inv_fresh s HI Hn) as (Hh & _).
      cbn [enabled] in Hen. rewrite Hh in Hen. discriminate. }
    apply Hkeep. rewrite ids_on_ready.
    + now apply ids_update_obj.
    + unfold update_obj. destruct (heap s !! w); exact Hst.
  - now apply Hkeep.
  - apply Hkeep. cbn [_handleMessage]. rewrite ids_back_to_idle.
    unfold ids_view. cbn [with_pool heap pool workers with_stats start_awaits].
    fold (ids_view (update_obj w answer s)). now apply ids_update_obj.
  - cbn [enabled] in Hen. destruct (heap s !! w) as [o|] eqn:Ho; [|discriminate].
    apply andb_prop in Hen as [Hend _]. apply negb_true_iff in Hend.
    assert (Hst : exists l, start_awaits s = Some l).
    { destruct (start_awaits s) eqn:Est; [eauto|].
      destruct (inv_fresh s HI Est) as (Hh & _). rewrite Hh in Ho. discriminate. }
    destruct Hst as [l Hst]. rewrite Hst in IH.
    destruct (indexOf_Some (workers (pool s)) w (inv_members s HI w o Ho Hend))
      as (idx & Hidx & Hat).
    rewrite (heap_update_obj w set_ended s o Ho).
    rewrite (handleError_member _ w idx (set_ended o));
      [|exact Hidx | cbn [with_heap heap]; apply list_lookup_insert_eq;
                     now apply lookup_lt_Some in Ho].
    unfold worker_ids in *.
    assert (Hall : forall j x, workers (pool s) !! j = Some x -> x < length (heap s)).
    { intros j x Ex.
      assert (Hsome : List.map (fun w0 => _id <$> heap s !! w0) (workers (pool s)) !! j
                      = List.map Some (seq 1 n) !! j) by (now rewrite IH).
      change (List.map ?f ?l) with (f <$> l) in Hsome.
      rewrite !list_lookup_fmap, Ex in Hsome. cbn in Hsome.
      destruct (seq 1 n !! j); [|discriminate]. cbn in Hsome.
      destruct (heap s !! x) eqn:E; [|discriminate]. now apply lookup_lt_Some in E. }
    cbn [with_heap heap pool workers start_awaits set_ended _id]. rewrite Hst.
    rewrite <- IH. change (List.map ?f ?l) with (f <$> l).
    apply list_eq. intros j. rewrite !list_lookup_fmap.
    assert (Hlt : w < length (heap s)) by (now apply lookup_lt_Some in Ho).
    destruct (decide (j = idx)) as [->|Hj].
    + rewrite list_lookup_insert_eq by (now apply lookup_lt_Some in Hat).
      rewrite Hat. cbn [fmap option_fmap option_map].
      rewrite lookup_app_r by (rewrite length_insert; lia).
      rewrite length_insert, Nat.sub_diag, Ho. reflexivity.
    + rewrite list_lookup_insert_ne by congruence.
      destruct (workers (pool s) !! j) as [x|] eqn:Ex; [|reflexivity].
      cbn [fmap option_fmap option_map].
      assert (Hx : x < length (heap s)) by (now apply (Hall j)).
      rewrite lookup_app_l by (rewrite length_insert; lia).
      destruct (decide (x = w)) as [->|Hxw].
      * rewrite list_lookup_insert_eq by lia. now rewrite Ho.
      * now rewrite list_lookup_insert_ne by congruence.
  - apply Hkeep. now apply ids_update_obj.
  - apply Hkeep. apply ids_post_exit.
Qed.

(** A pool of no worker. *)
Lemma reachable_empty_pool s :
  reachable 0 s ->
  heap s = [] /\ idle (pool s) = [] /\ workers (pool s) = [].
Proof.
  intros Hreach. pose proof (reachable_invariant 0 s Hreach) as HI.
  pose proof (reachable_size 0 s Hreach) as Hsize.
  pose proof (inv_size s HI) as Hw. rewrite Hsize in Hw.
  assert (Hw' : workers (pool s) = []).
  { apply nil_length_inv. destruct (start_awaits s); exact Hw. }
  assert (Hh : heap s = []).
  { clear HI Hsize Hw Hw'. revert s Hreach.
    apply (reachable_ind 0 (fun s => heap s = [])); [reflexivity|].
    intros s i Hreach Hh Hen.
    destruct i as [|novels| |w m|w|w code|]; cbn [enabled] in Hen;
      try (rewrite Hh in Hen; cbn in Hen; destruct m; discriminate);
      try (rewrite Hh in Hen; discriminate).
    - cbn [handle]. unfold start. rewrite (reachable_size 0 s Hreach). cbn [spawn_loop].
      destruct (workers (pool s)); exact Hh.
    - cbn [handle]. unfold enqueue.
      apply (dispatch_loop_ind (fun s' => heap s' = [])); [|exact Hh].
      intros s' w idle' novel queue' _ _ Hs'. unfold post_download.
      cbn [with_pool heap emit with_heap]. now rewrite Hs'.
    - cbn [handle]. unfold waitUntilDone. destruct (_ && _); exact Hh.
    - cbn [handle]. unfold shutdown.
      destruct (post_exit_same (workers (pool s)) s) as (_ & -> & _). exact Hh. }
  split; [exact Hh|]. split; [|exact Hw'].
  destruct (idle (pool s)) as [|w l] eqn:Ei; [reflexivity|].
  destruct (inv_idle s HI w) as (o & Ho & _); [rewrite Ei; left|].
  rewrite Hh in Ho. discriminate.
Qed.

Lemma reachable_step n s i :
  reachable n s -> enabled s i = true -> reachable n (handle s i).
Proof.
  intros [inputs Hrun] Hen. exists (inputs ++ [i]).
  rewrite run_app, Hrun. cbn [run]. unfold step. now rewrite Hen.
Qed.

Lemma empty_pool_handle s i :
  reachable 0 s -> enabled s i = true -> queue (pool s) <> [] ->
  settled (log (handle s i)) = settled (log s)
  /\ queue (pool (handle s i)) <> []
  /\ posted_novels (log (handle s i)) = posted_novels (log s).
Proof.
  intros Hreach Hen Hq.
  destruct (reachable_empty_pool s Hreach) as (Hheap & Hidle & Hw).
  assert (Hqueue : exists l, queue (pool (handle s i)) = queue (pool s) ++ l).
  { destruct i as [|novels| |w m|w|w code|]; cbn [enabled] in Hen;
      try (rewrite Hheap in Hen; cbn in Hen; destruct m; discriminate);
      try (rewrite Hheap in Hen; discriminate); cbn [handle].
    - exists []. rewrite app_nil_r. unfold start.
      destruct (spawn_loop_spec (size (pool s)) 0 s) as (_ & _ & _ & _ & H5 & _).
      destruct (workers (pool (spawn_loop (size (pool s)) 0 s))); exact H5.
    - exists novels. unfold enqueue, _dispatch. cbn [with_pool pool idle queue].
      rewrite Hidle. reflexivity.
    - exists []. rewrite app_nil_r. unfold waitUntilDone. destruct (_ && _); reflexivity.
    - exists []. rewrite app_nil_r. unfold shutdown.
      destruct (post_exit_same (workers (pool s)) s) as (-> & _). reflexivity. }
  destruct Hqueue as [l Hl].
  assert (Hq' : queue (pool (handle s i)) <> []).
  { rewrite Hl. destruct (queue (pool s)); [contradiction|discriminate]. }
  split; [|split; [exact Hq'|]].
  - assert (Hcase : i = WaitUntilDone \/ i <> WaitUntilDone)
      by (destruct i; (now left) || (right; discriminate)).
    destruct Hcase as [->|Hi].
    + pose proof (pview_waitUntilDone s) as Hv. unfold pview in Hv.
      assert (Hnd : all_done s = false).
      { unfold all_done. destruct (queue (pool s)); [contradiction|].
        cbn [length Nat.eqb]. apply andb_false_r. }
      rewrite Hnd in Hv. cbn [handle]. now injection Hv as -> _ _.
    + pose proof (pview_handle s i Hi) as Hv. unfold pview in Hv.
      assert (Hnd : all_done (handle s i) = false).
      { unfold all_done. destruct (queue (pool (handle s i))); [contradiction|].
        cbn [length Nat.eqb]. apply andb_false_r. }
      rewrite Hnd, andb_false_r in Hv.
      destruct (_resolveAllDone (pool s)); now injection Hv as -> _ _.
  - pose proof (ledger_handle s i) as Hled. unfold ledger_view in Hled.
    cbn [fst snd] in Hled. injection Hled as Hled _.
    assert (Hl' : l = match i with Enqueue novels => novels | _ => [] end).
    { destruct i as [|novels| |w m|w|w code|]; cbn [enabled] in Hen;
        try (rewrite Hheap in Hen; cbn in Hen; destruct m; discriminate);
        try (rewrite Hheap in Hen; discriminate); cbn [handle] in Hl.
      - unfold start in Hl.
        destruct (spawn_loop_spec (size (pool s)) 0 s) as (_ & _ & _ & _ & H5 & _).
        destruct (workers (pool (spawn_loop (size (pool s)) 0 s)));
          cbn [start_resume pool with_idle queue] in Hl; rewrite H5 in Hl;
          rewrite <- (app_nil_r (queue (pool s))) in Hl at 1;
          apply app_inv_head in Hl; now symmetry.
      - unfold enqueue, _dispatch in Hl. cbn [with_pool pool idle queue] in Hl.
        rewrite Hidle in Hl. cbn in Hl. apply app_inv_head in Hl; now symmetry.
      - unfold waitUntilDone in Hl. destruct (_ && _); cbn in Hl;
          rewrite <- (app_nil_r (queue (pool s))) in Hl at 1; apply app_inv_head in Hl; now symmetry.
      - unfold shutdown in Hl.
        destruct (post_exit_same (workers (pool s)) s) as (Hp & _). rewrite Hp in Hl.
        rewrite <- (app_nil_r (queue (pool s))) in Hl at 1. apply app_inv_head in Hl; now symmetry. }
    rewrite Hl, <- Hl', app_assoc in Hled. apply app_inv_tail in Hled.
    now apply app_inv_tail in Hled.
Qed.

Lemma empty_pool_run inputs : forall s s',
  reachable 0 s -> queue (pool s) <> [] -> run s inputs = Some s' ->
  settled (log s') = settled (log s)
  /\ queue (pool s') <> []
  /\ posted_novels (log s') = posted_novels (log s).
Proof.
  induction inputs as [|i inputs IH]; intros s s' Hreach Hq Hrun.
  - injection Hrun as <-. auto.
  - cbn [run] in Hrun. unfold step in Hrun. destruct (enabled s i) eqn:Hen; [|discriminate].
    destruct (empty_pool_handle s i Hreach Hen Hq) as (H1 & H2 & H3).
    destruct (IH _ _ (reachable_step 0 s i Hreach Hen) H2 Hrun) as (H4 & H5 & H6).
    rewrite H4, H6. auto.
Qed.

Lemma empty_pool_queue s i :
  reachable 0 s -> enabled s i = true ->
  queue (pool (handle s i))
  = queue (pool s) ++ match i with Enqueue novels => novels | _ => [] end.
Proof.
  intros Hreach Hen. destruct (reachable_empty_pool s Hreach) as (Hheap & Hidle & Hw).
  destruct i as [|novels| |w m|w|w code|]; cbn [enabled] in Hen;
    try (rewrite Hheap in Hen; cbn in Hen; destruct m; discriminate);
    try (rewrite Hheap in Hen; discriminate); cbn [handle]; rewrite ?app_nil_r.
  - unfold start.
    destruct (spawn_loop_spec (size (pool s)) 0 s) as (_ & _ & _ & _ & H5 & _).
    destruct (workers (pool (spawn_loop (size (pool s)) 0 s))); exact H5.
  - unfold enqueue, _dispatch. cbn [with_pool pool idle queue]. rewrite Hidle. reflexivity.
  - unfold waitUntilDone. destruct (_ && _); reflexivity.
  - unfold shutdown. destruct (post_exit_same (workers (pool s)) s) as (-> & _). reflexivity.
Qed.

Lemma empty_pool_posts_nothing s : reachable 0 s -> posted_novels (log s) = [].
Proof.
  revert s. apply (reachable_ind 0 (fun s => posted_novels (log s) = [])); [reflexivity|].
  intros s i Hreach IH Hen.
  pose proof (ledger_handle s i) as Hled. unfold ledger_view in Hled.
  injection Hled as Hled _.
  rewrite (empty_pool_queue s i Hreach Hen), IH, app_assoc in Hled. cbn [app] in Hled.
  apply app_inv_tail in Hled.
  destruct (posted_novels (log (handle s i))); [reflexivity|].
  exfalso. apply (f_equal (@length _)) in Hled. rewrite length_app in Hled.
  cbn [length] in Hled. lia.
Qed.

End PoolIdsFacts.

(** X16.  Once [start()] was called, [this.workers] holds the workers
    with the identities 1 to [size], in this order, whatever was replaced
    since: a replacement takes the place and the [_id] of the worker it
    replaces. *)
Theorem pool_keeps_worker_ids :
  forall (n : nat) (s : Pool.State),
    Pool.reachable n s -> Pool.start_awaits s <> None ->
    PoolIds.worker_ids s = List.map Some (seq 1 n).
Proof.
  intros n s Hr Hst. rewrite (reachable_worker_ids n s Hr).
  destruct (Pool.start_awaits s); [reflexivity | contradiction].
Qed.

Lemma pool_keeps_worker_ids_witness :
  PoolIds.worker_ids
    (Pool.after 2 [Pool.Start; Pool.Message 0 Pool.Ready; Pool.Message 1 Pool.Ready;
                   Pool.Enqueue [Pool.sample_entry "a"]; Pool.Error 0])
  = [Some 1; Some 2].
Proof.
  apply (pool_keeps_worker_ids 2).
  - exists [Pool.Start; Pool.Message 0 Pool.Ready; Pool.Message 1 Pool.Ready;
            Pool.Enqueue [Pool.sample_entry "a"]; Pool.Error 0].
    vm_compute. reflexivity.
  - vm_compute. discriminate.
Defined.

(** X17.  With no worker ([--workers 0]) the pool never sends a job, and
    once a novel is queued the promise of [waitUntilDone()] is never
    resolved: [main] waits for ever. *)
Theorem pool_without_workers_never_done :
  forall (pre rest : list Pool.input) (s s' : Pool.State),
    Pool.run (Pool.init 0) pre = Some s ->
    Pool.queue (Pool.pool s) <> [] ->
    Pool.run s (Pool.WaitUntilDone :: rest) = Some s' ->
    (fst (Pool.waitUntilDone s) ∉ Pool.settled (Pool.log s'))
    /\ PoolLedger.posted_novels (Pool.log s') = []
    /\ Pool.queue (Pool.pool s') <> [].
Proof.
  intros pre rest s s' Hpre Hq Hrun.
  assert (Hreach : Pool.reachable 0 s) by (now exists pre).
  destruct (empty_pool_run _ _ _ Hreach Hq Hrun) as (Hs & Hq' & Hp).
  assert (Hfst : fst (Pool.waitUntilDone s) = Pool.next_promise s).
  { unfold Pool.waitUntilDone. destruct (_ && _); reflexivity. }
  split; [|split; [|exact Hq']].
  - rewrite Hs, Hfst. intros Hin.
    destruct (reachable_promises_ok 0 s Hreach) as (Hlt & _).
    specialize (Hlt _ Hin). lia.
  - rewrite Hp. now apply empty_pool_posts_nothing.
Qed.

Lemma pool_without_workers_never_done_witness :
  exists s',
    Pool.run (Pool.after 0 [Pool.Start; Pool.Enqueue [Pool.sample_entry "a"]])
      [Pool.WaitUntilDone; Pool.Shutdown] = Some s'
    /\ (fst (Pool.waitUntilDone
               (Pool.after 0 [Pool.Start; Pool.Enqueue [Pool.sample_entry "a"]]))
        ∉ Pool.settled (Pool.log s')).
Proof.
  destruct (Pool.run (Pool.after 0 [Pool.Start; Pool.Enqueue [Pool.sample_entry "a"]])
              [Pool.WaitUntilDone; Pool.Shutdown]) as [s'|] eqn:E.
  - exists s'. split; [reflexivity|].
    refine (proj1 (pool_without_workers_never_done
                     [Pool.Start; Pool.Enqueue [Pool.sample_entry "a"]] [Pool.Shutdown]
                     _ s' _ _ E)).
    + vm_compute. reflexivity.
    + vm_compute. discriminate.
  - vm_compute in E. discriminate.
Defined.

Section IdleFaultFacts.
Import Pool.

Lemma idle_update_obj w f s : idle (pool (update_obj w f s)) = idle (pool s).
Proof. unfold update_obj. destruct (heap s !! w); reflexivity. Qed.

Lemma idle_handleError w s : idle (pool (_handleError w s)) = idle (pool s).
Proof.
  unfold _handleError. destruct (indexOf (workers (pool s)) w); [|reflexivity].
  reflexivity.
Qed.

End IdleFaultFacts.

(** X18.  A worker that throws an uncaught error while it is idle stays in
    the idle list: the count of jobs in flight goes down by one though the
    worker held no job, and the next novel enqueued is sent to that worker,
    whose thread is over. *)
Theorem idle_worker_fault_stays_idle :
  forall (n : nat) (s : Pool.State) (w : nat) (rest : list nat) (novel : Pool.Entry),
    Pool.reachable n s ->
    Pool.idle (Pool.pool s) = w :: rest ->
    Pool.queue (Pool.pool s) = [] ->
    Pool.enabled s (Pool.Error w) = true ->
    let s1 := Pool.handle s (Pool.Error w) in
    Pool.idle (Pool.pool s1) = w :: rest
    /\ (exists o, Pool.heap s1 !! w = Some o /\ Pool.ended o = true /\ Pool.holding o = 0)
    /\ Pool.inProgress (Pool.stats (Pool.pool s1))
       = (Pool.inProgress (Pool.stats (Pool.pool s)) - 1)%Z
    /\ Pool.log (Pool.handle s1 (Pool.Enqueue [novel]))
       = Pool.log s1 ++ [Pool.Posted w (Pool.Download (Pool.slug novel) (Pool.title novel))].
Proof.
  intros n s w rest novel Hreach Hidle Hq Hen s1.
  pose proof (reachable_invariant n s Hreach) as HI.
  destruct (Pool.inv_idle s HI w) as (o & Ho & Hh & Hl); [rewrite Hidle; left|].
  cbn [Pool.enabled] in Hen. rewrite Ho in Hen.
  apply andb_prop in Hen as [Hend _]. apply negb_true_iff in Hend.
  destruct (indexOf_Some (Pool.workers (Pool.pool s)) w (Pool.inv_members s HI w o Ho Hend))
    as (idx & Hidx & Hat).
  assert (Hlt : w < length (Pool.heap s)) by (now apply lookup_lt_Some in Ho).
  assert (Hs1 : s1 = Pool._handleError w (Pool.update_obj w Pool.set_ended s)) by reflexivity.
  rewrite (heap_update_obj w Pool.set_ended s o Ho) in Hs1.
  rewrite (handleError_member _ w idx (Pool.set_ended o)) in Hs1;
    [|exact Hidx | cbn [Pool.with_heap Pool.heap]; now apply list_lookup_insert_eq].
  cbn [Pool.with_heap Pool.pool Pool.heap Pool.idle Pool.queue Pool.stats Pool.workers
       Pool.size Pool.totalQueued Pool._resolveAllDone Pool.start_awaits
       Pool.respawn_awaits Pool.next_promise Pool.log] in Hs1.
  rewrite Hs1. cbn [Pool.pool Pool.idle Pool.heap Pool.stats Pool.inProgress Pool.log].
  split; [exact Hidle|]. split.
  { exists (Pool.set_ended o). rewrite lookup_app_l by (rewrite length_insert; lia).
    rewrite list_lookup_insert_eq by lia. repeat split. exact Hh. }
  split; [reflexivity|].
  cbn [Pool.handle]. unfold Pool.enqueue, Pool._dispatch.
  cbn [Pool.with_pool Pool.pool Pool.idle Pool.queue]. rewrite Hidle, Hq.
  cbn [app Pool.dispatch_loop]. destruct rest; reflexivity.
Qed.

Lemma idle_worker_fault_stays_idle_witness :
  Pool.idle
    (Pool.pool
       (Pool.handle
          (Pool.after 1 [Pool.Start; Pool.Message 0 Pool.Ready;
                         Pool.Enqueue [Pool.sample_entry "a"];
                         Pool.Message 0 (Pool.Result (lit "a") (Pool.sample_result true false))])
          (Pool.Error 0)))
  = [0].
Proof.
  refine (proj1 (idle_worker_fault_stays_idle 1
    (Pool.after 1 [Pool.Start; Pool.Message 0 Pool.Ready;
                   Pool.Enqueue [Pool.sample_entry "a"];
                   Pool.Message 0 (Pool.Result (lit "a") (Pool.sample_result true false))])
    0 [] (Pool.sample_entry "b") _ _ _ _)).
  - exists [Pool.Start; Pool.Message 0 Pool.Ready;
            Pool.Enqueue [Pool.sample_entry "a"];
            Pool.Message 0 (Pool.Result (lit "a") (Pool.sample_result true false))].
    vm_compute. reflexivity.
  - vm_compute. reflexivity.
  - vm_compute. reflexivity.
  - vm_compute. reflexivity.
Defined.
